(** * Standaardwerk web application: DSL parser and TIA Portal netlist generator

    A shallow embedding of the parts of the repository that turn the
    line-oriented RUST/SCHRITT step notation into a program model and the
    program model into a function-block netlist serialized as XML:

    - [src/generator/*]            : identifier allocator, XML builder, netlist components,
                                     [generateTIAPortalXML];
    - [src/utils/RegexCache.js]    : the memoizing cache of compiled patterns;
    - [src/config/validationRules.js] : variable-group classification;
    - [src/core/UnifiedTextParser.js] : text normalization and consistency validation;
    - [src/core/EnhancedLogicParser.js] / [src/core/LogicParser.js] : the line parser.

    JavaScript strings are sequences of UTF-16 code units and are modelled as
    [list N]; JavaScript regular expressions are modelled by a backtracking
    matcher over an abstract syntax of patterns that follows the ECMAScript
    matching rules (priority of alternatives, greedy and lazy quantifiers,
    captures, anchors, look-ahead). *)

From Stdlib Require Import ZArith NArith Lia String Ascii Bool DecimalString DecimalNat.
From stdpp Require Import base option list gmap sorting.

Set Default Proof Using "Type".
Local Open Scope nat_scope.

(* ===================================================================== *)
(** * JavaScript strings *)
(* ===================================================================== *)

(** A JavaScript string: its UTF-16 code units. *)
Definition jsstring : Type := list N.

(** ASCII literals of the source are written [js "..."]. *)
Definition js (s : string) : jsstring :=
  map N_of_ascii (list_ascii_of_string s).

(** Literals with characters outside ASCII are written [jsu "..."]: the
    bytes of the literal are decoded from UTF-8 to UTF-16 code units. *)
Fixpoint decodeUtf8 (bytes : list N) : jsstring :=
  match bytes with
  | [] => []
  | b0 :: bytes1 =>
      if (b0 <? 192)%N then b0 :: decodeUtf8 bytes1
      else
        match bytes1 with
        | [] => [b0]
        | b1 :: bytes2 =>
            if (b0 <? 224)%N
            then ((b0 - 192) * 64 + (b1 - 128))%N :: decodeUtf8 bytes2
            else
              match bytes2 with
              | [] => [b0; b1]
              | b2 :: bytes3 =>
                  if (b0 <? 240)%N
                  then ((b0 - 224) * 4096 + (b1 - 128) * 64 + (b2 - 128))%N
                       :: decodeUtf8 bytes3
                  else
                    match bytes3 with
                    | [] => [b0; b1; b2]
                    | b3 :: bytes4 =>
                        let point := ((b0 - 240) * 262144 + (b1 - 128) * 4096
                                      + (b2 - 128) * 64 + (b3 - 128) - 65536)%N in
                        (55296 + point / 1024)%N :: (56320 + point mod 1024)%N
                        :: decodeUtf8 bytes4
                    end
              end
        end
  end.

Definition jsu (s : string) : jsstring :=
  decodeUtf8 (map N_of_ascii (list_ascii_of_string s)).

Module JsString.

Definition eqb (a b : jsstring) : bool := bool_decide (a = b).

(** The empty string, the only string that is falsy. *)
Definition isEmpty (s : jsstring) : bool :=
  match s with
  | [] => true
  | _ :: _ => false
  end.

(** [String.prototype.startsWith]. *)
Fixpoint startsWith (s p : jsstring) : bool :=
  match p, s with
  | [], _ => true
  | _ :: _, [] => false
  | c :: p', d :: s' => N.eqb c d && startsWith s' p'
  end.

(** [String.prototype.includes] (for any search string). *)
Fixpoint includes (s p : jsstring) : bool :=
  startsWith s p ||
  match s with
  | [] => false
  | _ :: s' => includes s' p
  end.

(** [String.prototype.endsWith]. *)
Definition endsWith (s p : jsstring) : bool :=
  startsWith (rev s) (rev p).

(** White space and line terminators, the characters removed by
    [String.prototype.trim] and matched by the pattern [\s]. *)
Definition spaceRanges : list (N * N) :=
  [(9, 13); (32, 32); (160, 160); (5760, 5760); (8192, 8202);
   (8232, 8233); (8239, 8239); (8287, 8287); (12288, 12288);
   (65279, 65279)]%N.

Definition inRanges (rs : list (N * N)) (c : N) : bool :=
  existsb (fun r => (fst r <=? c)%N && (c <=? snd r)%N) rs.

Definition isSpace (c : N) : bool := inRanges spaceRanges c.

Fixpoint trimStart (s : jsstring) : jsstring :=
  match s with
  | c :: s' => if isSpace c then trimStart s' else s
  | [] => []
  end.

Definition trimEnd (s : jsstring) : jsstring := rev (trimStart (rev s)).

(** [String.prototype.trim]. *)
Definition trim (s : jsstring) : jsstring := trimEnd (trimStart s).

(** [s.split(sep)] for a separator of one code unit: never returns the
    empty list. *)
Fixpoint split (sep : N) (s : jsstring) : list jsstring :=
  match s with
  | [] => [[]]
  | c :: s' =>
      if N.eqb c sep then [] :: split sep s'
      else match split sep s' with
           | l :: ls => (c :: l) :: ls
           | [] => [[c]]
           end
  end.

(** [parts.join(sep)]. *)
Fixpoint join (sep : jsstring) (parts : list jsstring) : jsstring :=
  match parts with
  | [] => []
  | [p] => p
  | p :: ps => p ++ sep ++ join sep ps
  end.

(** Case conversion of the letters A-Z and a-z.  The source applies
    [toUpperCase] and [toLowerCase] only to keywords and to text matched
    by patterns made of ASCII letters, digits, [+] and white space. *)
Definition upperChar (c : N) : N :=
  if (97 <=? c)%N && (c <=? 122)%N then (c - 32)%N else c.
Definition lowerChar (c : N) : N :=
  if (65 <=? c)%N && (c <=? 90)%N then (c + 32)%N else c.
Definition toUpperCase (s : jsstring) : jsstring := map upperChar s.
Definition toLowerCase (s : jsstring) : jsstring := map lowerChar s.

Definition isDigit (c : N) : bool := (48 <=? c)%N && (c <=? 57)%N.

(** [String(n)] for a non-negative integer. *)
Definition ofNat (n : nat) : jsstring :=
  js (NilEmpty.string_of_uint (Nat.to_uint n)).

(** [String(z)] for an integer. *)
Definition ofZ (z : Z) : jsstring :=
  js (NilEmpty.string_of_int (Z.to_int z)).

(** [parseInt(s)] where [s] holds no sign and no radix prefix, which is
    the case at every call of the source (the argument is text matched by
    [\d+] or a run of digits): [None] stands for [NaN] (no leading
    digit).  Digits are read up to the first other character. *)
Fixpoint parseDigits (acc : N) (s : jsstring) : N :=
  match s with
  | c :: s' => if isDigit c then parseDigits (acc * 10 + (c - 48))%N s' else acc
  | [] => acc
  end.

Definition parseInt (s : jsstring) : option N :=
  match trimStart s with
  | (c :: _) as t => if isDigit c then Some (parseDigits 0%N t) else None
  | [] => None
  end.

End JsString.

(* ===================================================================== *)
(** * JavaScript regular expressions *)
(* ===================================================================== *)

Module RegExp.
Import JsString.

(** Abstract syntax of the patterns used by the source.  Character
    classes are lists of inclusive code-unit ranges. *)
Inductive regex : Type :=
| Empty                                       (* the empty pattern *)
| Char (c : N)                                (* a literal character *)
| Any                                         (* [.] *)
| Class (negated : bool) (rs : list (N * N))  (* [[...]] and [[^...]] *)
| Seq (r1 r2 : regex)
| Alt (r1 r2 : regex)
| Repeat (r : regex) (min : nat) (max : option nat) (greedy : bool)
| Group (i : nat) (r : regex)                 (* i-th capturing group *)
| Bol                                         (* [^] *)
| Eol                                         (* [$] *)
| WordBoundary                                (* [\b] *)
| Lookahead (negative : bool) (r : regex).    (* [(?=r)] and [(?!r)] *)

Record flags : Type := Flags {
  ignoreCase : bool;   (* i *)
  multiline : bool;    (* m *)
  global : bool;       (* g *)
  sticky : bool        (* y *)
}.

Definition noFlags : flags := Flags false false false false.
Definition flag_i : flags := Flags true false false false.
Definition flag_g : flags := Flags false false true false.
Definition flag_gm : flags := Flags false true true false.
Definition flag_gmi : flags := Flags true true true false.

(** Pattern abbreviations. *)
Definition digitRanges : list (N * N) := [(48, 57)]%N.
Definition wordRanges : list (N * N) := [(48, 57); (65, 90); (95, 95); (97, 122)]%N.
Definition lineTerminators : list (N * N) := [(10, 10); (13, 13); (8232, 8233)]%N.

Definition Digit : regex := Class false digitRanges.            (* \d *)
Definition Word : regex := Class false wordRanges.              (* \w *)
Definition Space : regex := Class false spaceRanges.            (* \s *)
Definition Star (r : regex) : regex := Repeat r 0 None true.    (* r* *)
Definition Plus (r : regex) : regex := Repeat r 1 None true.    (* r+ *)
Definition Opt (r : regex) : regex := Repeat r 0 (Some 1) true. (* r? *)
Definition LazyPlus (r : regex) : regex := Repeat r 1 None false. (* r+? *)
Definition AtLeast (n : nat) (r : regex) : regex := Repeat r n None true. (* r{n,} *)

Fixpoint Str (s : jsstring) : regex :=
  match s with
  | [] => Empty
  | [c] => Char c
  | c :: s' => Seq (Char c) (Str s')
  end.

Fixpoint Seqs (rs : list regex) : regex :=
  match rs with
  | [] => Empty
  | [r] => r
  | r :: rs' => Seq r (Seqs rs')
  end.

Fixpoint Alts (rs : list regex) : regex :=
  match rs with
  | [] => Class false []        (* matches nothing *)
  | [r] => r
  | r :: rs' => Alt r (Alts rs')
  end.

(** Indices of the capturing groups inside a pattern. *)
Fixpoint groupsOf (r : regex) : list nat :=
  match r with
  | Seq r1 r2 | Alt r1 r2 => groupsOf r1 ++ groupsOf r2
  | Repeat r' _ _ _ | Lookahead _ r' => groupsOf r'
  | Group i r' => i :: groupsOf r'
  | _ => []
  end.

(** The state of a match in progress: the text still to read, the
    character just before it, and the captures made so far
    ([None] is JavaScript's [undefined]). *)
Record mstate : Type := MState {
  rest : jsstring;
  prev : option N;
  caps : list (nat * jsstring)
}.

Fixpoint getCap (cs : list (nat * jsstring)) (i : nat) : option jsstring :=
  match cs with
  | [] => None
  | (j, s) :: cs' => if bool_decide (j = i) then Some s else getCap cs' i
  end.

Definition dropCaps (ids : list nat) (cs : list (nat * jsstring)) : list (nat * jsstring) :=
  filter (fun p => fst p ∉ ids) cs.

Definition setCap (i : nat) (s : jsstring) (cs : list (nat * jsstring)) : list (nat * jsstring) :=
  (i, s) :: dropCaps [i] cs.

(** The canonical form of a character under the [i] flag: the letters
    a-z and the Latin-1 letters U+00E0-U+00FE (without the division sign)
    are identified with their capitals.  The letters of every
    [i]-flagged pattern modelled here are among these and their
    capitals, and the ECMAScript rule identifies no other character with
    one of them. *)
Definition canon (f : flags) (c : N) : N :=
  if ignoreCase f then
    if ((97 <=? c) && (c <=? 122))%N then (c - 32)%N
    else if ((224 <=? c) && (c <=? 254) && negb (c =? 247))%N then (c - 32)%N
    else c
  else c.

Definition charMatches (f : flags) (lit c : N) : bool :=
  N.eqb (canon f lit) (canon f c).

Definition classMatches (f : flags) (negated : bool) (rs : list (N * N)) (c : N) : bool :=
  let found :=
    if ignoreCase f
    then inRanges rs c || inRanges rs (upperChar c) || inRanges rs (lowerChar c)
    else inRanges rs c in
  xorb negated found.

Definition isLineTerminator (c : N) : bool := inRanges lineTerminators c.
Definition isWordChar (c : N) : bool := inRanges wordRanges c.

Definition isWordOpt (c : option N) : bool :=
  match c with Some c => isWordChar c | None => false end.

(** Read one character. *)
Definition advance (st : mstate) : option (N * mstate) :=
  match rest st with
  | c :: s' => Some (c, MState s' (Some c) (caps st))
  | [] => None
  end.

(** The text read between two states of the same match. *)
Definition consumed (st st' : mstate) : jsstring :=
  take (length (rest st) - length (rest st')) (rest st).

Definition orElse {A} (a : option A) (b : unit -> option A) : option A :=
  match a with
  | Some x => Some x
  | None => b tt
  end.

Definition belowMax (max : option nat) (count : nat) : bool :=
  match max with
  | Some mx => bool_decide (count < mx)
  | None => true
  end.

(** The backtracking matcher in continuation-passing style: [m f r k st]
    matches [r] at [st] and hands the resulting state to [k]; [None] is
    failure, which makes the caller try its next alternative. *)
Fixpoint m (f : flags) (r : regex) (k : mstate -> option mstate) (st : mstate)
  {struct r} : option mstate :=
  match r with
  | Empty => k st
  | Char lit =>
      match advance st with
      | Some (c, st') => if charMatches f lit c then k st' else None
      | None => None
      end
  | Any =>
      match advance st with
      | Some (c, st') => if isLineTerminator c then None else k st'
      | None => None
      end
  | Class negated rs =>
      match advance st with
      | Some (c, st') => if classMatches f negated rs c then k st' else None
      | None => None
      end
  | Seq r1 r2 => m f r1 (fun st' => m f r2 k st') st
  | Alt r1 r2 => orElse (m f r1 k st) (fun _ => m f r2 k st)
  | Repeat r' min max greedy =>
      (fix loop (fuel count : nat) (st : mstate) {struct fuel} : option mstate :=
         match fuel with
         | 0 => None
         | S fuel' =>
             let iterate (_ : unit) :=
               if belowMax max count then
                 m f r'
                   (fun st' =>
                      if bool_decide (min <= count)
                         && bool_decide (length (rest st') = length (rest st))
                      then None else loop fuel' (S count) st')
                   (MState (rest st) (prev st) (dropCaps (groupsOf r') (caps st)))
               else None in
             let leave (_ : unit) :=
               if bool_decide (min <= count) then k st else None in
             if greedy then orElse (iterate tt) leave
             else orElse (leave tt) iterate
         end) (S (min + length (rest st))) 0 st
  | Group i r' =>
      m f r' (fun st' => k (MState (rest st') (prev st')
                               (setCap i (consumed st st') (caps st')))) st
  | Bol =>
      match prev st with
      | None => k st
      | Some c => if multiline f && isLineTerminator c then k st else None
      end
  | Eol =>
      match rest st with
      | [] => k st
      | c :: _ => if multiline f && isLineTerminator c then k st else None
      end
  | WordBoundary =>
      if xorb (isWordOpt (prev st)) (isWordOpt (head (rest st)))
      then k st else None
  | Lookahead negative r' =>
      match m f r' Some st with
      | Some st' =>
          if negative then None
          else k (MState (rest st) (prev st) (caps st'))
      | None => if negative then k st else None
      end
  end.

(** The result of a successful match, as [RegExp.prototype.exec] returns
    it: the text before the match, the matched text, the captures and the
    text after the match. *)
Record matchResult : Type := MatchResult {
  before : jsstring;
  matched : jsstring;
  groups : list (nat * jsstring);
  after : jsstring
}.

(** The [n]-th capture of a match, [None] when the group took no part. *)
Definition group (mr : matchResult) (n : nat) : option jsstring := getCap (groups mr) n.

(** The [n]-th capture as a replacement text ([$n], or the argument of a
    replacer function, with [undefined] printed as nothing by [$n]). *)
Definition groupText (mr : matchResult) (n : nat) : jsstring :=
  default [] (group mr n).

(** Match at exactly the current position. *)
Definition matchHere (f : flags) (r : regex) (p : option N) (s : jsstring)
  : option (jsstring * list (nat * jsstring) * jsstring) :=
  match m f r Some (MState s p []) with
  | Some st' => Some (take (length s - length (rest st')) s, caps st', rest st')
  | None => None
  end.

(** The leftmost match at or after the current position (the scan of
    [RegExpBuiltinExec] for a pattern that is not sticky): [skipped]
    accumulates, in reverse, the characters passed over. *)
Fixpoint search (f : flags) (r : regex) (skipped : jsstring) (p : option N)
  (s : jsstring) {struct s} : option matchResult :=
  match matchHere f r p s with
  | Some (mt, cs, s') => Some (MatchResult (rev skipped) mt cs s')
  | None =>
      match s with
      | [] => None
      | c :: s' => search f r (c :: skipped) (Some c) s'
      end
  end.

(** [r.exec(s)] from index 0 (a pattern without [g] and [y]), also
    [s.match(r)] for such a pattern. *)
Definition exec (f : flags) (r : regex) (s : jsstring) : option matchResult :=
  search f r [] None s.

(** [r.test(s)] for a pattern without [g] and [y]. *)
Definition test (f : flags) (r : regex) (s : jsstring) : bool :=
  bool_decide (is_Some (exec f r s)).

(** [s.replace(r, replacer)]: every match is replaced when [r] has the
    [g] flag, the first one otherwise.  After an empty match the scan
    resumes one character further, and that character is kept. *)
Fixpoint replaceFrom (fuel : nat) (f : flags) (r : regex)
  (replacer : matchResult -> jsstring) (p : option N) (s : jsstring) : jsstring :=
  match fuel with
  | 0 => s
  | S fuel' =>
      match search f r [] p s with
      | None => s
      | Some mr =>
          before mr ++ replacer mr ++
          (if global f then
             match matched mr, after mr with
             | [], [] => []
             | [], c :: s' => c :: replaceFrom fuel' f r replacer (Some c) s'
             | _ :: _, s' => replaceFrom fuel' f r replacer (last (matched mr)) s'
             end
           else after mr)
      end
  end.

Definition replace (f : flags) (r : regex) (replacer : matchResult -> jsstring)
  (s : jsstring) : jsstring :=
  replaceFrom (S (length s)) f r replacer None s.

(** [s.replace(r, text)] for a replacement text without [$]. *)
Definition replaceWith (f : flags) (r : regex) (text : jsstring) (s : jsstring) : jsstring :=
  replace f r (fun _ => text) s.

End RegExp.

(* ===================================================================== *)
(** * src/generator/xml-builder.ts *)
(* ===================================================================== *)

Module XmlBuilder.
Import JsString.

(** The type of attribute values, [string | number | boolean]. *)
Inductive attrValue : Type :=
| AttrString (s : jsstring)
| AttrNumber (n : nat)
| AttrBool (b : bool).

(** An element with its children and attributes.  A child is another
    element, a text ([isRaw: false]) or a fragment inserted by [addRaw]
    ([isRaw: true]); [attributes] lists the properties of the attribute
    object in the order [Object.entries] enumerates them. *)
Inductive XmlElement : Type :=
| Element (name : jsstring) (children : list child)
    (attributes : list (jsstring * attrValue))
with child : Type :=
| ChildElement (e : XmlElement)
| ChildText (s : jsstring)
| ChildRaw (xml : jsstring).

Definition name (e : XmlElement) : jsstring :=
  match e with Element n _ _ => n end.
Definition children (e : XmlElement) : list child :=
  match e with Element _ cs _ => cs end.
Definition attributes (e : XmlElement) : list (jsstring * attrValue) :=
  match e with Element _ _ a => a end.

(** [new XmlElement(name)] and [new XmlElement(name, text)]. *)
Definition new (n : jsstring) : XmlElement := Element n [] [].
Definition newText (n : jsstring) (text : jsstring) : XmlElement :=
  Element n [ChildText text] [].

(** [add(child)]. *)
Definition add (c : XmlElement) (e : XmlElement) : XmlElement :=
  match e with Element n cs a => Element n (cs ++ [ChildElement c]) a end.
Definition addText (s : jsstring) (e : XmlElement) : XmlElement :=
  match e with Element n cs a => Element n (cs ++ [ChildText s]) a end.

(** [addRaw(xml)]. *)
Definition addRaw (xml : jsstring) (e : XmlElement) : XmlElement :=
  match e with Element n cs a => Element n (cs ++ [ChildRaw xml]) a end.

(** An own property key that is an array index (a canonical decimal
    numeral below 2^32 - 1): JavaScript enumerates those first, in
    ascending order, before the other keys in insertion order. *)
Definition arrayIndex (key : jsstring) : option N :=
  match key with
  | [] => None
  | c :: s' =>
      if forallb isDigit key && (isEmpty s' || negb (N.eqb c 48))
      then let v := parseDigits 0%N key in
           if (v <? 4294967295)%N then Some v else None
      else None
  end.

Fixpoint insertKey (key : jsstring) (v : attrValue)
  (attrs : list (jsstring * attrValue)) : list (jsstring * attrValue) :=
  match attrs with
  | [] => [(key, v)]
  | (k, w) :: attrs' =>
      match arrayIndex key, arrayIndex k with
      | Some i, Some j =>
          if (i <? j)%N then (key, v) :: attrs else (k, w) :: insertKey key v attrs'
      | Some _, None => (key, v) :: attrs
      | None, _ => (k, w) :: insertKey key v attrs'
      end
  end.

Fixpoint updateKey (key : jsstring) (v : attrValue)
  (attrs : list (jsstring * attrValue)) : option (list (jsstring * attrValue)) :=
  match attrs with
  | [] => None
  | (k, w) :: attrs' =>
      if bool_decide (k = key) then Some ((k, v) :: attrs')
      else cons (k, w) <$> updateKey key v attrs'
  end.

(** [attr(key, value)] with a value that is neither [undefined] nor
    [null]: [this.attributes[key] = value]. *)
Definition attr (key : jsstring) (v : attrValue) (e : XmlElement) : XmlElement :=
  match e with
  | Element n cs a =>
      Element n cs (default (insertKey key v a) (updateKey key v a))
  end.

(** [attr(key, value)] with a value that may be [undefined]. *)
Definition attrOpt (key : jsstring) (v : option attrValue) (e : XmlElement) : XmlElement :=
  match v with
  | Some v => attr key v e
  | None => e
  end.

(** [escapeXml]: five global replacements, in the order of the source. *)
Definition escapeXml (text : jsstring) : jsstring :=
  let text := RegExp.replaceWith RegExp.flag_g (RegExp.Char 38) (js "&amp;") text in
  let text := RegExp.replaceWith RegExp.flag_g (RegExp.Char 60) (js "&lt;") text in
  let text := RegExp.replaceWith RegExp.flag_g (RegExp.Char 62) (js "&gt;") text in
  let text := RegExp.replaceWith RegExp.flag_g (RegExp.Char 34) (js "&quot;") text in
  RegExp.replaceWith RegExp.flag_g (RegExp.Char 39) (js "&apos;") text.

(** [String(value)]. *)
Definition stringOfValue (v : attrValue) : jsstring :=
  match v with
  | AttrString s => s
  | AttrNumber n => ofNat n
  | AttrBool true => js "true"
  | AttrBool false => js "false"
  end.

(** ['  '.repeat(level)]. *)
Fixpoint repeatIndent (level : nat) : jsstring :=
  match level with
  | 0 => []
  | S l => js "  " ++ repeatIndent l
  end.

Definition renderAttribute (kv : jsstring * attrValue) : jsstring :=
  fst kv ++ js "=" ++ [34%N] ++ escapeXml (stringOfValue (snd kv)) ++ [34%N].

(** [toString(pretty, level)]. *)
Fixpoint toString (pretty : bool) (level : nat) (e : XmlElement) {struct e} : jsstring :=
  match e with
  | Element n cs a =>
      let indent := if pretty then repeatIndent level else [] in
      let attrs := join (js " ") (map renderAttribute a) in
      let openTag := indent ++ js "<" ++ n ++
                     (if isEmpty attrs then [] else js " " ++ attrs) in
      match cs with
      | [] => openTag ++ js " />"
      | _ =>
          match cs, pretty with
          | [ChildText text], true =>
              openTag ++ js ">" ++ escapeXml text ++ js "</" ++ n ++ js ">"
          | _, _ =>
              let childrenXml :=
                join (if pretty then [10%N] else [])
                  (map (fun c =>
                          match c with
                          | ChildRaw xml => xml
                          | ChildText s =>
                              (if pretty then indent ++ js "  " else []) ++ escapeXml s
                          | ChildElement c' => toString pretty (S level) c'
                          end) cs) in
              openTag ++ js ">" ++ (if pretty then [10%N] else []) ++ childrenXml ++
              (if pretty then 10%N :: indent else []) ++ js "</" ++ n ++ js ">"
          end
      end
  end.

End XmlBuilder.

(* ===================================================================== *)
(** * src/generator: identifier allocator and netlist components *)
(* ===================================================================== *)

Module Generator.
Import JsString XmlBuilder.

(** ** uid-manager.ts *)

Record UidManager : Type := { currentId : nat }.

(** [next()]: returns the current identifier and increments the counter. *)
Definition next (u : UidManager) : nat * UidManager :=
  (currentId u, {| currentId := S (currentId u) |}).

(** ** interfaces.ts *)

Inductive StepType : Type := STAP | RUST.

Global Instance StepType_eq_dec : EqDecision StepType.
Proof. solve_decision. Defined.

Record Step : Type := {
  number : Z;
  type : StepType;
  description : option jsstring
}.

(** [steps] is [None] for a result without a [steps] property. *)
Record ParseResult : Type := {
  functionBlock : option jsstring;
  steps : option (list Step)
}.

(** [x || ''] and [x || fallback] for an optional string: the fallback
    replaces [undefined] and the empty string. *)
Definition orString (x : option jsstring) (fallback : jsstring) : jsstring :=
  match x with
  | Some ((_ :: _) as s) => s
  | _ => fallback
  end.

(** ** components/multilingual-text.ts *)

Record MultilingualText : Type := {
  mt_texts : list (jsstring * jsstring);        (* lang, text *)
  mt_id : nat;
  mt_compositionName : jsstring
}.

(** The constructor takes its identifier from the manager it is given. *)
Definition newMultilingualText (u : UidManager) (compositionName initialText : jsstring)
  : MultilingualText * UidManager :=
  let '(id, u) := next u in
  ({| mt_texts := [(js "nl-NL", initialText); (js "en-GB", initialText)];
      mt_id := id;
      mt_compositionName := compositionName |}, u).

(** The items of [toXml]: each one takes a fresh identifier from the
    manager at the time of serialization. *)
Fixpoint mt_items (u : UidManager) (texts : list (jsstring * jsstring))
  : list XmlElement * UidManager :=
  match texts with
  | [] => ([], u)
  | (lang, text) :: texts' =>
      let '(id, u) := next u in
      let item :=
        attr (js "CompositionName") (AttrString (js "Items"))
          (attr (js "ID") (AttrNumber id) (new (js "MultilingualTextItem"))) in
      let attrList :=
        add (newText (js "Text") text)
          (add (newText (js "Culture") lang) (new (js "AttributeList"))) in
      let '(items, u) := mt_items u texts' in
      (add attrList item :: items, u)
  end.

(** The element that [MultilingualText.toXml] builds. *)
Definition mt_element (u : UidManager) (t : MultilingualText) : XmlElement * UidManager :=
  let '(items, u) := mt_items u (mt_texts t) in
  let objectList := fold_left (fun ol item => add item ol) items (new (js "ObjectList")) in
  (add objectList
     (attr (js "CompositionName") (AttrString (mt_compositionName t))
        (attr (js "ID") (AttrNumber (mt_id t)) (new (js "MultilingualText")))), u).

Definition mt_toXml (u : UidManager) (pretty : bool) (level : nat) (t : MultilingualText)
  : jsstring * UidManager :=
  let '(e, u) := mt_element u t in (toString pretty level e, u).

(** ** components/interface.ts *)

Record Subelement : Type := { sub_path : jsstring; sub_commentText : jsstring }.

Definition sub_toXml (pretty : bool) (level : nat) (s : Subelement) : jsstring :=
  let simpleTextElement :=
    attr (js "Lang") (AttrString (js "nl-NL"))
      (newText (js "MultiLanguageText") (sub_commentText s)) in
  let commentElement := add simpleTextElement (new (js "Comment")) in
  toString pretty level
    (add commentElement
       (attr (js "Path") (AttrString (sub_path s)) (new (js "Subelement")))).

Record Member : Type := {
  mem_subelements : list Subelement;
  mem_name : jsstring;
  mem_datatype : jsstring;
  mem_remanence : jsstring
}.

Definition mem_toXml (pretty : bool) (level : nat) (mb : Member) : jsstring :=
  let memberEl :=
    attr (js "Datatype") (AttrString (mem_datatype mb))
      (attr (js "Name") (AttrString (mem_name mb)) (new (js "Member"))) in
  let memberEl :=
    if isEmpty (mem_remanence mb) then memberEl
    else attr (js "Remanence") (AttrString (mem_remanence mb)) memberEl in
  toString pretty level
    (fold_left (fun el sub => addRaw (sub_toXml pretty (S level) sub) el)
       (mem_subelements mb) memberEl).

Record Section : Type := { sec_members : list Member; sec_name : jsstring }.

Definition sec_toXml (pretty : bool) (level : nat) (s : Section) : jsstring :=
  let sectionEl := attr (js "Name") (AttrString (sec_name s)) (new (js "Section")) in
  toString pretty level
    (fold_left (fun el mb => addRaw (mem_toXml pretty (S level) mb) el)
       (sec_members s) sectionEl).

(** [sections], in the order of [Object.values(this.sections)]. *)
Record Interface : Type := {
  Input : Section; Output : Section; InOut : Section;
  Static : Section; Temp : Section; Constant : Section
}.

Definition newInterface : Interface :=
  {| Input := {| sec_members := []; sec_name := js "Input" |};
     Output := {| sec_members := []; sec_name := js "Output" |};
     InOut := {| sec_members := []; sec_name := js "InOut" |};
     Static := {| sec_members := []; sec_name := js "Static" |};
     Temp := {| sec_members := []; sec_name := js "Temp" |};
     Constant := {| sec_members := []; sec_name := js "Constant" |} |}.

Definition sectionsOf (i : Interface) : list Section :=
  [Input i; Output i; InOut i; Static i; Temp i; Constant i].

Definition iface_toXml (pretty : bool) (level : nat) (i : Interface) : jsstring :=
  let sectionsEl :=
    attr (js "xmlns")
      (AttrString (js "http://www.siemens.com/automation/Openness/SW/Interface/v5"))
      (new (js "Sections")) in
  let sectionsEl :=
    fold_left
      (fun el s =>
         match sec_members s with
         | _ :: _ => addRaw (sec_toXml pretty (S level) s) el
         | [] => add (attr (js "Name") (AttrString (sec_name s)) (new (js "Section"))) el
         end)
      (sectionsOf i) sectionsEl in
  toString pretty level (add sectionsEl (new (js "Interface"))).

(** ** components/part.ts *)

(** The keys of [Network.partDefinitions], the only names [addPart]
    accepts. *)
Inductive PartName : Type := Sr | Coil | A.

Global Instance PartName_eq_dec : EqDecision PartName.
Proof. solve_decision. Defined.

Definition partNameText (n : PartName) : jsstring :=
  match n with
  | Sr => js "Sr"
  | Coil => js "Coil"
  | A => js "A"
  end.

(** The port [in1], [in2], ... of an AND gate. *)
Definition inPort (i : nat) : jsstring := js "in" ++ ofNat i.

Definition partInputs (n : PartName) : list jsstring :=
  match n with
  | Sr => [js "s"; js "r1"; js "operand"]
  | Coil => [js "in"; js "operand"]
  | A => map (fun i => inPort (i + 1)) (seq 0 30)
  end.

Definition partOutputs (n : PartName) : list jsstring :=
  match n with
  | Sr => [js "q"]
  | Coil => []
  | A => [js "out"]
  end.

(** [negatedInputs] is a [Set]: its elements in insertion order. *)
Record Part : Type := {
  part_id : nat;
  part_name : PartName;
  part_inputs : list jsstring;
  part_outputs : list jsstring;
  part_cardinality : option nat;
  part_negatedInputs : list jsstring
}.

Definition newPart (u : UidManager) (n : PartName) : Part * UidManager :=
  let '(id, u) := next u in
  ({| part_id := id; part_name := n;
      part_inputs := partInputs n; part_outputs := partOutputs n;
      part_cardinality := None; part_negatedInputs := [] |}, u).

(** [negateInput(portName)]: a port the part does not have is only
    reported on the console. *)
Definition negateInput (portName : jsstring) (p : Part) : Part :=
  if bool_decide (portName ∈ part_inputs p) then
    {| part_id := part_id p; part_name := part_name p;
       part_inputs := part_inputs p; part_outputs := part_outputs p;
       part_cardinality := part_cardinality p;
       part_negatedInputs :=
         if bool_decide (portName ∈ part_negatedInputs p)
         then part_negatedInputs p
         else part_negatedInputs p ++ [portName] |}
  else p.

Definition setCardinality (c : nat) (p : Part) : Part :=
  {| part_id := part_id p; part_name := part_name p;
     part_inputs := part_inputs p; part_outputs := part_outputs p;
     part_cardinality := Some c;
     part_negatedInputs := part_negatedInputs p |}.

(** The element that [Part.toXml] builds. *)
Definition part_element (p : Part) : XmlElement :=
  let partElement :=
    attr (js "UId") (AttrNumber (part_id p))
      (attr (js "Name") (AttrString (partNameText (part_name p))) (new (js "Part"))) in
  let partElement :=
    match part_cardinality p with
    | Some ((S _) as c) =>
        add (addText (ofNat c)
               (attr (js "Type") (AttrString (js "Cardinality"))
                  (attr (js "Name") (AttrString (js "Card")) (new (js "TemplateValue")))))
          partElement
    | _ => partElement
    end in
  fold_left
    (fun el portName => add (attr (js "Name") (AttrString portName) (new (js "Negated"))) el)
    (part_negatedInputs p) partElement.

Definition part_toXml (pretty : bool) (level : nat) (p : Part) : jsstring :=
  toString pretty level (part_element p).

(** [index] is [None] for [null]. *)
Record Access : Type := {
  acc_id : nat;
  acc_variable : jsstring;
  acc_index : option Z;
  acc_isLiteralBool : bool;
  acc_literalValue : bool
}.

Definition newAccess (u : UidManager) (variable : jsstring) (index : option Z)
  (isLiteralBool literalValue : bool) : Access * UidManager :=
  let '(id, u) := next u in
  ({| acc_id := id; acc_variable := variable; acc_index := index;
      acc_isLiteralBool := isLiteralBool; acc_literalValue := literalValue |}, u).

Definition access_element (a : Access) : XmlElement :=
  if acc_isLiteralBool a then
    let constant :=
      add (newText (js "ConstantValue") (if acc_literalValue a then js "true" else js "false"))
        (add (newText (js "ConstantType") (js "Bool")) (new (js "Constant"))) in
    add constant
      (attr (js "UId") (AttrNumber (acc_id a))
         (attr (js "Scope") (AttrString (js "LiteralConstant")) (new (js "Access"))))
  else
    let constant :=
      add (newText (js "ConstantValue")
             (match acc_index a with Some i => ofZ i | None => js "null" end))
        (add (newText (js "ConstantType") (js "DInt")) (new (js "Constant"))) in
    let innerAccess :=
      add constant
        (attr (js "Scope") (AttrString (js "LiteralConstant")) (new (js "Access"))) in
    let component :=
      add innerAccess
        (attr (js "AccessModifier") (AttrString (js "Array"))
           (attr (js "Name") (AttrString (acc_variable a)) (new (js "Component")))) in
    let symbol := add component (new (js "Symbol")) in
    add symbol
      (attr (js "UId") (AttrNumber (acc_id a))
         (attr (js "Scope") (AttrString (js "LocalVariable")) (new (js "Access")))).

Definition access_toXml (pretty : bool) (level : nat) (a : Access) : jsstring :=
  toString pretty level (access_element a).

(** ** components/wire.ts *)

Record Wire : Type := {
  wire_id : nat;
  wire_from : nat * option jsstring;      (* partId, port *)
  wire_to : nat * jsstring                (* partId, port *)
}.

Definition newWire (u : UidManager) (from : nat * option jsstring) (to : nat * jsstring)
  : Wire * UidManager :=
  let '(id, u) := next u in
  ({| wire_id := id; wire_from := from; wire_to := to |}, u).

Definition wire_element (w : Wire) : XmlElement :=
  let wire := attr (js "UId") (AttrNumber (wire_id w)) (new (js "Wire")) in
  let wire :=
    match snd (wire_from w) with
    | Some ((_ :: _) as port) =>
        add (attr (js "Name") (AttrString port)
               (attr (js "UId") (AttrNumber (fst (wire_from w))) (new (js "NameCon")))) wire
    | _ =>
        add (attr (js "UId") (AttrNumber (fst (wire_from w))) (new (js "IdentCon"))) wire
    end in
  add (attr (js "Name") (AttrString (snd (wire_to w)))
         (attr (js "UId") (AttrNumber (fst (wire_to w))) (new (js "NameCon")))) wire.

Definition wire_toXml (pretty : bool) (level : nat) (w : Wire) : jsstring :=
  toString pretty level (wire_element w).

(** ** components/network.ts *)

(** A network owns its identifier manager (created from [baseUid]); its
    own [id] comes from the manager of the document.  [parts] holds the
    objects in the order they were pushed: an object is referred to by
    its position in [parts], which stands for the JavaScript reference to
    it (the object is updated in place through that reference). *)
Record Network : Type := {
  net_uidManager : UidManager;
  net_id : nat;
  net_parts : list (Part + Access);
  net_wires : list Wire;
  net_title : MultilingualText;
  net_comment : MultilingualText
}.

Definition objectId (o : Part + Access) : nat :=
  match o with
  | inl p => part_id p
  | inr a => acc_id a
  end.

Definition newNetwork (parentUidManager : UidManager) (title : jsstring) (baseUid : nat)
  : Network * UidManager :=
  let own := {| currentId := baseUid |} in
  let '(id, parentUidManager) := next parentUidManager in
  let '(t, own) := newMultilingualText own (js "Title") title in
  let '(c, own) := newMultilingualText own (js "Comment") [] in
  ({| net_uidManager := own; net_id := id; net_parts := []; net_wires := [];
      net_title := t; net_comment := c |}, parentUidManager).

Definition withParts (net : Network) (u : UidManager) (parts : list (Part + Access))
  : Network :=
  {| net_uidManager := u; net_id := net_id net; net_parts := parts;
     net_wires := net_wires net; net_title := net_title net;
     net_comment := net_comment net |}.

(** [addPart(name)], [addAccess(variable, index)] and
    [addLiteralBool(value)] return the new object: here, its position. *)
Definition addPart (name : PartName) (net : Network) : Network * nat :=
  let '(part, u) := newPart (net_uidManager net) name in
  (withParts net u (net_parts net ++ [inl part]), length (net_parts net)).

Definition addAccess (variable : jsstring) (index : Z) (net : Network) : Network * nat :=
  let '(access, u) := newAccess (net_uidManager net) variable (Some index) false false in
  (withParts net u (net_parts net ++ [inr access]), length (net_parts net)).

Definition addLiteralBool (value : bool) (net : Network) : Network * nat :=
  let '(access, u) := newAccess (net_uidManager net) [] None true value in
  (withParts net u (net_parts net ++ [inr access]), length (net_parts net)).

Definition negateAt (to : nat) (toPort : jsstring) (parts : list (Part + Access))
  : list (Part + Access) :=
  alter (fun o => match o with
                  | inl p => inl (negateInput toPort p)
                  | inr a => inr a
                  end) to parts.

(** [connect(from, fromPort, to, toPort, options)]. *)
Definition connect (from : nat) (fromPort : option jsstring) (to : nat)
  (toPort : jsstring) (negated : bool) (net : Network) : Network :=
  match net_parts net !! from, net_parts net !! to with
  | Some f, Some t =>
      let '(wire, u) :=
        newWire (net_uidManager net) (objectId f, fromPort) (objectId t, toPort) in
      {| net_uidManager := u; net_id := net_id net;
         net_parts := if negated then negateAt to toPort (net_parts net)
                      else net_parts net;
         net_wires := net_wires net ++ [wire];
         net_title := net_title net; net_comment := net_comment net |}
  | _, _ => net
  end.

(** The first pass of [Network.toXml]: incoming wires per target. *)
Definition partInputCounts (wires : list Wire) : gmap nat nat :=
  fold_left
    (fun counts wire =>
       let targetPartId := fst (wire_to wire) in
       <[targetPartId := default 0 (counts !! targetPartId) + 1]> counts)
    wires ∅.

(** The second pass: the cardinality of every AND gate. *)
Definition resolveCardinality (counts : gmap nat nat) (o : Part + Access) : Part + Access :=
  match o with
  | inl p =>
      if bool_decide (part_name p = A)
      then inl (setCardinality (default 0 (counts !! part_id p)) p)
      else inl p
  | inr a => inr a
  end.

Definition object_toXml (pretty : bool) (level : nat) (o : Part + Access) : jsstring :=
  match o with
  | inl p => part_toXml pretty level p
  | inr a => access_toXml pretty level a
  end.

(** [Network.toXml]: the text, and the network as serialization leaves
    it (cardinalities assigned, identifiers of the text items taken). *)
Definition net_toXml (pretty : bool) (level : nat) (net : Network) : jsstring * Network :=
  let parts := map (resolveCardinality (partInputCounts (net_wires net))) (net_parts net) in
  let partsContainer :=
    fold_left (fun el p => addRaw (object_toXml pretty (level + 5) p) el)
      parts (new (js "Parts")) in
  let wiresContainer :=
    fold_left (fun el w => addRaw (wire_toXml pretty (level + 5) w) el)
      (net_wires net) (new (js "Wires")) in
  let flgNet :=
    add wiresContainer
      (add partsContainer
         (attr (js "xmlns")
            (AttrString
               (js "http://www.siemens.com/automation/Openness/SW/NetworkSource/FlgNet/v4"))
            (new (js "FlgNet")))) in
  let networkSource := add flgNet (new (js "NetworkSource")) in
  let attributeList :=
    add (newText (js "ProgrammingLanguage") (js "FBD"))
      (add networkSource (new (js "AttributeList"))) in
  let '(commentXml, u) := mt_toXml (net_uidManager net) pretty (level + 3) (net_comment net) in
  let '(titleXml, u) := mt_toXml u pretty (level + 3) (net_title net) in
  let objectList := addRaw titleXml (addRaw commentXml (new (js "ObjectList"))) in
  (toString pretty level
     (add objectList
        (add attributeList
           (attr (js "CompositionName") (AttrString (js "CompileUnits"))
              (attr (js "ID") (AttrNumber (net_id net)) (new (js "SW.Blocks.CompileUnit")))))),
   withParts net u parts).

(** ** components/fb.ts *)

Record FunctionBlock : Type := {
  fb_id : nat;
  fb_networks : list Network;
  fb_name : jsstring;
  fb_number : N;
  fb_comment : MultilingualText;
  fb_title : MultilingualText;
  fb_interface : Interface
}.

(** [parseInt(name.replace(/[^0-9]/g, '')) || 1].  The number is exact
    for a run of at most 15 digits; JavaScript rounds longer ones. *)
Definition blockNumber (name : jsstring) : N :=
  match parseInt (RegExp.replaceWith RegExp.flag_g
                    (RegExp.Class true RegExp.digitRanges) [] name) with
  | Some 0%N | None => 1%N
  | Some n => n
  end.

Definition newFunctionBlock (u : UidManager) (name : jsstring) : FunctionBlock * UidManager :=
  let '(id, u) := next u in
  let '(c, u) := newMultilingualText u (js "Comment") [] in
  let '(t, u) := newMultilingualText u (js "Title") [] in
  ({| fb_id := id; fb_networks := []; fb_name := name;
      fb_number := blockNumber name;
      fb_comment := c; fb_title := t; fb_interface := newInterface |}, u).

Definition withNetworks (fb : FunctionBlock) (nets : list Network) : FunctionBlock :=
  {| fb_id := fb_id fb; fb_networks := nets; fb_name := fb_name fb;
     fb_number := fb_number fb; fb_comment := fb_comment fb;
     fb_title := fb_title fb; fb_interface := fb_interface fb |}.

Definition withInterface (fb : FunctionBlock) (i : Interface) : FunctionBlock :=
  {| fb_id := fb_id fb; fb_networks := fb_networks fb; fb_name := fb_name fb;
     fb_number := fb_number fb; fb_comment := fb_comment fb;
     fb_title := fb_title fb; fb_interface := i |}.

(** Serialization of the networks, one after the other. *)
Fixpoint nets_toXml (pretty : bool) (level : nat) (nets : list Network)
  : list jsstring * list Network :=
  match nets with
  | [] => ([], [])
  | n :: nets' =>
      let '(xml, n') := net_toXml pretty level n in
      let '(xmls, nets'') := nets_toXml pretty level nets' in
      (xml :: xmls, n' :: nets'')
  end.

(** [FunctionBlock.toXml]; [u] is the manager of the document, which the
    block shares. *)
Definition fb_toXml (u : UidManager) (pretty : bool) (level : nat) (fb : FunctionBlock)
  : jsstring * FunctionBlock * UidManager :=
  let attrList :=
    add (newText (js "SetENOAutomatically") (js "true"))
   (add (newText (js "RetainMemoryReserve") (js "4000"))
   (add (newText (js "ProgrammingLanguage") (js "FBD"))
   (add (newText (js "Number") (js (NilEmpty.string_of_uint (N.to_uint (fb_number fb)))))
   (add (new (js "Namespace"))
   (add (newText (js "Name") (fb_name fb))
   (add (newText (js "MemoryReserve") (js "4000"))
   (add (newText (js "MemoryLayout") (js "Optimized"))
   (add (newText (js "IsRetainMemResEnabled") (js "true"))
   (addRaw (iface_toXml pretty (level + 2) (fb_interface fb))
   (add (newText (js "AutoNumber") (js "false"))
      (new (js "AttributeList")))))))))))) in
  let '(commentXml, u) := mt_toXml u pretty (level + 3) (fb_comment fb) in
  let objectList := addRaw commentXml (new (js "ObjectList")) in
  let '(xmls, nets) := nets_toXml pretty (level + 3) (fb_networks fb) in
  let objectList := fold_left (fun el xml => addRaw xml el) xmls objectList in
  let '(titleXml, u) := mt_toXml u pretty (level + 3) (fb_title fb) in
  let objectList := addRaw titleXml objectList in
  (toString pretty level
     (add objectList
        (add attrList
           (attr (js "ID") (AttrNumber (fb_id fb)) (new (js "SW.Blocks.FB"))))),
   withNetworks fb nets, u).

(** ** components/document.ts *)

Record Document : Type := {
  doc_uidManager : UidManager;
  doc_fb : option FunctionBlock
}.

Definition newDocument : Document :=
  {| doc_uidManager := {| currentId := 0 |}; doc_fb := None |}.

Definition xmlDeclaration : jsstring :=
  js "<?xml version=" ++ [34%N] ++ js "1.0" ++ [34%N] ++
  js " encoding=" ++ [34%N] ++ js "utf-8" ++ [34%N] ++ js "?>" ++ [10%N].

Definition doc_toXml (pretty : bool) (level : nat) (d : Document) : jsstring * Document :=
  let doc :=
    add (attr (js "version") (AttrString (js "V18")) (new (js "Engineering")))
      (new (js "Document")) in
  match doc_fb d with
  | Some fb =>
      let '(xml, fb, u) := fb_toXml (doc_uidManager d) pretty (level + 1) fb in
      (xmlDeclaration ++ toString pretty level (addRaw xml doc),
       {| doc_uidManager := u; doc_fb := Some fb |})
  | None => (xmlDeclaration ++ toString pretty level doc, d)
  end.

(** ** src/generator/index.ts *)

Definition noStepsMessage : jsstring :=
  js "<!-- Geen stappen gevonden om te compileren. -->".

Definition isRust (s : Step) : bool := bool_decide (type s = RUST).
Definition isStap (s : Step) : bool := bool_decide (type s = STAP).

(** The comment of one entry of the step-bit array. *)
Definition commentText (step : Step) : jsstring :=
  trim ((match type step with
         | RUST => js "RUST"
         | STAP => js "STAP " ++ ofZ (number step)
         end) ++ js ": " ++ orString (description step) []).

Definition member (name datatype remanence : jsstring) (subs : list Subelement) : Member :=
  {| mem_subelements := subs; mem_name := name;
     mem_datatype := datatype; mem_remanence := remanence |}.

(** The interface of the block: the step-bit array with one comment per
    step, then the fixed static and output members. *)
Definition buildInterface (steps : list Step) : Interface :=
  let stapMember :=
    member (js "Stap") (js "Array[0..31] of Bool") (js "Retain")
      (map (fun step => {| sub_path := ofZ (number step);
                           sub_commentText := commentText step |}) steps) in
  {| Input := Input newInterface;
     Output := {| sec_members := [member (js "Uit_Stap_Tekst") (js "Int") [] []];
                  sec_name := js "Output" |};
     InOut := InOut newInterface;
     Static :=
       {| sec_members :=
            [stapMember;
             member (js "Stap_A") (js "Array[0..31] of Bool") (js "Retain") [];
             member (js "Stap_B") (js "Array[0..31] of Bool") (js "Retain") [];
             member (js "Stap_C") (js "Array[0..31] of Bool") (js "Retain") [];
             member (js "Hulp") (js "Array[1..32] of Bool") (js "Retain") [];
             member (js "Tijd") (js "Array[1..10] of IEC_TIMER") (js "Retain") [];
             member (js "Teller") (js "Array[1..10] of Int") (js "Retain") []];
          sec_name := js "Static" |};
     Temp := Temp newInterface;
     Constant := Constant newInterface |}.

(** [stepsToReset.map(step => rustNetwork.addAccess('Stap', step.number))]. *)
Fixpoint addAccesses (stepsToReset : list Step) (net : Network) : Network * list nat :=
  match stepsToReset with
  | [] => (net, [])
  | step :: rest =>
      let '(net, access) := addAccess (js "Stap") (number step) net in
      let '(net, accesses) := addAccesses rest net in
      (net, access :: accesses)
  end.

(** [stepAccesses.forEach((access, idx) => rustNetwork.connect(access,
    undefined, aGateRust, `in${idx + 1}`, { negated: true }))], from
    index [idx] on. *)
Fixpoint connectInputs (aGateRust : nat) (idx : nat) (stepAccesses : list nat)
  (net : Network) : Network :=
  match stepAccesses with
  | [] => net
  | access :: rest =>
      connectInputs aGateRust (S idx) rest
        (connect access None aGateRust (inPort (idx + 1)) true net)
  end.

(** Network 1, the RUST logic; [u] is the manager of the document. *)
Definition buildRustNetwork (rustStep : Step) (steps : list Step) (u : UidManager)
  : Network * UidManager :=
  let '(rustNetwork, u) :=
    newNetwork u (orString (description rustStep) (js "RUST Logic")) 500 in
  let stepsToReset := List.filter isStap steps in
  let '(rustNetwork, stepAccesses) := addAccesses stepsToReset rustNetwork in
  let '(rustNetwork, aGateRust) := addPart A rustNetwork in
  let rustNetwork := connectInputs aGateRust 0 stepAccesses rustNetwork in
  let '(rustNetwork, srRust) := addPart Sr rustNetwork in
  let rustNetwork :=
    match List.find isStap steps with
    | Some firstStep =>
        let '(rustNetwork, step1Access) :=
          addAccess (js "Stap") (number firstStep) rustNetwork in
        connect step1Access None srRust (js "r1") false rustNetwork
    | None => rustNetwork
    end in
  let rustNetwork := connect aGateRust (Some (js "out")) srRust (js "s") false rustNetwork in
  let '(rustNetwork, srRustOperand) := addAccess (js "Stap") 0 rustNetwork in
  (connect srRustOperand None srRust (js "operand") false rustNetwork, u).

(** The body of [normalSteps.forEach((step, idx) => ...)].  Inside the
    loop [normalSteps[idx - 1]] (for [idx > 0]) and [normalSteps[idx + 1]]
    (when the step is not the final one) always exist. *)
Definition buildStepNetwork (normalSteps : list Step) (idx : nat) (step : Step)
  (u : UidManager) : Network * UidManager :=
  let isFinalStep := bool_decide (idx = length normalSteps - 1) in
  let title := js "STAP " ++ ofZ (number step) ++ js ": " ++ orString (description step) [] in
  let baseUid := 1000 + idx * 100 in
  let '(network, u) := newNetwork u title baseUid in
  let prevStepNumber :=
    if bool_decide (idx = 0) then 0%Z
    else default 0%Z (number <$> normalSteps !! (idx - 1)) in
  let '(network, prevStepAccess) := addAccess (js "Stap") prevStepNumber network in
  let '(network, notCurrentStepAccess) := addAccess (js "Stap") (number step) network in
  let '(network, falseAccess) := addLiteralBool false network in
  let '(network, conditionGate) := addPart A network in
  let network := connect prevStepAccess None conditionGate (js "in1") false network in
  let network := connect notCurrentStepAccess None conditionGate (js "in2") true network in
  let network := connect falseAccess None conditionGate (js "in3") false network in
  if isFinalStep then
    let '(network, coil) := addPart Coil network in
    let '(network, coilOperand) := addAccess (js "Stap") (number step) network in
    let network := connect conditionGate (Some (js "out")) coil (js "in") false network in
    (connect coilOperand None coil (js "operand") false network, u)
  else
    let nextStepNumber := default 0%Z (number <$> normalSteps !! (idx + 1)) in
    let '(network, srBlock) := addPart Sr network in
    let '(network, resetStepAccess) := addAccess (js "Stap") nextStepNumber network in
    let '(network, srOperand) := addAccess (js "Stap") (number step) network in
    let network := connect conditionGate (Some (js "out")) srBlock (js "s") false network in
    let network := connect resetStepAccess None srBlock (js "r1") false network in
    (connect srOperand None srBlock (js "operand") false network, u).

(** The loop over the sequential steps: [todo] holds the steps still to
    visit, [idx] the index of the first of them. *)
Fixpoint buildStepNetworks (normalSteps : list Step) (idx : nat) (todo : list Step)
  (nets : list Network) (u : UidManager) : list Network * UidManager :=
  match todo with
  | [] => (nets, u)
  | step :: rest =>
      let '(network, u) := buildStepNetwork normalSteps idx step u in
      buildStepNetworks normalSteps (S idx) rest (nets ++ [network]) u
  end.

(** The document as it stands just before [doc.toXml(true)], for a
    result with the steps [steps]. *)
Definition buildDocument (functionBlock : option jsstring) (steps : list Step) : Document :=
  let doc := newDocument in
  let '(fb, u) := newFunctionBlock (doc_uidManager doc) (orString functionBlock (js "FB1")) in
  let fb := withInterface fb (buildInterface steps) in
  let '(nets, u) :=
    match List.find isRust steps with
    | Some rustStep =>
        let '(rustNetwork, u) := buildRustNetwork rustStep steps u in
        (fb_networks fb ++ [rustNetwork], u)
    | None => (fb_networks fb, u)
    end in
  let normalSteps := List.filter isStap steps in
  let '(nets, u) := buildStepNetworks normalSteps 0 normalSteps nets u in
  {| doc_uidManager := u; doc_fb := Some (withNetworks fb nets) |}.

(** [generateTIAPortalXML(parseResult)]; [None] is a missing result. *)
Definition generateTIAPortalXML (parseResult : option ParseResult) : jsstring :=
  match parseResult with
  | Some pr =>
      match steps pr with
      | Some ((_ :: _) as ss) => fst (doc_toXml true 0 (buildDocument (functionBlock pr) ss))
      | _ => noStepsMessage
      end
  | None => noStepsMessage
  end.

End Generator.

(* ===================================================================== *)
(** * Observations on the generated document *)
(* ===================================================================== *)

Module Netlist.
Import JsString XmlBuilder Generator.

(** The character-wise reading of the escaping rule: each of the five
    characters is replaced by its entity, any other character is kept. *)
Definition escapeChar (c : N) : jsstring :=
  if N.eqb c 38 then js "&amp;"
  else if N.eqb c 60 then js "&lt;"
  else if N.eqb c 62 then js "&gt;"
  else if N.eqb c 34 then js "&quot;"
  else if N.eqb c 39 then js "&apos;"
  else [c].

Definition escaped (text : jsstring) : jsstring := flat_map escapeChar text.

(** How [toString] renders one attribute and one child, with the
    escaping read character-wise. *)
Definition attributeText (kv : jsstring * attrValue) : jsstring :=
  fst kv ++ js "=" ++ [34%N] ++ escaped (stringOfValue (snd kv)) ++ [34%N].

Definition childText (pretty : bool) (level : nat) (c : child) : jsstring :=
  match c with
  | ChildRaw xml => xml
  | ChildText s => (if pretty then repeatIndent level ++ js "  " else []) ++ escaped s
  | ChildElement e => toString pretty (S level) e
  end.

Definition openTagText (pretty : bool) (level : nat) (n : jsstring)
  (a : list (jsstring * attrValue)) : jsstring :=
  (if pretty then repeatIndent level else []) ++ js "<" ++ n ++
  (if isEmpty (join (js " ") (map attributeText a)) then []
   else js " " ++ join (js " ") (map attributeText a)).

(** The identifiers an element declares: the numbers of its [ID] and
    [UId] attributes.  In a connection end ([NameCon], [IdentCon]) the
    [UId] attribute refers to a part and declares nothing. *)
Definition isIdentifierKey (k : jsstring) : bool :=
  bool_decide (k = js "ID") || bool_decide (k = js "UId").

Definition isConnectionEnd (n : jsstring) : bool :=
  bool_decide (n = js "NameCon") || bool_decide (n = js "IdentCon").

Definition ownIdentifiers (n : jsstring) (a : list (jsstring * attrValue)) : list nat :=
  if isConnectionEnd n then []
  else omap (fun kv => if isIdentifierKey (fst kv)
                       then match snd kv with AttrNumber i => Some i | _ => None end
                       else None) a.

Fixpoint declaredIds (e : XmlElement) : list nat :=
  match e with
  | Element n cs a =>
      ownIdentifiers n a ++
      flat_map (fun c => match c with
                         | ChildElement c' => declaredIds c'
                         | _ => []
                         end) cs
  end.

Definition object_element (o : Part + Access) : XmlElement :=
  match o with
  | inl p => part_element p
  | inr a => access_element a
  end.

(** The identifiers declared in the text of a network, in the order
    [Network.toXml] writes them: the network itself, its parts, its
    wires, its comment and its title (whose items get their identifiers
    during serialization). *)
Definition net_identifiers (net : Network) : list nat :=
  let '(commentEl, u) := mt_element (net_uidManager net) (net_comment net) in
  let '(titleEl, _) := mt_element u (net_title net) in
  net_id net ::
  flat_map (fun o => declaredIds (object_element o)) (net_parts net) ++
  flat_map (fun w => declaredIds (wire_element w)) (net_wires net) ++
  declaredIds commentEl ++ declaredIds titleEl.

(** The identifiers declared in the text of a document, in the order
    [FunctionBlock.toXml] writes them. *)
Definition doc_identifiers (d : Document) : list nat :=
  match doc_fb d with
  | Some fb =>
      let '(commentEl, u) := mt_element (doc_uidManager d) (fb_comment fb) in
      let '(titleEl, _) := mt_element u (fb_title fb) in
      fb_id fb :: declaredIds commentEl ++
      flat_map net_identifiers (fb_networks fb) ++ declaredIds titleEl
  | None => []
  end.

(** The claim that no identifier is declared twice in the text of a
    document. *)
Definition UniqueIdentifiers (d : Document) : Prop := NoDup (doc_identifiers d).

(** The networks of a document. *)
Definition networks (d : Document) : list Network :=
  match doc_fb d with
  | Some fb => fb_networks fb
  | None => []
  end.


(** The wires of a network that end at a part. *)
Definition incoming (net : Network) (p : Part) : list Wire :=
  List.filter (fun w => bool_decide (fst (wire_to w) = part_id p)) (net_wires net).








(** [drives net g out t port]: a wire of [net] leads from output [out]
    of part [g] to input [port] of part [t]. *)
Definition drives (net : Network) (g : Part) (out : jsstring) (t : Part) (port : jsstring)
  : Prop :=
  exists w, w ∈ net_wires net /\
            wire_from w = (part_id g, Some out) /\ wire_to w = (part_id t, port).

(** [feeds net a g port]: a wire of [net] leads from the access [a] to
    input [port] of part [g]. *)
Definition feeds (net : Network) (a : Access) (g : Part) (port : jsstring) : Prop :=
  exists w, w ∈ net_wires net /\
            wire_from w = (acc_id a, None) /\ wire_to w = (part_id g, port).

(** An access to the bit of a step in the step-bit array. *)
Definition stepBit (a : Access) (stepNumber : Z) : Prop :=
  acc_variable a = js "Stap" /\ acc_index a = Some stepNumber /\
  acc_isLiteralBool a = false.

(** The Rest network for the sequential steps [normal], with every input
    of the AND gate negated. *)
Definition RestNetwork (normal : list Step) (net : Network) : Prop :=
  exists gate latch : Part,
    inl gate ∈ net_parts net /\ part_name gate = A /\
    inl latch ∈ net_parts net /\ part_name latch = Sr /\
    length (incoming net gate) = length normal /\
    (forall i step, normal !! i = Some step ->
       exists a, inr a ∈ net_parts net /\ stepBit a (number step) /\
                 feeds net a gate (inPort (i + 1))) /\
    part_negatedInputs gate = map inPort (seq 1 (length normal)) /\
    drives net gate (js "out") latch (js "s").

(** A sequential-step network whose AND gate sets a set/reset latch. *)
Definition LatchNetwork (net : Network) : Prop :=
  exists gate latch : Part,
    inl gate ∈ net_parts net /\ part_name gate = A /\
    inl latch ∈ net_parts net /\ part_name latch = Sr /\
    drives net gate (js "out") latch (js "s").

(** The network of the final step: the AND gate feeds a coil, and no
    wire ends at a reset input. *)
Definition CoilNetwork (net : Network) : Prop :=
  exists gate coil : Part,
    inl gate ∈ net_parts net /\ part_name gate = A /\
    inl coil ∈ net_parts net /\ part_name coil = Coil /\
    drives net gate (js "out") coil (js "in") /\
    (forall w, w ∈ net_wires net -> snd (wire_to w) <> js "r1") /\
    (forall p, inl p ∈ net_parts net -> part_name p <> Sr).

(** The shape of the document for one Rest step and the sequential
    steps [normal]. *)
Definition NetworksShape (normal : list Step) (d : Document) : Prop :=
  exists restNet stepNets,
    networks d = restNet :: stepNets /\
    length stepNets = length normal /\
    RestNetwork normal restNet /\
    (forall i net, stepNets !! i = Some net -> i < length normal - 1 -> LatchNetwork net) /\
    (forall net, stepNets !! (length normal - 1) = Some net -> CoilNetwork net).

(** The steps of a result; none when the result or its [steps] list is
    missing. *)
Definition stepsOf (parseResult : option ParseResult) : list Step :=
  match parseResult with
  | Some pr => default [] (steps pr)
  | None => []
  end.

(** The text of a generation failure. *)
Definition isGenerationFailure (xmlText : jsstring) : Prop :=
  xmlText = noStepsMessage.

(** ** Closed forms of the loops of [generateTIAPortalXML] *)

(** The access to the bit [stepNumber] of the step-bit array. *)
Definition stepAccess (id : nat) (stepNumber : Z) : Access :=
  {| acc_id := id; acc_variable := js "Stap"; acc_index := Some stepNumber;
     acc_isLiteralBool := false; acc_literalValue := false |}.

(** A wire from an access to an input of a part. *)
Definition accessWire (id from to : nat) (port : jsstring) : Wire :=
  {| wire_id := id; wire_from := (from, None); wire_to := (to, port) |}.

(** A wire from an output of a part to an input of a part. *)
Definition partWire (id from : nat) (out : jsstring) (to : nat) (port : jsstring) : Wire :=
  {| wire_id := id; wire_from := (from, Some out); wire_to := (to, port) |}.

(** [negateInput] for each port in turn. *)
Definition negateAll (ports : list jsstring) (p : Part) : Part :=
  fold_left (fun p port => negateInput port p) ports p.

Definition freshPart (id : nat) (n : PartName) : Part :=
  {| part_id := id; part_name := n;
     part_inputs := partInputs n; part_outputs := partOutputs n;
     part_cardinality := None; part_negatedInputs := [] |}.

(** The accesses created by [addAccesses], the first with identifier [cur]. *)
Definition stepAccesses (cur : nat) (stepsToReset : list Step) : list (Part + Access) :=
  imap (fun i step => inr (stepAccess (cur + i) (number step))) stepsToReset.

(** The wires created by [connectInputs] for [n] accesses with the
    identifiers [from], [from + 1], ..., the first wire with identifier
    [cur] and input [in(idx+1)] of the gate [to]. *)
Definition inputWires (cur from to idx n : nat) : list Wire :=
  map (fun k => accessWire (cur + k) (from + k) to (inPort (idx + k + 1))) (seq 0 n).

(** The Rest network as [buildRustNetwork] leaves it: [networkId] is
    the identifier taken from the document, [title] the title and
    [normal] the sequential steps. *)
Definition restNetworkOf (networkId : nat) (title : jsstring) (normal : list Step)
  : Network :=
  let n := length normal in
  let gate := negateAll (map inPort (seq 1 n)) (freshPart (502 + n) A) in
  let latch := freshPart (503 + 2 * n) Sr in
  {| net_uidManager :=
       {| currentId := match normal with [] => 507 | _ :: _ => 509 + 2 * n end |};
     net_id := networkId;
     net_parts :=
       stepAccesses 502 normal ++ [inl gate; inl latch] ++
       match normal with
       | [] => [inr (stepAccess 505 0)]
       | firstStep :: _ =>
           [inr (stepAccess (504 + 2 * n) (number firstStep));
            inr (stepAccess (507 + 2 * n) 0)]
       end;
     net_wires :=
       inputWires (503 + n) 502 (502 + n) 0 n ++
       match normal with
       | [] => [partWire 504 502 (js "out") 503 (js "s");
                accessWire 506 505 503 (js "operand")]
       | _ :: _ =>
           [accessWire (505 + 2 * n) (504 + 2 * n) (503 + 2 * n) (js "r1");
            partWire (506 + 2 * n) (502 + n) (js "out") (503 + 2 * n) (js "s");
            accessWire (508 + 2 * n) (507 + 2 * n) (503 + 2 * n) (js "operand")]
       end;
     net_title := {| mt_texts := [(js "nl-NL", title); (js "en-GB", title)];
                     mt_id := 500; mt_compositionName := js "Title" |};
     net_comment := {| mt_texts := [(js "nl-NL", []); (js "en-GB", [])];
                       mt_id := 501; mt_compositionName := js "Comment" |} |}.

(** Programs used as examples: a Rest step and the sequential steps
    1, ..., n. *)
Definition restStep : Step :=
  {| number := 0; type := RUST; description := Some (js "Rust") |}.

Definition sequentialSteps (n : nat) : list Step :=
  map (fun i => {| number := Z.of_nat i; type := STAP; description := None |}) (seq 1 n).

(** The identifiers a network has taken from its own manager: those of
    its title, its comment, its parts and its wires. *)
Definition ownIds (net : Network) : list nat :=
  mt_id (net_title net) :: mt_id (net_comment net) ::
  map objectId (net_parts net) ++ map wire_id (net_wires net).

(** The allocation invariant of a network created with [baseUid]: the
    identifiers taken so far are exactly [baseUid], [baseUid + 1], ...,
    up to the current value of the manager, each taken once; the title
    and the comment have their two items. *)
Definition Allocated (baseUid : nat) (net : Network) : Prop :=
  ownIds net ≡ₚ seq baseUid (currentId (net_uidManager net) - baseUid) /\
  baseUid <= currentId (net_uidManager net) /\
  length (mt_texts (net_title net)) = 2 /\
  length (mt_texts (net_comment net)) = 2.

End Netlist.

(* ===================================================================== *)
(** * src/utils/RegexCache.js *)
(* ===================================================================== *)

Module RegexCache.
Import JsString RegExp.

(** A [RegExp] object: the compiled pattern, its flags and the mutable
    [lastIndex] property. *)
Record RegExpObject : Type := MkRegExp {
  source : regex;
  reFlags : flags;
  lastIndex : nat
}.

Definition setLastIndex (i : nat) (o : RegExpObject) : RegExpObject :=
  MkRegExp (source o) (reFlags o) i.

(** The flag letters of the [RegExp] constructor. *)
Definition flagLetters : jsstring := js "dgimsuvy".

Definition hasFlag (letter : string) (flagsText : jsstring) : bool :=
  includes flagsText (js letter).

(** The flags argument of [new RegExp]: every character is a flag letter,
    none occurs twice, [u] and [v] exclude each other; otherwise the
    constructor throws a SyntaxError. *)
Definition parseFlags (flagsText : jsstring) : option flags :=
  if forallb (fun c => bool_decide (c ∈ flagLetters)) flagsText
     && bool_decide (NoDup flagsText)
     && negb (hasFlag "u" flagsText && hasFlag "v" flagsText)
  then Some (Flags (hasFlag "i" flagsText) (hasFlag "m" flagsText)
                   (hasFlag "g" flagsText) (hasFlag "y" flagsText))
  else None.

(** [RegExpBuiltinExec]: the scan starts at [lastIndex] for a global or
    sticky object and at 0 otherwise; a sticky object matches at the
    start index only; a global or sticky object stores the end of the
    match in [lastIndex], and 0 after a failure. *)
Definition prevAt (s : jsstring) (i : nat) : option N :=
  match i with
  | 0 => None
  | S j => s !! j
  end.

Definition regExpExec (o : RegExpObject) (s : jsstring)
  : option matchResult * RegExpObject :=
  let f := reFlags o in
  let stateful := global f || sticky f in
  let i := if stateful then lastIndex o else 0 in
  if length s <? i then (None, if stateful then setLastIndex 0 o else o)
  else
    let found :=
      if sticky f then
        match matchHere f (source o) (prevAt s i) (drop i s) with
        | Some (mt, cs, s') => Some (MatchResult (take i s) mt cs s')
        | None => None
        end
      else search f (source o) (rev (take i s)) (prevAt s i) (drop i s) in
    match found with
    | None => (None, if stateful then setLastIndex 0 o else o)
    | Some mr =>
        (Some mr,
         if stateful
         then setLastIndex (length (before mr) + length (matched mr)) o
         else o)
    end.

(** The loop of [RegExp.prototype[Symbol.match]] and
    [RegExp.prototype[Symbol.replace]]: one result for an object that is
    not global, every result for a global one, [lastIndex] moving one
    further after an empty match. *)
Fixpoint collect (fuel : nat) (o : RegExpObject) (s : jsstring)
  : list matchResult * RegExpObject :=
  match fuel with
  | 0 => ([], o)
  | S fuel' =>
      match regExpExec o s with
      | (None, o') => ([], o')
      | (Some mr, o') =>
          if global (reFlags o') then
            let o'' := if isEmpty (matched mr)
                       then setLastIndex (S (lastIndex o')) o' else o' in
            let (rs, o3) := collect fuel' o'' s in (mr :: rs, o3)
          else ([mr], o')
      end
  end.

Definition results (o : RegExpObject) (s : jsstring)
  : list matchResult * RegExpObject :=
  collect (length s + 2)
    (if global (reFlags o) then setLastIndex 0 o else o) s.

(** The text built by [replace] from the results: a result that starts
    before the end of the previous one is skipped. *)
Fixpoint substitute (replacer : matchResult -> jsstring) (s : jsstring)
  (nextSourcePosition : nat) (rs : list matchResult) : jsstring :=
  match rs with
  | [] => drop nextSourcePosition s
  | mr :: rs' =>
      let position := length (before mr) in
      if nextSourcePosition <=? position then
        take (position - nextSourcePosition) (drop nextSourcePosition s)
        ++ replacer mr
        ++ substitute replacer s (position + length (matched mr)) rs'
      else substitute replacer s nextSourcePosition rs'
  end.

(** What a caller does with a matcher, and what it observes. *)
Inductive use : Type :=
| Test (text : jsstring)
| Exec (text : jsstring)
| Match (text : jsstring)
| Replace (text : jsstring) (replacement : matchResult -> jsstring).

Inductive outcome : Type :=
| Tested (b : bool)
| Executed (r : option matchResult)
| MatchedAll (r : option (list jsstring))
| Replaced (s : jsstring)
| Thrown.

(** [regex.test(text)], [regex.exec(text)], [text.match(regex)] and
    [text.replace(regex, replacement)]. *)
Definition perform (u : use) (o : RegExpObject) : outcome * RegExpObject :=
  match u with
  | Test text =>
      let (r, o') := regExpExec o text in (Tested (bool_decide (is_Some r)), o')
  | Exec text =>
      let (r, o') := regExpExec o text in (Executed r, o')
  | Match text =>
      if global (reFlags o) then
        let (rs, o') := results o text in
        (MatchedAll (match rs with
                     | [] => None
                     | _ :: _ => Some (map matched rs)
                     end), o')
      else
        let (r, o') := regExpExec o text in (Executed r, o')
  | Replace text replacement =>
      let (rs, o') := results o text in
      (Replaced (substitute replacement text 0 rs), o')
  end.

Section Cache.

(** The pattern syntax of [new RegExp(pattern, flags)], [None] for a
    pattern the constructor rejects. *)
Variable parsePattern : jsstring -> jsstring -> option regex.

(** [new RegExp(pattern, flags)]. *)
Definition newRegExp (pattern flagsText : jsstring) : option RegExpObject :=
  match parseFlags flagsText with
  | None => None
  | Some f =>
      match parsePattern pattern flagsText with
      | None => None
      | Some r => Some (MkRegExp r f 0)
      end
  end.

(** A [Map] from keys to object references, in insertion order. *)
Definition jsMap : Type := list (jsstring * nat).

Definition mapHas (k : jsstring) (mp : jsMap) : bool :=
  existsb (fun e => eqb (fst e) k) mp.

Definition mapGet (k : jsstring) (mp : jsMap) : option nat :=
  snd <$> find (fun e => eqb (fst e) k) mp.

Definition mapDelete (k : jsstring) (mp : jsMap) : jsMap :=
  filter (fun e => fst e <> k) mp.

Definition mapSet (k : jsstring) (v : nat) (mp : jsMap) : jsMap :=
  if mapHas k mp
  then map (fun e => if eqb (fst e) k then (k, v) else e) mp
  else mp ++ [(k, v)].

(** The cache object; [objects] is the store of the [RegExp] objects it
    has created, a reference being a position in it.  (The field
    [compilationTime] is a measurement and is left out.) *)
Record RegexCache : Type := MkCache {
  objects : list RegExpObject;
  cache : jsMap;
  maxSize : Z;
  hitCount : nat;
  missCount : nat
}.

Definition new (maxSize : Z) : RegexCache := MkCache [] [] maxSize 0 0.

Definition size (c : RegexCache) : nat := length (cache c).

Definition cacheKey (pattern flagsText : jsstring) : jsstring :=
  pattern ++ js ":::" ++ flagsText.

(** [getRegex(pattern, flags)]: the reference of the matcher, or [None]
    when [new RegExp] throws. *)
Definition getRegex (pattern flagsText : jsstring) (c : RegexCache)
  : option nat * RegexCache :=
  let key := cacheKey pattern flagsText in
  match mapGet key (cache c) with
  | Some regex =>
      (Some regex,
       MkCache (objects c) (mapSet key regex (mapDelete key (cache c)))
               (maxSize c) (S (hitCount c)) (missCount c))
  | None =>
      match newRegExp pattern flagsText with
      | None => (None, c)
      | Some o =>
          let regex := length (objects c) in
          let kept :=
            if (maxSize c <=? Z.of_nat (size c))%Z then
              match cache c with
              | [] => []
              | (firstKey, _) :: _ => mapDelete firstKey (cache c)
              end
            else cache c in
          (Some regex,
           MkCache (objects c ++ [o]) (mapSet key regex kept)
                   (maxSize c) (hitCount c) (S (missCount c)))
      end
  end.

(** The methods [test], [exec], [match] and [replace] of the cache: the
    matcher is fetched and used at once. *)
Record call : Type := Call {
  pattern : jsstring;
  flagsText : jsstring;
  usage : use
}.

Definition callCached (cl : call) (c : RegexCache) : outcome * RegexCache :=
  match getRegex (pattern cl) (flagsText cl) c with
  | (None, c') => (Thrown, c')
  | (Some regex, c') =>
      match objects c' !! regex with
      | None => (Thrown, c')
      | Some o =>
          let (out, o') := perform (usage cl) o in
          (out, MkCache (<[regex := o']> (objects c')) (cache c')
                        (maxSize c') (hitCount c') (missCount c'))
      end
  end.

Fixpoint runCached (cls : list call) (c : RegexCache)
  : list outcome * RegexCache :=
  match cls with
  | [] => ([], c)
  | cl :: cls' =>
      let (out, c') := callCached cl c in
      let (outs, c'') := runCached cls' c' in
      (out :: outs, c'')
  end.

(** The same calls with a fresh [RegExp] compiled for each of them. *)
Definition callFresh (cl : call) : outcome :=
  match newRegExp (pattern cl) (flagsText cl) with
  | None => Thrown
  | Some o => fst (perform (usage cl) o)
  end.

Definition runFresh (cls : list call) : list outcome := map callFresh cls.

(** Flags that are flag letters other than [g] and [y]. *)
Definition statelessFlags (flagsText : jsstring) : bool :=
  forallb (fun c => bool_decide (c ∈ js "dimsuv")) flagsText.

(** Every entry of the cache refers to the object that [new RegExp]
    builds for the pattern and the flags of its key. *)
Definition Faithful (c : RegexCache) : Prop :=
  forall key regex, (key, regex) ∈ cache c ->
    exists p fl o, key = cacheKey p fl /\ statelessFlags fl = true /\
      newRegExp p fl = Some o /\ objects c !! regex = Some o.

End Cache.

(** The pattern syntax restricted to patterns without syntax characters:
    every character stands for itself.  Other patterns are outside this
    instance. *)
Definition isSyntaxCharacter (c : N) : bool :=
  bool_decide (c ∈ js "^$\.*+?()[]{}|").

Definition literalPattern (pattern flagsText : jsstring) : option regex :=
  if forallb (fun c => negb (isSyntaxCharacter c)) pattern
  then Some (Str pattern)
  else None.

End RegexCache.

(* ===================================================================== *)
(** * src/config/validationRules.js *)
(* ===================================================================== *)

Module ValidationRules.
Import JsString RegExp.

(** A pattern of the rules: a [RegExp] literal without the [g] and [y]
    flags, so that [pattern.test(name)] depends on [name] only. *)
Record RulePattern : Type := Pattern {
  caseInsensitive : bool;
  expr : regex
}.

Definition patternTest (name : jsstring) (pattern : RulePattern) : bool :=
  RegExp.test (Flags (caseInsensitive pattern) false false false)
    (expr pattern) name.

Record GroupValidation : Type := MkGroupValidation {
  requiresConditions : bool;
  allowsSetResetTable : bool;
  maxConditions : nat
}.

(** The configuration of a group.  The fields [name], [description] and
    [implementation] are not read by the functions below. *)
Record GroupConfig : Type := MkGroupConfig {
  patterns : list RulePattern;
  excludePatterns : option (list RulePattern);
  validation : GroupValidation
}.

(** The rules: [groups] lists the entries of [rules.groups] in the order
    of [Object.entries]. *)
Record Rules : Type := MkRules {
  groups : list (jsstring * GroupConfig)
}.

(** Pattern abbreviations: [x] and [x/i] for the literals, [^] ... [$]. *)
Definition re (r : list regex) : RulePattern := Pattern false (Seqs r).
Definition rei (r : list regex) : RulePattern := Pattern true (Seqs r).
Definition oneOf (i : nat) (words : string) : regex :=
  Group i (Alts (map Str (split 124 (jsu words)))).
Definition notEq : regex := Class true [(61, 61)]%N.        (* [^=] *)
Definition equals : regex := Char 61.                         (* = *)
Definition spaces : regex := Star Space.                     (* white space, any number *)
(** An optional [=] followed by white space, as a capturing group. *)
Definition optionalEq (i : nat) : regex :=
  Opt (Group i (Seq equals spaces)).

(** [keyword\s*=\s*[^=]+$], the shape of the timer, counter and variable
    patterns. *)
Definition assignmentOf (keyword : string) : RulePattern :=
  re [Bol; Str (jsu keyword); spaces; equals; spaces; Plus notEq; Eol].

(** [KEYWORD:\s*[^=]+\s*=\s*$], the prefixed fault and message patterns. *)
Definition prefixed (keyword : string) : RulePattern :=
  re [Bol; Str (jsu keyword); Char 58; spaces; Plus notEq; spaces; equals; spaces; Eol].

(** [^[^=]*\b(words)\b[^=]*\s*=\s*$]. *)
Definition mentions (words : string) : RulePattern :=
  re [Bol; Star notEq; WordBoundary; oneOf 1 words; WordBoundary;
      Star notEq; spaces; equals; spaces; Eol].

(** As [mentions] with the [=] and what follows it optional, with or
    without [i]. *)
Definition mentionsOpt (caseInsensitive : bool) (words : string) : RulePattern :=
  Pattern caseInsensitive
    (Seqs [Bol; Star notEq; WordBoundary; oneOf 1 words; WordBoundary;
           Star notEq; spaces; optionalEq 2; Eol]).

(** A code of capitals and digits, white space, one of the words, and
    the optional [=]. *)
Definition codeWith (words : string) : RulePattern :=
  re [Bol; Plus (Class false [(65, 90); (48, 57)]%N); Plus Space;
      oneOf 1 words; spaces; optionalEq 2; Eol].

(** [^(words)\s+(.+)\s*=$]. *)
Definition phrase (words : string) : RulePattern :=
  re [Bol; oneOf 1 words; Plus Space; Group 2 (Plus Any); spaces; equals; Eol].

Definition hulpmerker : GroupConfig := {|
  patterns := [
    re [Bol; Class false [(97, 122); (65, 90)]%N;
        Star (Class false [(97, 122); (65, 90); (48, 57); (95, 95)]%N);
        spaces; equals; spaces; Eol];
    re [Bol; Plus (Class true [(58, 58)]%N); spaces; equals; spaces; Eol];
    re [Bol; Group 1 (Plus notEq); spaces; equals; Eol];
    phrase "Freigabe|Start|Aktuell|Aktuelle";
    phrase "Einfuhr|Ausfuhr|Füllen|Entleeren|Umschwimmen|Freigabe";
    phrase "Wartereihe|Beschäftigt|Gestartet|Fertig|Aktiv";
    mentions "Freigabe|Release|Enable|Enabled";
    mentions "von|of|from";
    mentions "Bereit|Ready|Aktiv|Active|Verfügbar|Available|Besetzt|Occupied"
  ];
  excludePatterns := Some [
    re [Bol; Str (js "STORING:")];
    re [Bol; Str (js "MELDING:")];
    re [Bol; Str (js "TIJD"); spaces; equals];
    re [Bol; Str (js "Teller"); spaces; equals];
    re [Bol; Str (js "Variabele"); spaces; equals];
    rei [WordBoundary; oneOf 1 "Störung|Fault|Alarm|Error|Fehler";
         WordBoundary];
    rei [WordBoundary; oneOf 1 "Melding|Meldung|Message|Nachricht";
         WordBoundary];
    rei [WordBoundary; oneOf 1 "Info|Information"; WordBoundary; Star Any;
         WordBoundary; oneOf 2 "Display|Screen|Monitor|Anzeige";
         WordBoundary]
  ];
  validation := MkGroupValidation true true 20
|}.

Definition storing : GroupConfig := {|
  patterns := [
    prefixed "STORING";
    prefixed "STÖRUNG";
    prefixed "FAULT";
    mentionsOpt false "Störung|Fault|Alarm|Error|Fehler";
    codeWith "Störung|Fault|Alarm|Error|Fehler";
    mentionsOpt true "störung|fault|alarm|error|fehler"
  ];
  excludePatterns := None;
  validation := MkGroupValidation true true 10
|}.

Definition melding : GroupConfig := {|
  patterns := [
    prefixed "MELDING";
    prefixed "MELDUNG";
    prefixed "MESSAGE";
    mentionsOpt false "Melding|Meldung|Message|Nachricht|Info|Information";
    codeWith "Melding|Meldung|Message|Nachricht";
    mentionsOpt true "melding|meldung|message|nachricht"
  ];
  excludePatterns := None;
  validation := MkGroupValidation true true 10
|}.

Definition tijd : GroupConfig := {|
  patterns := [assignmentOf "TIJD"; assignmentOf "ZEIT"; assignmentOf "TIME"];
  excludePatterns := None;
  validation := MkGroupValidation false false 0
|}.

Definition teller : GroupConfig := {|
  patterns := [assignmentOf "Teller"; assignmentOf "TELLER";
               assignmentOf "COUNTER"; assignmentOf "ZÄHLER"];
  excludePatterns := None;
  validation := MkGroupValidation false false 0
|}.

Definition variabele : GroupConfig := {|
  patterns := [assignmentOf "Variabele"; assignmentOf "VARIABLE";
               assignmentOf "VARIABELE"];
  excludePatterns := None;
  validation := MkGroupValidation false false 0
|}.

Definition DEFAULT_VALIDATION_RULES : Rules := {|
  groups := [(js "hulpmerker", hulpmerker); (js "storing", storing);
             (js "melding", melding); (js "tijd", tijd);
             (js "teller", teller); (js "variabele", variabele)]
|}.

(** [groupConfig.excludePatterns.some(pattern => pattern.test(name))]
    under the guard [if (groupConfig.excludePatterns)]. *)
Definition isExcluded (name : jsstring) (groupConfig : GroupConfig) : bool :=
  match excludePatterns groupConfig with
  | Some excludes => existsb (patternTest name) excludes
  | None => false
  end.

Definition isMatched (name : jsstring) (groupConfig : GroupConfig) : bool :=
  existsb (patternTest name) (patterns groupConfig).

(** The loop of [determineVariableGroup] over the entries. *)
Fixpoint firstGroup (name : jsstring) (entries : list (jsstring * GroupConfig))
  : jsstring :=
  match entries with
  | [] => js "hulpmerker"
  | (groupName, groupConfig) :: entries' =>
      if isExcluded name groupConfig then firstGroup name entries'
      else if isMatched name groupConfig then groupName
      else firstGroup name entries'
  end.

(** [determineVariableGroup(name, rules)]; [None] is [null]. *)
Definition determineVariableGroup (name : jsstring) (rules : Rules)
  : option jsstring :=
  if isEmpty name then None else Some (firstGroup name (groups rules)).

(** A variable definition, with conditions of any type. *)
Record VariableDefinition (C : Type) : Type := MkVariableDefinition {
  name : jsstring;
  conditions : option (list C);
  lineNumber : nat
}.
Arguments name {C}.
Arguments conditions {C}.
Arguments lineNumber {C}.

Record Issue : Type := MkIssue {
  type : jsstring;
  message : jsstring;
  issueLine : nat
}.

Record ValidationResult : Type := MkValidationResult {
  errors : list Issue;
  warnings : list Issue;
  group : option jsstring;
  groupRules : option GroupConfig
}.

(** [rules.groups[group]]. *)
Definition groupOf (rules : Rules) (group : jsstring) : option GroupConfig :=
  snd <$> find (fun entry => eqb (fst entry) group) (groups rules).

Definition conditionCount {C} (definition : VariableDefinition C) : nat :=
  match conditions definition with
  | Some cs => length cs
  | None => 0
  end.

(** [validateVariableDefinition(definition, rules)]; [None] stands for
    the TypeError raised when [rules.groups] has no entry for the group. *)
Definition validateVariableDefinition {C} (definition : VariableDefinition C)
  (rules : Rules) : option ValidationResult :=
  match determineVariableGroup (name definition) rules with
  | None | Some [] =>
      Some (MkValidationResult
              [MkIssue (js "UNKNOWN_GROUP")
                 (js "Cannot determine group for variable: " ++ name definition)
                 (lineNumber definition)]
              [] None None)
  | Some ((_ :: _) as group) =>
      match groupOf rules group with
      | None => None
      | Some groupRules =>
          let errors :=
            if requiresConditions (validation groupRules)
               && (conditionCount definition =? 0)
            then [MkIssue (js "MISSING_CONDITIONS")
                    (js "Variable " ++ name definition ++ js " of group "
                     ++ group ++ js " requires conditions")
                    (lineNumber definition)]
            else [] in
          let warnings :=
            if maxConditions (validation groupRules) <? conditionCount definition
            then [MkIssue (js "TOO_MANY_CONDITIONS")
                    (js "Variable " ++ name definition ++ js " has "
                     ++ ofNat (conditionCount definition)
                     ++ js " conditions, maximum is "
                     ++ ofNat (maxConditions (validation groupRules)))
                    (lineNumber definition)]
            else [] in
          Some (MkValidationResult errors warnings (Some group) (Some groupRules))
      end
  end.

Definition unknownGroup (issue : Issue) : Prop :=
  type issue = js "UNKNOWN_GROUP".

End ValidationRules.

(* ===================================================================== *)
(** * src/core/UnifiedTextParser.js: text normalization *)
(* ===================================================================== *)

Module Normalizer.
Import JsString RegExp.

Definition newline : N := 10.
Definition lines (text : jsstring) : list jsstring := split newline text.
Definition unlines (ls : list jsstring) : jsstring := join [newline] ls.

(** [text.match(pattern)[0]] for a pattern that always matches. *)
Definition matchedText (f : flags) (r : regex) (text : jsstring) : jsstring :=
  match exec f r text with
  | Some mr => matched mr
  | None => []
  end.

(** [removeExtraWhitespace]: every line keeps its leading white space and
    loses its trailing white space; a blank line becomes empty. *)
Definition removeExtraWhitespace (text : jsstring) : jsstring :=
  unlines
    (map (fun line =>
            let leadingWhitespace := matchedText noFlags (Seq Bol (Star Space)) line in
            let trimmed := trim line in
            if isEmpty trimmed then [] else leadingWhitespace ++ trimmed)
         (lines text)).

Definition normalizeLineEndings (text : jsstring) : jsstring :=
  replaceWith flag_g (Char 13) [newline]
    (replaceWith flag_g (Str [13; 10]%N) [newline] text).

(** [normalizeEncoding]: the two quote classes of the source hold the
    ASCII quotes; the dashes are U+2013 and U+2014, the ellipsis U+2026. *)
Definition normalizeEncoding (text : jsstring) : jsstring :=
  replaceWith flag_g (Char 160) (js " ")
    (replaceWith flag_g (Char 8230) (js "...")
       (replaceWith flag_g (Char 8212) (js "-")
          (replaceWith flag_g (Char 8211) (js "-")
             (replaceWith flag_g (Class false [(39, 39); (39, 39)]%N) [39%N]
                (replaceWith flag_g (Class false [(34, 34); (34, 34)]%N) [34%N]
                   text))))).

Definition removeWordFormatting (text : jsstring) : jsstring :=
  replaceWith flag_g (Char 11) [newline]
    (replaceWith flag_g (Char 9) (js "  ")
       (replaceWith flag_g (AtLeast 3 Space) (js "  ")
          (replaceWith flag_g (Char 12) [] text))).

(** The bullets U+2022, U+00B7, U+25AA, U+25AB and the hyphen. *)
Definition bullet : regex :=
  Class false [(8226, 8226); (183, 183); (9642, 9642); (9643, 9643); (45, 45)]%N.

Definition fixWordImportIssues (text : jsstring) : jsstring :=
  replaceWith flag_gm (Seqs [Bol; Star Space; Char 43; Star Space]) (js "+ ")
    (replaceWith flag_g (Seqs [Star Space; Char 61; Star Space]) (js " = ")
       (replaceWith flag_g (Seqs [Star Space; Char 58; Star Space]) (js ": ")
          (replaceWith flag_gm (Seqs [Bol; Star Space; Plus Digit; Char 46; Star Space]) (js "- ")
             (replaceWith flag_gm (Seqs [Bol; Star Space; bullet; Star Space]) (js "- ")
                text)))).

(** Patterns of [normalizeStepFormatting]. *)
Definition stepKeyword (i : nat) : regex :=
  Group i (Alts [Str (js "SCHRITT"); Str (js "STAP"); Str (js "STEP")]).
Definition restKeyword (i : nat) : regex :=
  Group i (Alts [Str (js "RUST"); Str (js "RUHE"); Str (js "IDLE")]).
Definition opening : regex := Class false [(58, 58); (40, 40); (46, 46)]%N.  (* colon, parenthesis, dot *)
Definition notClosing : regex := Class true [(41, 41)]%N.

(** An embedded step keyword: text, white space, keyword, number, an
    optional colon, parenthesis or dot, the rest of the line. *)
Definition embeddedStep : regex :=
  Seqs [Bol; Group 1 (LazyPlus Any); Plus Space; stepKeyword 2; Star Space;
        Group 3 (Plus Digit); Star Space; Opt opening; Star Space;
        Group 4 (Star Any); Eol].

Definition embeddedRest : regex :=
  Seqs [Bol; Group 1 (LazyPlus Any); Plus Space; restKeyword 2; Star Space;
        Opt opening; Star Space; Group 3 (Star Any); Eol].

(** An open parenthesis; a trailing plus; a closing parenthesis at the
    end; a parenthesis holding a colon. *)
Definition inParentheses : regex := Seqs [Char 40; Star notClosing; Eol].
Definition afterPlus : regex := Seqs [Char 43; Star Space; Eol].
Definition endsClosed : regex := Seq (Char 41) Eol.
Definition programRef : regex :=
  Seqs [Char 40; Star notClosing; Char 58; Star notClosing; Char 41].

Definition startsWithAny (s : jsstring) (prefixes : list string) : bool :=
  existsb (fun p => startsWith s (js p)) prefixes.

(** The lines that one line of the text contributes. *)
Definition splitEmbedded (line : jsstring) : list jsstring :=
  let schrittMatch := exec flag_i embeddedStep line in
  let asStep :=
    match schrittMatch with
    | Some mr =>
        if negb (startsWith (trim line) (js "SCHRITT"))
           && negb (startsWith (trim line) (js "STAP"))
           && negb (startsWith (trim line) (js "STEP"))
        then
          let before := groupText mr 1 in
          let isInParentheses := test noFlags inParentheses (trim before) in
          let isAfterPlus := test noFlags afterPlus (trim before) in
          if isInParentheses || isAfterPlus then Some [line]
          else
            Some [trim before;
                  toUpperCase (groupText mr 2) ++ js " " ++ groupText mr 3
                  ++ js ": " ++ groupText mr 4]
        else None
    | None => None
    end in
  match asStep with
  | Some ls => ls
  | None =>
      let rustMatch := exec flag_i embeddedRest line in
      match rustMatch with
      | Some mr =>
          if negb (startsWith (trim line) (js "RUST"))
             && negb (startsWith (trim line) (js "RUHE"))
             && negb (startsWith (trim line) (js "IDLE"))
          then
            let before := groupText mr 1 in
            let keyword := groupText mr 2 in
            let after := groupText mr 3 in
            let isInParentheses := test noFlags inParentheses (trim before) in
            let isAfterPlus := test noFlags afterPlus (trim before) in
            let isAtEndOfCondition :=
              isEmpty (trim after) && test noFlags endsClosed (trim before) in
            let containsProgramRef := test noFlags programRef before in
            if isInParentheses || isAfterPlus || isAtEndOfCondition
               || containsProgramRef
            then [line]
            else [trim before; toUpperCase keyword ++ js ": " ++ after]
          else [line]
      | None => [line]
      end
  end.

Definition restDeclaration : regex :=
  Seqs [Bol; Star Space; restKeyword 1; Star Space; Opt opening; Star Space].

Definition stepDeclaration : regex :=
  Seqs [Bol; Star Space; stepKeyword 1; Star Space;
        Star (Class false ((45, 45) :: (46, 46) :: (40, 40) :: spaceRanges)%N);
        Group 2 (Plus Digit); Star Space;
        Star (Class false [(58, 58); (46, 46); (41, 41)]%N); Star Space].

Definition stepWithoutNumber : regex :=
  Seqs [Bol; Star Space; stepKeyword 1; Star Space;
        Class false [(58, 58); (46, 46)]%N;
        Lookahead true (Seq (Star Space) Digit)].

Definition vonDeclaration : regex :=
  Seqs [Bol; Star Space;
        Group 1 (Seqs [Opt (Char 43); Star Space; Str (js "VON"); Plus Space;
                       Alts [Str (js "SCHRITT"); Str (js "STAP"); Str (js "STEP")];
                       Plus Space; Plus Digit]);
        Star Space; Eol].

Definition colonAfterWord : regex :=
  Seqs [Group 1 Word; Star Space; Char 58; Star Space].

Definition spaceRun : regex := AtLeast 2 (Char 32).

Definition normalizeStepFormatting (text : jsstring) : jsstring :=
  let normalizedLines := flat_map splitEmbedded (lines text) in
  replaceWith flag_g spaceRun (js " ")
    (replace flag_g colonAfterWord (fun mr => groupText mr 1 ++ js ": ")
       (replace flag_gmi vonDeclaration (fun mr => toUpperCase (groupText mr 1))
          (replace flag_gmi stepWithoutNumber
             (fun mr => toUpperCase (groupText mr 1) ++ js " 1: ")
             (replace flag_gmi stepDeclaration
                (fun mr => toUpperCase (groupText mr 1) ++ js " "
                           ++ groupText mr 2 ++ js ": ")
                (replace flag_gmi restDeclaration
                   (fun mr => toUpperCase (groupText mr 1) ++ js ": ")
                   (unlines normalizedLines)))))).

Definition normalizeWordImport (text : jsstring) : jsstring :=
  normalizeStepFormatting (fixWordImportIssues (removeWordFormatting text)).

Definition fixManualInputIssues (text : jsstring) : jsstring :=
  replaceWith flag_g spaceRun (js " ")
    (unlines
       (map trim
          (lines
             (replaceWith flag_g (Char 61) (js " = ")
                (replaceWith flag_g (Char 58) (js ": ") text))))).

Definition normalizeManualInput (text : jsstring) : jsstring :=
  normalizeStepFormatting (fixManualInputIssues text).

Definition identifier : regex :=
  Seq (Class false [(97, 122); (65, 90)]%N)
      (Star (Class false [(97, 122); (65, 90); (48, 57); (95, 95)]%N)).
Definition notEquals : regex := Class true [(61, 61)]%N.

Definition applyConsistencyRules (text : jsstring) : jsstring :=
  replaceWith noFlags (Seq (Plus (Char 10)) Eol) []
    (replaceWith noFlags (Seq Bol (Plus (Char 10))) []
       (replaceWith flag_gm (Seqs [Bol; Star Space; Char 43; Star Space]) (js "+ ")
          (replaceWith flag_gm (Seqs [Bol; Star Space; Char 45; Star Space]) (js "- ")
             (replace flag_gm
                (Seqs [Bol; Star Space;
                       Group 1 (Alts [Str (js "TIJD"); Str (js "TIME"); Str (js "ZEIT")]);
                       Star Space; Char 61; Star Space; Group 2 (Plus notEquals); Eol])
                (fun mr => groupText mr 1 ++ js " = " ++ groupText mr 2)
                (replace flag_gm
                   (Seqs [Bol; Star Space;
                          Group 1 (Alts [Str (js "STORING"); Str (js "MELDING")]);
                          Star Space; Char 58; Star Space; Group 2 (Plus notEquals);
                          Star Space; Char 61; Star Space; Eol])
                   (fun mr => groupText mr 1 ++ js ": " ++ groupText mr 2 ++ js " = ")
                   (replace flag_gm
                      (Seqs [Bol; Star Space; Group 1 identifier; Star Space;
                             Char 61; Star Space; Eol])
                      (fun mr => groupText mr 1 ++ js " = ")
                      text)))))).

(** [normalizeText(text, source)]. *)
Definition normalizeText (text source : jsstring) : jsstring :=
  let common := normalizeEncoding (normalizeLineEndings (removeExtraWhitespace text)) in
  let specific :=
    if eqb source (js "word") then normalizeWordImport common
    else if eqb source (js "manual") then normalizeManualInput common
    else common in
  applyConsistencyRules specific.

End Normalizer.

(* ===================================================================== *)
(** * Positions of a text and patterns that cannot match *)
(* ===================================================================== *)

Module Positions.
Import JsString RegExp.

#[global] Instance regex_eq_dec : EqDecision regex.
Proof. solve_decision. Defined.

(** The loop of the matcher for [Repeat], with the matcher [mr] of the
    repeated pattern as a parameter. *)
Definition repeatLoop (mr : (mstate -> option mstate) -> mstate -> option mstate)
  (groupIds : list nat) (min : nat) (max : option nat) (greedy : bool)
  (k : mstate -> option mstate) : nat -> nat -> mstate -> option mstate :=
  fix loop (fuel count : nat) (st : mstate) {struct fuel} : option mstate :=
    match fuel with
    | 0 => None
    | S fuel' =>
        let iterate (_ : unit) :=
          if belowMax max count then
            mr (fun st' =>
                  if bool_decide (min <= count)
                     && bool_decide (length (rest st') = length (rest st))
                  then None else loop fuel' (S count) st')
               (MState (rest st) (prev st) (dropCaps groupIds (caps st)))
          else None in
        let leave (_ : unit) :=
          if bool_decide (min <= count) then k st else None in
        if greedy then orElse (iterate tt) leave
        else orElse (leave tt) iterate
    end.

(** A position in a text: the character before it and the text from it
    on. *)
Definition position : Type := (option N * jsstring)%type.

Definition positionOf (st : mstate) : position := (prev st, rest st).

Definition stateAt (pos : position) (cs : list (nat * jsstring)) : mstate :=
  MState (snd pos) (fst pos) cs.

(** [after pos pos']: [pos'] is [pos] or a later position of the text. *)
Inductive after : position -> position -> Prop :=
| after_here pos : after pos pos
| after_next p c s pos : after (Some c, s) pos -> after (p, c :: s) pos.

(** A pattern that matches at no position from [pos] on, whatever
    follows the pattern. *)
Definition Dead (f : flags) (q : regex) (pos : position) : Prop :=
  forall pos', after pos pos' ->
  forall k cs, m f q k (stateAt pos' cs) = None.

(** A property of every position from [pos] on. *)
Fixpoint always (P : position -> bool) (p : option N) (s : jsstring) : bool :=
  P (p, s) &&
  match s with
  | [] => true
  | c :: s' => always P (Some c) s'
  end.

(** Every match of [r] goes through one of the [atoms]. *)
Fixpoint blocked (atoms : list regex) (r : regex) : bool :=
  bool_decide (r ∈ atoms) ||
  match r with
  | Seq r1 r2 => blocked atoms r1 || blocked atoms r2
  | Alt r1 r2 => blocked atoms r1 && blocked atoms r2
  | Repeat r' min _ _ => bool_decide (1 <= min) && blocked atoms r'
  | Group _ r' => blocked atoms r'
  | _ => false
  end.


(** A pattern that reads one character accepted by [acc]. *)
Definition Single (f : flags) (r : regex) (acc : N -> bool) : Prop :=
  forall k s p cs,
    m f r k (MState s p cs) =
    match s with
    | c :: s' => if acc c then k (MState s' (Some c) cs) else None
    | [] => None
    end.

End Positions.

(* ===================================================================== *)
(** * Plain text *)
(* ===================================================================== *)

Module PlainText.
Import JsString RegExp Positions Normalizer.

Definition letterOrDigit (c : N) : bool :=
  inRanges [(48, 57); (65, 90); (97, 122)]%N c.

Definition blank (c : N) : bool := (c =? 32)%N || (c =? 10)%N.

Definition plainChar (c : N) : bool := letterOrDigit c || blank c.







End PlainText.

(* ===================================================================== *)
(** * Further observations on the generated netlist *)
(* ===================================================================== *)

Module Wiring.
Import JsString XmlBuilder Generator Netlist.

(** The identifiers of the gates, latches and coils of a network. *)
Definition partIds (net : Network) : list nat :=
  flat_map (fun o => match o with inl p => [part_id p] | inr _ => [] end)
           (net_parts net).

(** No wire dangles: it starts at an object of the network and ends at
    one of its gates, latches or coils. *)
Definition WellWired (net : Network) : Prop :=
  Forall (fun w => fst (wire_from w) ∈ map objectId (net_parts net) /\
                   fst (wire_to w) ∈ partIds net)
         (net_wires net).

(** Every latch and coil has a wire to its operand. *)
Definition OperandsConnected (net : Network) : Prop :=
  forall p, inl p ∈ net_parts net -> part_name p <> A ->
    exists w, w ∈ net_wires net /\ wire_to w = (part_id p, js "operand").

End Wiring.

(* ===================================================================== *)
(** * Character by character views of the replacements *)
(* ===================================================================== *)

Module Encoding.
Import JsString RegExp.

(** What a global replacement of a one-character pattern, accepting the
    characters [acc], by the text [t] makes of the character [d]. *)
Definition replaceChar (acc : N -> bool) (t : jsstring) (d : N) : jsstring :=
  if acc d then t else [d].

(** The characters that [escapeXml] leaves in no text. *)
Definition markup : list N := [60; 62; 34; 39]%N.

(** What [normalizeEncoding] makes of one character: the dashes U+2013
    and U+2014 become a hyphen, the ellipsis U+2026 three dots, the
    non-breaking space a space. *)
Definition encodeChar (c : N) : jsstring :=
  if (c =? 8211)%N then js "-"
  else if (c =? 8212)%N then js "-"
  else if (c =? 8230)%N then js "..."
  else if (c =? 160)%N then js " "
  else [c].

(** The characters that [normalizeEncoding] leaves in no text. *)
Definition foreign : list N := [8211; 8212; 8230; 160]%N.

End Encoding.

(* ===================================================================== *)
(** * The counters of the cache *)
(* ===================================================================== *)

Module CacheStatistics.
Import JsString RegExp RegexCache.

(** The calls that returned. *)
Definition returned (outs : list outcome) : nat :=
  length (List.filter (fun out => match out with Thrown => false | _ => true end) outs).

(** The references of the map are references to matchers of the store,
    and every miss has compiled one matcher. *)
Definition Consistent (c : RegexCache) : Prop :=
  Forall (fun e => snd e < length (objects c)) (cache c) /\
  length (objects c) >= missCount c /\
  size c <= missCount c.

End CacheStatistics.

(* ===================================================================== *)
(** * The conditions of a sequential step *)
(* ===================================================================== *)

Module StepLogic.
Import JsString XmlBuilder Generator Netlist.

(** A Boolean constant. *)
Definition literal (a : Access) (value : bool) : Prop :=
  acc_isLiteralBool a = true /\ acc_literalValue a = value.

(** The AND gate of the network of [step]: input 1 is the bit of the
    step [previous], input 2 the negated bit of the step itself,
    input 3 the constant false; the gate has no other input. *)
Definition StepConditions (previous : Z) (step : Step) (net : Network) : Prop :=
  exists gate : Part,
    inl gate ∈ net_parts net /\ part_name gate = A /\
    part_negatedInputs gate = [js "in2"] /\
    (exists a, inr a ∈ net_parts net /\ stepBit a previous /\
               feeds net a gate (js "in1")) /\
    (exists a, inr a ∈ net_parts net /\ stepBit a (number step) /\
               feeds net a gate (js "in2")) /\
    (exists a, inr a ∈ net_parts net /\ literal a false /\
               feeds net a gate (js "in3")) /\
    length (incoming net gate) = 3.

(** What the gate of the network of [step] drives: the coil of the step
    when there is no next step, and otherwise a latch that is reset by
    the bit of the step [next]; the operand is the bit of the step
    itself. *)
Definition StepTarget (next : option Z) (step : Step) (net : Network) : Prop :=
  exists gate target : Part,
    inl gate ∈ net_parts net /\ part_name gate = A /\
    inl target ∈ net_parts net /\
    (exists a, inr a ∈ net_parts net /\ stepBit a (number step) /\
               feeds net a target (js "operand")) /\
    match next with
    | None => part_name target = Coil /\ drives net gate (js "out") target (js "in")
    | Some nextNumber =>
        part_name target = Sr /\ drives net gate (js "out") target (js "s") /\
        exists a, inr a ∈ net_parts net /\ stepBit a nextNumber /\
                  feeds net a target (js "r1")
    end.

End StepLogic.

(* ===================================================================== *)
(** * src/core/EnhancedLogicParser.js and src/core/UnifiedTextParser.js:
      steps, conditions and their validation *)
(* ===================================================================== *)

Module StepValidation.
Import JsString RegExp ValidationRules.

(** A cross-reference [(program SCHRITT 1+2)] of a condition; a step
    that [parseInt] does not read is [None]. *)
Record CrossReference : Type := MkCrossReference {
  ref_description : jsstring;
  ref_program : jsstring;
  ref_steps : list (option Z)
}.

(** A condition.  The fields that only [extractVariablesFromCondition]
    and the statistics read are left out. *)
Record Condition : Type := MkCondition {
  cond_text : jsstring;
  cond_negated : bool;
  cond_crossReference : option CrossReference;
  cond_lineNumber : nat;
  cond_isOr : bool                       (* operator: isOr ? 'OR' : 'AND' *)
}.

Inductive Operator : Type := AND | OR.

(** [{ type: 'group', operator, conditions }]. *)
Record ConditionGroup : Type := MkGroup {
  operator : Operator;
  groupConditions : list Condition
}.

(** A [VON SCHRITT] declaration waiting for its step. *)
Record Transition : Type := MkTransition {
  fromStep : Z;
  trans_isOr : bool;
  trans_conditions : list Condition
}.

(** A step of the parse result.  [step_type] is ['RUST'] or ['SCHRITT']
    for the enhanced parser and ['RUST'] or ['STAP'] for the base
    parser; [step_conditions] and [step_transitionConditions] are the
    fields of the base parser, [step_entryConditions] the field of the
    enhanced one. *)
Record ParsedStep : Type := MkParsedStep {
  step_type : jsstring;
  step_number : Z;
  step_description : jsstring;
  step_conditions : list jsstring;
  step_transitionConditions : list ConditionGroup;
  step_entryConditions : list ConditionGroup;
  step_exitConditions : list ConditionGroup;
  step_transitions : list Transition;
  step_lineNumber : nat
}.

(** The three branches shared by the two [addConditionToStep]: an OR
    condition opens a new group unless it is the first condition, the
    first condition opens an AND group, any other condition joins the
    last group. *)
Definition addToGroups (groups : list ConditionGroup) (condition : Condition)
  (isOr : bool) : list ConditionGroup :=
  if isOr && (0 <? length groups) then groups ++ [MkGroup OR [condition]]
  else if length groups =? 0 then groups ++ [MkGroup AND [condition]]
  else
    alter (fun lastGroup =>
             MkGroup (operator lastGroup) (groupConditions lastGroup ++ [condition]))
          (length groups - 1) groups.

(** [EnhancedLogicParser.addConditionToStep(step, condition, isOr)]. *)
Definition addConditionToStep (step : ParsedStep) (condition : Condition) (isOr : bool)
  : ParsedStep :=
  MkParsedStep (step_type step) (step_number step) (step_description step)
    (step_conditions step) (step_transitionConditions step)
    (addToGroups (step_entryConditions step) condition isOr)
    (step_exitConditions step) (step_transitions step) (step_lineNumber step).

(** [LogicParser.addConditionToStep(step, condition, isOr)]. *)
Definition baseAddConditionToStep (step : ParsedStep) (condition : Condition) (isOr : bool)
  : ParsedStep :=
  MkParsedStep (step_type step) (step_number step) (step_description step)
    (step_conditions step ++ [cond_text condition])
    (addToGroups (step_transitionConditions step) condition isOr)
    (step_entryConditions step)
    (step_exitConditions step) (step_transitions step) (step_lineNumber step).

(** The calls of [addConditionToStep] for the condition lines that follow
    a step, in the order of the lines; [fst input] is the condition and
    [snd input] is [isOr]. *)
Definition addConditions (step : ParsedStep) (inputs : list (Condition * bool))
  : ParsedStep :=
  fold_left (fun s input => addConditionToStep s (fst input) (snd input)) inputs step.

Definition baseAddConditions (step : ParsedStep) (inputs : list (Condition * bool))
  : ParsedStep :=
  fold_left (fun s input => baseAddConditionToStep s (fst input) (snd input)) inputs step.

(** The conditions of a list of groups, in order. *)
Definition flatten (groups : list ConditionGroup) : list Condition :=
  flat_map groupConditions groups.

(** The part of a parse result that the validation reads and writes. *)
Record Result : Type := MkResult {
  steps : list ParsedStep;
  errors : list Issue;
  warnings : list Issue
}.

Definition isSchritt (step : ParsedStep) : bool := eqb (step_type step) (js "SCHRITT").

Definition duplicateStep (step : ParsedStep) : Issue :=
  MkIssue (js "DUPLICATE_STEP")
    (js "Duplicate step number: " ++ ofZ (step_number step)) (step_lineNumber step).

(** The first loop of [validateStepLogicConsistency]; [stepNumbers]
    holds the keys of the map. *)
Fixpoint duplicateErrors (stepNumbers : list Z) (todo : list ParsedStep) : list Issue :=
  match todo with
  | [] => []
  | step :: todo' =>
      if isSchritt step then
        (if bool_decide (step_number step ∈ stepNumbers) then [duplicateStep step] else [])
        ++ duplicateErrors (step_number step :: stepNumbers) todo'
      else duplicateErrors stepNumbers todo'
  end.

(** [sort((a, b) => a.number - b.number)]: the sort is stable, so the
    sorted list is the one built by inserting each step before the
    first step of a number that is not smaller. *)
Fixpoint insertStep (step : ParsedStep) (sorted : list ParsedStep) : list ParsedStep :=
  match sorted with
  | [] => [step]
  | other :: sorted' =>
      if (step_number step <=? step_number other)%Z then step :: sorted
      else other :: insertStep step sorted'
  end.

Definition sortByNumber (l : list ParsedStep) : list ParsedStep :=
  foldr insertStep [] l.

Definition missingSequentialStep (previous current : ParsedStep) : Issue :=
  MkIssue (js "MISSING_SEQUENTIAL_STEP")
    (js "Gap in sequential steps: " ++ ofZ (step_number previous) ++ js " -> "
     ++ ofZ (step_number current))
    (step_lineNumber current).

(** The second loop, over the sorted steps from the second one on. *)
Fixpoint gapWarnings (previous : ParsedStep) (todo : list ParsedStep) : list Issue :=
  match todo with
  | [] => []
  | current :: todo' =>
      (if negb (step_number current =? step_number previous + 1)%Z
          && (length (step_transitions current) =? 0)
       then [missingSequentialStep previous current] else [])
      ++ gapWarnings current todo'
  end.

Definition invalidVonSchritt (step : ParsedStep) (transition : Transition) : Issue :=
  MkIssue (js "INVALID_VON_SCHRITT")
    (js "VON SCHRITT " ++ ofZ (fromStep transition) ++ js " references non-existent step")
    (step_lineNumber step).

(** The third loop. *)
Definition vonErrors (all : list ParsedStep) : list Issue :=
  flat_map
    (fun step =>
       flat_map
         (fun transition =>
            match find (fun s => (step_number s =? fromStep transition)%Z) all with
            | Some _ => []
            | None => [invalidVonSchritt step transition]
            end)
         (step_transitions step))
    all.

(** [validateStepLogicConsistency(result)]. *)
Definition validateStepLogicConsistency (result : Result) : Result :=
  let schrittSteps := sortByNumber (List.filter isSchritt (steps result)) in
  MkResult (steps result)
    (errors result ++ duplicateErrors [] (steps result) ++ vonErrors (steps result))
    (warnings result ++
     match schrittSteps with
     | [] => []
     | first :: others => gapWarnings first others
     end).


(** The steps of type SCHRITT at an earlier position than [i] that have
    the number of the step at position [i]. *)
Definition repeats (all : list ParsedStep) (i : nat) (step : ParsedStep) : Prop :=
  all !! i = Some step /\ isSchritt step = true /\
  exists j earlier, j < i /\ all !! j = Some earlier /\ isSchritt earlier = true /\
                    step_number earlier = step_number step.

End StepValidation.

(* ===================================================================== *)
(** * The ends of the normalized text *)
(* ===================================================================== *)

Module Ends.
Import JsString RegExp Normalizer.

Definition isBreak (c : N) : bool := (10 =? c)%N.

(** The text without the line breaks at its start. *)
Fixpoint dropBreaks (s : jsstring) : jsstring :=
  match s with
  | c :: s' => if isBreak c then dropBreaks s' else s
  | [] => []
  end.

(** The text without the line breaks at its end. *)
Fixpoint chomp (s : jsstring) : jsstring :=
  if forallb isBreak s then []
  else match s with
       | c :: s' => c :: chomp s'
       | [] => []
       end.

(** The text neither starts nor ends with a line break. *)
Definition trimmedOfBreaks (s : jsstring) : Prop :=
  head s <> Some newline /\ last s <> Some newline.

End Ends.

(* ===================================================================== *)
(** * The characters of the normalized text *)
(* ===================================================================== *)

Module Alphabet.
Import JsString RegExp Normalizer.

(** A state of the matcher all of whose characters satisfy [A]. *)
Definition stateWithin (A : N -> Prop) (st : mstate) : Prop :=
  Forall A (rest st) /\ Forall (fun g => Forall A (snd g)) (caps st).

(** A result of a search all of whose characters satisfy [A]. *)
Definition resultWithin (A : N -> Prop) (mr : matchResult) : Prop :=
  Forall A (before mr) /\ Forall A (matched mr) /\ Forall A (RegExp.after mr) /\
  Forall (fun g => Forall A (snd g)) (groups mr).

(** The characters that the first stages of [normalizeText] replace:
    the carriage return, the non-breaking space, the dashes U+2013 and
    U+2014 and the ellipsis U+2026. *)
Definition replaced : list N := [13; 160; 8211; 8212; 8230]%N.

Definition clean (c : N) : Prop := c ∉ replaced.

Definition cleanb (c : N) : bool := negb (existsb (N.eqb c) replaced).

End Alphabet.

(* ===================================================================== *)
(** * The order of the cache *)
(* ===================================================================== *)

Module Recency.
Import JsString RegExp RegexCache.

Section Requests.
Variable parsePattern : jsstring -> jsstring -> option regex.

(** [patterns.forEach(({ pattern, flags }) => this.getRegex(pattern,
    flags))], the loop of [precompileCommonPatterns], for requests that
    do not throw. *)
Definition getAll (requests : list (jsstring * jsstring)) (c : RegexCache) : RegexCache :=
  fold_left (fun c request => snd (getRegex parsePattern (fst request) (snd request) c))
            requests c.

Definition compiles (request : jsstring * jsstring) : Prop :=
  is_Some (newRegExp parsePattern (fst request) (snd request)).

End Requests.

(** The keys in the order of their last use, the least recently used
    one first. *)
Definition touch (used : list jsstring) (key : jsstring) : list jsstring :=
  filter (fun k => k <> key) used ++ [key].

Definition recency (keys : list jsstring) : list jsstring := fold_left touch keys [].

(** The last [n] elements. *)
Definition lastn {X} (n : nat) (l : list X) : list X := drop (length l - n) l.

Definition keyOf (request : jsstring * jsstring) : jsstring :=
  cacheKey (fst request) (snd request).

End Recency.

(* ===================================================================== *)
(** * The line counts of the parsing metadata *)
(* ===================================================================== *)

Module Metadata.
Import JsString.

(** [s.split(sep)] for a separator [sep] that is a string and not
    empty: the text is cut at every occurrence of the separator, found
    from left to right; [skip] counts the characters of an occurrence
    still to pass, [piece] holds the current piece in reverse. *)
Fixpoint splitOnFrom (sep : jsstring) (skip : nat) (piece : jsstring) (s : jsstring)
  : list jsstring :=
  match s with
  | [] => [rev piece]
  | c :: s' =>
      match skip with
      | S skip' => splitOnFrom sep skip' piece s'
      | 0 =>
          if startsWith s sep
          then rev piece :: splitOnFrom sep (length sep - 1) [] s'
          else splitOnFrom sep 0 (c :: piece) s'
      end
  end.

Definition splitOn (sep s : jsstring) : list jsstring := splitOnFrom sep 0 [] s.

(** The separator of the two counts: the characters backslash and n. *)
Definition backslashN : jsstring := [92; 110]%N.

(** [text.split('\\n').length], the expression of [originalLineCount]
    and, with the normalized text, of [normalizedLineCount]. *)
Definition lineCount (text : jsstring) : nat := length (splitOn backslashN text).

End Metadata.

(* ===================================================================== *)
(** * src/config/validationRules.js: merging custom rules *)
(* ===================================================================== *)

Module RuleMerging.
Import JsString RegExp ValidationRules.

(** The custom rules; [customGroups] is [None] when they have no
    [groups] property. *)
Record CustomRules : Type := MkCustomRules {
  customGroups : option (list (jsstring * GroupConfig))
}.

(** A new property of an object, placed where [Object.entries] lists
    it: a key that is an array index stands among the array indices, in
    ascending order, before every other key; any other key goes to the
    end. *)
Fixpoint insertEntry (entry : jsstring * GroupConfig)
  (entries : list (jsstring * GroupConfig)) : list (jsstring * GroupConfig) :=
  match entries with
  | [] => [entry]
  | e :: entries' =>
      match XmlBuilder.arrayIndex (fst entry), XmlBuilder.arrayIndex (fst e) with
      | Some i, Some j =>
          if (i <? j)%N then entry :: entries else e :: insertEntry entry entries'
      | Some _, None => entry :: entries
      | None, _ => e :: insertEntry entry entries'
      end
  end.

(** One property copied by an object spread: the value of an existing
    key is replaced where the key stands, a new key is placed by
    [insertEntry]. *)
Definition setEntry (entries : list (jsstring * GroupConfig))
  (entry : jsstring * GroupConfig) : list (jsstring * GroupConfig) :=
  if existsb (fun e => eqb (fst e) (fst entry)) entries
  then map (fun e => if eqb (fst e) (fst entry) then entry else e) entries
  else insertEntry entry entries.

(** [{ ...target, ...source }] for the entries [target] of an object. *)
Definition spread (target source : list (jsstring * GroupConfig))
  : list (jsstring * GroupConfig) :=
  fold_left setEntry source target.

(** [mergeValidationRules(customRules, defaultRules)], the groups of the
    result. *)
Definition mergeValidationRules (customRules : CustomRules) (defaultRules : Rules)
  : Rules :=
  MkRules (spread (groups defaultRules) (default [] (customGroups customRules))).

(** The keys of the entries that are no array indices: [Object.entries]
    lists such keys in the order in which they were added. *)
Definition named (entries : list (jsstring * GroupConfig)) : Prop :=
  Forall (fun entry => XmlBuilder.arrayIndex (fst entry) = None) entries.

(** A group is eligible for a name when none of its exclude patterns
    and one of its patterns match. *)
Definition eligible (name : jsstring) (entry : jsstring * GroupConfig) : bool :=
  negb (isExcluded name (snd entry)) && isMatched name (snd entry).

End RuleMerging.

(* ===================================================================== *)
(** * Properties of the XML serializer *)
(* ===================================================================== *)

Module XmlFacts.
Import JsString RegExp XmlBuilder Netlist.

Section CharReplace.
Variables (c : N) (t : jsstring).

(** Replacing one character by a text, character by character. *)
Definition substChar (d : N) : jsstring := if N.eqb c d then t else [d].

Lemma search_char_cons sk p d s :
  search flag_g (Char c) sk p (d :: s) =
    if N.eqb c d then Some (MatchResult (rev sk) [d] [] s)
    else search flag_g (Char c) (d :: sk) (Some d) s.
Proof.
  cbn [search]. unfold matchHere, advance. cbn [m rest caps prev].
  unfold advance. cbn [rest caps prev].
  unfold charMatches, canon. cbn [ignoreCase flag_g].
  destruct (N.eqb c d) eqn:E; cbn [rest caps].
  - replace (length (d :: s) - length s) with 1 by (cbn [length]; lia).
    reflexivity.
  - reflexivity.
Qed.

Lemma search_char_spec s : forall sk p,
  match search flag_g (Char c) sk p s with
  | None => flat_map substChar s = s
  | Some mr =>
      matched mr = [c] /\ length (after mr) < length s /\
      rev sk ++ flat_map substChar s =
        before mr ++ t ++ flat_map substChar (after mr)
  end.
Proof.
  induction s as [|d s IH]; intros sk p.
  - reflexivity.
  - rewrite search_char_cons. cbn [flat_map].
    change (substChar d) with (if N.eqb c d then t else [d]).
    destruct (N.eqb c d) eqn:E.
    + apply N.eqb_eq in E. subst d. cbn [matched after before length].
      split; [reflexivity|]. split; [lia|]. reflexivity.
    + specialize (IH (d :: sk) (Some d)).
      destruct (search flag_g (Char c) (d :: sk) (Some d) s) as [mr|].
      * destruct IH as (Hm & Hl & Heq). split; [done|].
        split; [cbn [length]; lia|].
        rewrite <- Heq. cbn [rev]. rewrite <- app_assoc. reflexivity.
      * cbn [app]. by rewrite IH.
Qed.

Lemma replaceFrom_char fuel : forall s p,
  length s < fuel ->
  replaceFrom fuel flag_g (Char c) (fun _ => t) p s = flat_map substChar s.
Proof.
  induction fuel as [|fuel IH]; intros s p Hlen; [lia|].
  cbn [replaceFrom]. pose proof (search_char_spec s [] p) as H.
  destruct (search flag_g (Char c) [] p s) as [mr|]; [|done].
  destruct H as (Hm & Hl & Heq). cbn [rev app] in Heq. rewrite Heq.
  rewrite Hm. cbn [global flag_g]. rewrite IH by lia. reflexivity.
Qed.

(** A global replacement of a one-character pattern acts on each
    character separately. *)
Lemma replaceWith_char s :
  replaceWith flag_g (Char c) t s = flat_map substChar s.
Proof. apply replaceFrom_char. lia. Qed.
End CharReplace.

(** The five replacements of [escapeXml], made one after the other, do
    not touch the entities written by the earlier ones. *)
Lemma escapeXml_chars text : escapeXml text = escaped text.
Proof.
  unfold escapeXml, escaped. rewrite !replaceWith_char.
  induction text as [|d text IH]; [reflexivity|].
  cbn [flat_map]. rewrite !flat_map_app, IH. f_equal.
  unfold escapeChar, substChar at 5.
  destruct (N.eqb d 38) eqn:E1.
  { apply N.eqb_eq in E1. subst d. reflexivity. }
  rewrite N.eqb_sym, E1. cbn [flat_map app]. unfold substChar at 4.
  destruct (N.eqb d 60) eqn:E2.
  { apply N.eqb_eq in E2. subst d. reflexivity. }
  rewrite N.eqb_sym, E2. cbn [flat_map app]. unfold substChar at 3.
  destruct (N.eqb d 62) eqn:E3.
  { apply N.eqb_eq in E3. subst d. reflexivity. }
  rewrite N.eqb_sym, E3. cbn [flat_map app]. unfold substChar at 2.
  destruct (N.eqb d 34) eqn:E4.
  { apply N.eqb_eq in E4. subst d. reflexivity. }
  rewrite N.eqb_sym, E4. cbn [flat_map app]. unfold substChar.
  destruct (N.eqb d 39) eqn:E5.
  { apply N.eqb_eq in E5. subst d. reflexivity. }
  rewrite N.eqb_sym, E5. reflexivity.
Qed.

Lemma renderAttribute_text kv : renderAttribute kv = attributeText kv.
Proof. unfold renderAttribute, attributeText. by rewrite escapeXml_chars. Qed.

Lemma map_renderAttribute a : map renderAttribute a = map attributeText a.
Proof. apply map_ext. intros. apply renderAttribute_text. Qed.

(** C7.  The serializer escapes exactly the five characters [&], [<],
    [>], the double quote and the apostrophe, in every attribute value and in every text child,
    and writes the fragments inserted by [addRaw] as they are: any other
    character of a text is kept, and [toString] renders an element as its
    open tag with character-wise escaped attribute values followed by its
    children, each text child escaped character-wise, each raw child
    verbatim and each element child by [toString] again. *)
Theorem escaping_of_attributes_texts_and_raw_fragments :
  (forall text, escapeXml text = flat_map escapeChar text) /\
  (forall c, escapeChar c = [c] \/ c ∈ [38; 60; 62; 34; 39]%N) /\
  (escapeChar 38 = js "&amp;" /\ escapeChar 60 = js "&lt;" /\
   escapeChar 62 = js "&gt;" /\ escapeChar 34 = js "&quot;" /\
   escapeChar 39 = js "&apos;") /\
  (forall pretty level n cs a,
     toString pretty level (Element n cs a) =
       openTagText pretty level n a ++
       match cs, pretty with
       | [], _ => js " />"
       | [ChildText text], true =>
           js ">" ++ flat_map escapeChar text ++ js "</" ++ n ++ js ">"
       | _, _ =>
           js ">" ++ (if pretty then [10%N] else []) ++
           join (if pretty then [10%N] else []) (map (childText pretty level) cs) ++
           (if pretty then 10%N :: repeatIndent level else []) ++
           js "</" ++ n ++ js ">"
       end).
Proof.
  split; [exact escapeXml_chars|]. split.
  { intros c. unfold escapeChar.
    destruct (N.eqb c 38) eqn:E1; [apply N.eqb_eq in E1; subst c; right; set_solver|].
    destruct (N.eqb c 60) eqn:E2; [apply N.eqb_eq in E2; subst c; right; set_solver|].
    destruct (N.eqb c 62) eqn:E3; [apply N.eqb_eq in E3; subst c; right; set_solver|].
    destruct (N.eqb c 34) eqn:E4; [apply N.eqb_eq in E4; subst c; right; set_solver|].
    destruct (N.eqb c 39) eqn:E5; [apply N.eqb_eq in E5; subst c; right; set_solver|].
    by left. }
  split; [by repeat split|].
  intros pretty level n cs a.
  cbn [toString]. rewrite map_renderAttribute. unfold openTagText.
  erewrite (map_ext _ (childText pretty level)).
  2:{ intros c. destruct c; cbn [childText]; try reflexivity.
      rewrite escapeXml_chars. by destruct pretty. }
  destruct cs as [|c cs]; [by rewrite <- !app_assoc|].
  destruct c as [e|text|xml], cs as [|c' cs], pretty;
    rewrite ?escapeXml_chars; unfold escaped;
    repeat rewrite <- app_assoc; reflexivity.
Qed.

End XmlFacts.

(* ===================================================================== *)
(** * Properties of the netlist generator *)
(* ===================================================================== *)

Module GeneratorFacts.
Import JsString XmlBuilder Generator Netlist.

Lemma buildDocument_fb functionBlock ss :
  exists fb u, buildDocument functionBlock ss = {| doc_uidManager := u; doc_fb := Some fb |}.
Proof.
  unfold buildDocument.
  destruct (newFunctionBlock _ _) as [fb u].
  destruct (List.find isRust ss) as [rustStep|].
  - destruct (buildRustNetwork _ _ _) as [rustNetwork u1].
    destruct (buildStepNetworks _ _ _ _ _) as [nets u2]. eauto.
  - destruct (buildStepNetworks _ _ _ _ _) as [nets u2]. eauto.
Qed.

Lemma doc_toXml_declaration pretty level d :
  exists body, fst (doc_toXml pretty level d) = xmlDeclaration ++ body.
Proof.
  unfold doc_toXml. destruct (doc_fb d) as [fb|].
  - destruct (fb_toXml _ _ _ _) as [[xml fb'] u]. cbn [fst]. eauto.
  - cbn [fst]. eauto.
Qed.

Lemma declaration_is_no_failure body : xmlDeclaration ++ body <> noStepsMessage.
Proof. intros H. vm_compute in H. discriminate H. Qed.

(** The text of a document that holds a function block: the XML
    declaration, then the [Document] element with its [Engineering]
    element and the text of the block. *)
Lemma doc_toXml_text d fb :
  doc_fb d = Some fb ->
  fst (doc_toXml true 0 d) =
    xmlDeclaration ++ js "<Document>" ++ [10%N] ++
    js "  <Engineering version=" ++ [34%N] ++ js "V18" ++ [34%N] ++ js " />" ++ [10%N] ++
    fst (fst (fb_toXml (doc_uidManager d) true 1 fb)) ++ [10%N] ++ js "</Document>".
Proof.
  intros Hfb. unfold doc_toXml. rewrite Hfb.
  change (0 + 1) with 1.
  destruct (fb_toXml (doc_uidManager d) true 1 fb) as [[xml fb'] u].
  cbn [fst]. f_equal.
Qed.

(** C3.  Generation fails exactly when the program has no steps: the
    result is the failure text if and only if the result to generate from
    is missing, has no [steps] list or has an empty one.  With at least
    one step the function returns the text that [doc.toXml(true)] gives
    for the document built from the steps, a document that holds a
    function block: the XML declaration, then the [Document] element
    with its [Engineering] element and the text of the function block. *)
Theorem generation_fails_exactly_without_steps (parseResult : option ParseResult) :
  (isGenerationFailure (generateTIAPortalXML parseResult) <-> stepsOf parseResult = []) /\
  (forall pr, parseResult = Some pr -> stepsOf parseResult <> [] ->
     let d := buildDocument (functionBlock pr) (stepsOf parseResult) in
     exists fb,
       doc_fb d = Some fb /\
       generateTIAPortalXML parseResult = fst (doc_toXml true 0 d) /\
       generateTIAPortalXML parseResult =
         xmlDeclaration ++ js "<Document>" ++ [10%N] ++
         js "  <Engineering version=" ++ [34%N] ++ js "V18" ++ [34%N] ++ js " />" ++ [10%N] ++
         fst (fst (fb_toXml (doc_uidManager d) true 1 fb)) ++ [10%N] ++ js "</Document>").
Proof.
  split.
  - unfold isGenerationFailure, generateTIAPortalXML, stepsOf.
    destruct parseResult as [pr|]; [|by split].
    destruct (steps pr) as [[|s ss]|]; cbn [default]; try by split.
    destruct (doc_toXml_declaration true 0 (buildDocument (functionBlock pr) (s :: ss)))
      as [body Hbody].
    rewrite Hbody. split; [|done]. intros H. by apply declaration_is_no_failure in H.
  - intros pr -> Hsteps d. subst d. unfold stepsOf in *.
    unfold generateTIAPortalXML.
    destruct (steps pr) as [[|s ss]|]; cbn [default from_option id] in *; try done.
    destruct (buildDocument_fb (functionBlock pr) (s :: ss)) as (fb & u & Hd).
    exists fb. rewrite Hd. cbn [doc_fb]. split; [reflexivity|].
    split; [reflexivity|]. by apply doc_toXml_text.
Qed.

(** A program with one step is turned into a document. *)
Lemma generation_fails_exactly_without_steps_witness :
  let pr :=
    {| functionBlock := None;
       steps := Some [{| number := 1; type := STAP; description := None |}] |} in
  let d := buildDocument (functionBlock pr) (stepsOf (Some pr)) in
  stepsOf (Some pr) <> [] /\
  exists fb,
    doc_fb d = Some fb /\
    generateTIAPortalXML (Some pr) = fst (doc_toXml true 0 d) /\
    generateTIAPortalXML (Some pr) =
      xmlDeclaration ++ js "<Document>" ++ [10%N] ++
      js "  <Engineering version=" ++ [34%N] ++ js "V18" ++ [34%N] ++ js " />" ++ [10%N] ++
      fst (fst (fb_toXml (doc_uidManager d) true 1 fb)) ++ [10%N] ++ js "</Document>".
Proof.
  intros pr d.
  assert (H : stepsOf (Some pr) <> []) by (vm_compute; discriminate).
  split; [exact H|].
  exact (proj2 (generation_fails_exactly_without_steps (Some pr)) pr eq_refl H).
Defined.

(** ** Cardinality of the AND gates *)










(** ** The text of a network inside the text of the document *)



















(** ** Closed form of the Rest network *)

Lemma addAccess_eq variable index net :
  addAccess variable index net =
    (withParts net {| currentId := S (currentId (net_uidManager net)) |}
       (net_parts net ++
        [inr {| acc_id := currentId (net_uidManager net); acc_variable := variable;
                acc_index := Some index; acc_isLiteralBool := false;
                acc_literalValue := false |}]),
     length (net_parts net)).
Proof. reflexivity. Qed.

Lemma addPart_eq n net :
  addPart n net =
    (withParts net {| currentId := S (currentId (net_uidManager net)) |}
       (net_parts net ++ [inl (freshPart (currentId (net_uidManager net)) n)]),
     length (net_parts net)).
Proof. reflexivity. Qed.

Lemma connect_eq from fromPort to toPort negated net f t :
  net_parts net !! from = Some f -> net_parts net !! to = Some t ->
  connect from fromPort to toPort negated net =
    {| net_uidManager := {| currentId := S (currentId (net_uidManager net)) |};
       net_id := net_id net;
       net_parts := if negated then negateAt to toPort (net_parts net) else net_parts net;
       net_wires := net_wires net ++
                    [{| wire_id := currentId (net_uidManager net);
                        wire_from := (objectId f, fromPort);
                        wire_to := (objectId t, toPort) |}];
       net_title := net_title net; net_comment := net_comment net |}.
Proof. intros Hf Ht. unfold connect. rewrite Hf, Ht. reflexivity. Qed.

Lemma stepAccesses_cons cur step rest :
  stepAccesses cur (step :: rest) =
    inr (stepAccess cur (number step)) :: stepAccesses (S cur) rest.
Proof.
  unfold stepAccesses. cbn [imap]. rewrite Nat.add_0_r. f_equal.
  apply imap_ext. intros i x _. cbn. do 2 f_equal. lia.
Qed.

Lemma length_stepAccesses cur l : length (stepAccesses cur l) = length l.
Proof. unfold stepAccesses. apply length_imap. Qed.

Lemma addAccesses_spec stepsToReset : forall net,
  addAccesses stepsToReset net =
    (withParts net
       {| currentId := currentId (net_uidManager net) + length stepsToReset |}
       (net_parts net ++ stepAccesses (currentId (net_uidManager net)) stepsToReset),
     seq (length (net_parts net)) (length stepsToReset)).
Proof.
  induction stepsToReset as [|step rest IH]; intros net.
  - cbn [addAccesses length seq]. unfold stepAccesses. cbn [imap].
    rewrite Nat.add_0_r, app_nil_r. destruct net as [[cur] ? ? ? ? ?]. reflexivity.
  - cbn [addAccesses]. rewrite addAccess_eq, IH.
    cbn [withParts net_parts net_uidManager currentId net_id net_wires net_title net_comment].
    rewrite stepAccesses_cons, length_app. cbn [length seq].
    rewrite <- app_assoc. cbn [app].
    replace (S (currentId (net_uidManager net)) + length rest)
      with (currentId (net_uidManager net) + S (length rest)) by lia.
    replace (length (net_parts net) + 1) with (S (length (net_parts net))) by lia.
    reflexivity.
Qed.

Lemma part_id_negateInput port p : part_id (negateInput port p) = part_id p.
Proof. unfold negateInput. by destruct (bool_decide _). Qed.

Lemma negateAt_gate (pre : list (Part + Access)) g port :
  negateAt (length pre) port (pre ++ [inl g]) = pre ++ [inl (negateInput port g)].
Proof.
  unfold negateAt. rewrite alter_app_r_alt by lia.
  rewrite Nat.sub_diag. reflexivity.
Qed.

Lemma inputWires_S cur from to idx n :
  inputWires cur from to idx (S n) =
    accessWire cur from to (inPort (idx + 1)) :: inputWires (S cur) (S from) to (S idx) n.
Proof.
  unfold inputWires. cbn [seq map]. rewrite !Nat.add_0_r. f_equal.
  rewrite <- fmap_S_seq, <- list_fmap_compose. apply list_fmap_ext.
  intros i k _. unfold compose. f_equal; try lia. f_equal. lia.
Qed.

Lemma connectInputs_spec n : forall idx net pre g from,
  net_parts net = pre ++ [inl g] ->
  idx + n = length pre ->
  (forall k, k < length pre -> objectId <$> pre !! k = Some (from + k)) ->
  connectInputs (length pre) idx (seq idx n) net =
    {| net_uidManager := {| currentId := currentId (net_uidManager net) + n |};
       net_id := net_id net;
       net_parts := pre ++ [inl (negateAll (map inPort (seq (idx + 1) n)) g)];
       net_wires := net_wires net ++
                    inputWires (currentId (net_uidManager net)) (from + idx) (part_id g) idx n;
       net_title := net_title net; net_comment := net_comment net |}.
Proof.
  induction n as [|n IH]; intros idx net pre g from Hparts Hlen Hids.
  - cbn [seq connectInputs map negateAll fold_left]. unfold inputWires. cbn [seq map].
    rewrite Nat.add_0_r, app_nil_r, <- Hparts.
    destruct net as [[cur] ? ? ? ? ?]. reflexivity.
  - cbn [seq connectInputs].
    assert (Hidx : idx < length pre) by lia.
    destruct (pre !! idx) as [o|] eqn:Eo; [|apply lookup_ge_None in Eo; lia].
    pose proof (Hids idx Hidx) as Hid. rewrite Eo in Hid. injection Hid as Hid.
    erewrite (connect_eq idx None (length pre) _ true net o (inl g)).
    2:{ rewrite Hparts. apply lookup_app_l_Some. exact Eo. }
    2:{ rewrite Hparts. rewrite lookup_app_r by lia. by rewrite Nat.sub_diag. }
    rewrite Hparts, negateAt_gate.
    erewrite (IH (S idx) _ pre (negateInput (inPort (idx + 1)) g) from);
      [|reflexivity|lia|exact Hids].
    cbn [net_uidManager currentId net_id net_wires net_title net_comment objectId].
    rewrite part_id_negateInput, inputWires_S, Hid, <- app_assoc.
    cbn [app map negateAll fold_left seq].
    replace (S (currentId (net_uidManager net)) + n)
      with (currentId (net_uidManager net) + S n) by lia.
    replace (from + S idx) with (S (from + idx)) by lia.
    replace (idx + 1) with (S idx) by lia.
    replace (S idx + 1) with (S (S idx)) by lia.
    reflexivity.
Qed.

Lemma find_head_filter {X} (f : X -> bool) l : List.find f l = head (List.filter f l).
Proof.
  induction l as [|x l IH]; [reflexivity|]. cbn [List.find List.filter].
  by destruct (f x).
Qed.

Lemma stepAccesses_ids cur l k :
  k < length (stepAccesses cur l) -> objectId <$> stepAccesses cur l !! k = Some (cur + k).
Proof.
  rewrite length_stepAccesses. intros Hk. unfold stepAccesses.
  rewrite list_lookup_imap. destruct (l !! k) as [x|] eqn:E.
  - reflexivity.
  - apply lookup_ge_None in E. lia.
Qed.

Lemma lookup_tail {X} (pre l : list X) i k :
  i = length pre + k -> forall x, l !! k = Some x -> (pre ++ l) !! i = Some x.
Proof. intros -> x Hx. rewrite lookup_app_r by lia. by replace (length pre + k - length pre) with k by lia. Qed.

Lemma part_id_negateAll ports : forall p, part_id (negateAll ports p) = part_id p.
Proof.
  induction ports as [|port ports IH]; intros p; [reflexivity|].
  cbn [negateAll fold_left]. etransitivity; [apply IH|]. apply part_id_negateInput.
Qed.

Lemma buildRustNetwork_eq rustStep steps u :
  buildRustNetwork rustStep steps u =
    (restNetworkOf (currentId u) (orString (description rustStep) (js "RUST Logic"))
       (List.filter isStap steps),
     {| currentId := S (currentId u) |}).
Proof.
  unfold buildRustNetwork, newNetwork, newMultilingualText, next.
  cbn [currentId].
  rewrite addAccesses_spec.
  cbn [withParts net_parts net_uidManager currentId net_id net_wires net_title net_comment app length].
  rewrite addPart_eq.
  cbn [withParts net_parts net_uidManager currentId net_id net_wires net_title net_comment app].
  set (normal := List.filter isStap steps).
  erewrite (connectInputs_spec (length normal) 0 _ (stepAccesses 502 normal)
              (freshPart (502 + length normal) A) 502);
    [|reflexivity|by rewrite length_stepAccesses|apply stepAccesses_ids].
  cbn [withParts net_parts net_uidManager currentId net_id net_wires net_title net_comment app].
  rewrite addPart_eq.
  cbn [withParts net_parts net_uidManager currentId net_id net_wires net_title net_comment app].
  rewrite find_head_filter. fold normal. clearbody normal.
  destruct normal as [|firstStep rest]; [reflexivity|].
  cbn [head].
  set (n := length (firstStep :: rest)).
  set (pre := stepAccesses 502 (firstStep :: rest)).
  assert (Hpre : length pre = n) by apply length_stepAccesses.
  set (gate := negateAll (map inPort (seq (0 + 1) n)) (freshPart (502 + n) A)).
  rewrite (addAccess_eq _ (number firstStep)).
  cbn [withParts net_parts net_uidManager currentId net_id net_wires net_title net_comment].
  rewrite <- !app_assoc. cbn [app].
  erewrite (connect_eq _ None _ (js "r1") false).
  2:{ apply (lookup_tail pre _ _ 2); [rewrite length_app; cbn [length]; lia|reflexivity]. }
  2:{ apply (lookup_tail pre _ _ 1); [rewrite length_app; cbn [length]; lia|reflexivity]. }
  cbn [withParts net_parts net_uidManager currentId net_id net_wires net_title net_comment].
  erewrite (connect_eq _ (Some _) _ (js "s") false).
  2:{ apply (lookup_tail pre _ _ 0); [lia|reflexivity]. }
  2:{ apply (lookup_tail pre _ _ 1); [rewrite length_app; cbn [length]; lia|reflexivity]. }
  cbn [withParts net_parts net_uidManager currentId net_id net_wires net_title net_comment].
  rewrite addAccess_eq.
  cbn [withParts net_parts net_uidManager currentId net_id net_wires net_title net_comment].
  rewrite <- !app_assoc. cbn [app].
  erewrite (connect_eq _ None _ (js "operand") false).
  2:{ apply (lookup_tail pre _ _ 3); [rewrite length_app; cbn [length]; lia|reflexivity]. }
  2:{ apply (lookup_tail pre _ _ 1); [rewrite length_app; cbn [length]; lia|reflexivity]. }
  cbn [withParts net_parts net_uidManager currentId net_id net_wires net_title net_comment objectId acc_id part_id freshPart].
  unfold restNetworkOf. fold n. fold pre.
  subst gate. rewrite part_id_negateAll. cbn [part_id freshPart].
  rewrite <- !app_assoc. cbn [app].
  unfold accessWire, partWire, stepAccess.
  repeat (f_equal; try lia).
Qed.

(** ** Printing of numbers *)

Lemma js_inj s t : js s = js t -> s = t.
Proof.
  unfold js. intros H.
  rewrite <- (string_of_list_ascii_of_string s), <- (string_of_list_ascii_of_string t).
  f_equal. revert H. generalize (list_ascii_of_string s) (list_ascii_of_string t).
  induction l as [|a l IH]; intros [|b l'] H; try discriminate; [reflexivity|].
  cbn [map] in H. injection H as Hab Hl. f_equal; [|by apply IH].
  rewrite <- (ascii_N_embedding a), <- (ascii_N_embedding b). by rewrite Hab.
Qed.

Lemma ofNat_inj n k : ofNat n = ofNat k -> n = k.
Proof.
  unfold ofNat. intros H. apply js_inj in H.
  assert (Hu : Nat.to_uint n = Nat.to_uint k).
  { pose proof (NilEmpty.usu (Nat.to_uint n)) as Hn.
    pose proof (NilEmpty.usu (Nat.to_uint k)) as Hk.
    rewrite H in Hn. rewrite Hn in Hk. by injection Hk. }
  rewrite <- (Unsigned.of_to n), <- (Unsigned.of_to k). by rewrite Hu.
Qed.

Lemma inPort_inj n k : inPort n = inPort k -> n = k.
Proof. unfold inPort. intros H. apply app_inv_head in H. by apply ofNat_inj. Qed.

(** ** Negated inputs of the Rest gate *)

Lemma negateAll_snoc ports port p :
  negateAll (ports ++ [port]) p = negateInput port (negateAll ports p).
Proof. unfold negateAll. by rewrite fold_left_app. Qed.

Lemma part_inputs_negateInput port p : part_inputs (negateInput port p) = part_inputs p.
Proof. unfold negateInput. by destruct (bool_decide _). Qed.

Lemma part_name_negateInput port p : part_name (negateInput port p) = part_name p.
Proof. unfold negateInput. by destruct (bool_decide _). Qed.

Lemma part_inputs_negateAll ports : forall p, part_inputs (negateAll ports p) = part_inputs p.
Proof.
  induction ports as [|port ports IH]; intros p; [reflexivity|].
  cbn [negateAll fold_left]. etransitivity; [apply IH|]. apply part_inputs_negateInput.
Qed.

Lemma part_name_negateAll ports : forall p, part_name (negateAll ports p) = part_name p.
Proof.
  induction ports as [|port ports IH]; intros p; [reflexivity|].
  cbn [negateAll fold_left]. etransitivity; [apply IH|]. apply part_name_negateInput.
Qed.

(** The first thirty inputs of an AND gate can be negated, each once. *)
Lemma negatedInputs_rest_gate id n :
  n <= 30 ->
  part_negatedInputs (negateAll (map inPort (seq 1 n)) (freshPart id A)) =
    map inPort (seq 1 n).
Proof.
  induction n as [|n IH]; intros Hn; [reflexivity|].
  rewrite seq_S, map_app. cbn [map]. rewrite negateAll_snoc.
  unfold negateInput. rewrite part_inputs_negateAll. cbn [part_inputs freshPart partInputs].
  rewrite bool_decide_eq_true_2.
  2:{ apply list_elem_of_fmap. exists n. split; [f_equal; lia|].
      apply elem_of_seq. lia. }
  cbn [part_negatedInputs]. rewrite IH by lia.
  rewrite bool_decide_eq_false_2; [reflexivity|].
  intros Hin. apply list_elem_of_fmap in Hin as (k & Hk & Hseq).
  apply inPort_inj in Hk. apply elem_of_seq in Hseq. lia.
Qed.

(** The thirty-first input is not among the ports of the gate. *)
Lemma negatedInputs_rest_gate_31 id n :
  30 <= n ->
  part_negatedInputs (negateAll (map inPort (seq 1 n)) (freshPart id A)) =
    map inPort (seq 1 30).
Proof.
  intros Hn. replace n with (30 + (n - 30)) by lia. generalize (n - 30) as k. clear.
  induction k as [|k IH]; [rewrite Nat.add_0_r; by apply negatedInputs_rest_gate|].
  replace (30 + S k) with (S (30 + k)) by lia.
  rewrite seq_S, map_app. cbn [map]. rewrite negateAll_snoc.
  unfold negateInput. rewrite part_inputs_negateAll. cbn [part_inputs freshPart partInputs].
  rewrite bool_decide_eq_false_2; [exact IH|].
  intros Hin. apply list_elem_of_fmap in Hin as (j & Hj & Hseq).
  apply inPort_inj in Hj. apply elem_of_seq in Hseq. lia.
Qed.

(** ** The networks of the sequential steps *)

Lemma buildStepNetwork_uid normal idx step u :
  snd (buildStepNetwork normal idx step u) = {| currentId := S (currentId u) |}.
Proof.
  unfold buildStepNetwork. generalize (1000 + idx * 100) as base. intros base.
  destruct (bool_decide (idx = length normal - 1)); reflexivity.
Qed.

Lemma buildStepNetwork_latch normal idx step u :
  idx <> length normal - 1 ->
  LatchNetwork (fst (buildStepNetwork normal idx step u)).
Proof.
  intros Hidx. unfold buildStepNetwork. generalize (1000 + idx * 100) as base. intros base.
  rewrite (bool_decide_eq_false_2 _ Hidx).
  exists (negateInput (js "in2") (freshPart (5 + base) A)), (freshPart (9 + base) Sr).
  split; [cbn; set_solver|]. split; [reflexivity|].
  split; [cbn; set_solver|]. split; [reflexivity|].
  exists (partWire (12 + base) (5 + base) (js "out") (9 + base) (js "s")).
  split; [cbn; set_solver|]. split; reflexivity.
Qed.

Lemma buildStepNetwork_coil normal idx step u :
  idx = length normal - 1 ->
  CoilNetwork (fst (buildStepNetwork normal idx step u)).
Proof.
  intros Hidx. unfold buildStepNetwork. generalize (1000 + idx * 100) as base. intros base.
  rewrite (bool_decide_eq_true_2 _ Hidx).
  exists (negateInput (js "in2") (freshPart (5 + base) A)), (freshPart (9 + base) Coil).
  split; [cbn; set_solver|]. split; [reflexivity|].
  split; [cbn; set_solver|]. split; [reflexivity|].
  split.
  { exists (partWire (11 + base) (5 + base) (js "out") (9 + base) (js "in")).
    split; [cbn; set_solver|]. split; reflexivity. }
  split.
  - intros w Hw. cbn in Hw.
    repeat (apply elem_of_cons in Hw as [->|Hw]); try (by vm_compute).
    by apply elem_of_nil in Hw.
  - intros p Hp. cbn in Hp.
    repeat (apply elem_of_cons in Hp as [Hp|Hp]); try discriminate Hp;
      try (injection Hp as ->; by vm_compute).
    by apply elem_of_nil in Hp.
Qed.

Lemma buildStepNetworks_spec normal todo : forall idx nets u,
  buildStepNetworks normal idx todo nets u =
    (nets ++ imap (fun i step =>
                     fst (buildStepNetwork normal (idx + i) step
                            {| currentId := currentId u + i |})) todo,
     {| currentId := currentId u + length todo |}).
Proof.
  induction todo as [|step rest IH]; intros idx nets u.
  - cbn [buildStepNetworks imap length]. rewrite app_nil_r, Nat.add_0_r. by destruct u.
  - cbn [buildStepNetworks].
    pose proof (buildStepNetwork_uid normal idx step u) as Hu.
    destruct (buildStepNetwork normal idx step u) as [network u'] eqn:E.
    cbn [snd] in Hu. subst u'. rewrite IH. cbn [imap currentId length].
    rewrite <- app_assoc. cbn [app]. rewrite !Nat.add_0_r.
    destruct u as [cur]. cbn [currentId]. rewrite E. cbn [fst].
    f_equal; [|f_equal; lia]. f_equal. f_equal.
    apply imap_ext. intros i x _. unfold compose. cbv beta. cbn [currentId].
    replace (S idx + i) with (idx + S i) by lia.
    replace (S cur + i) with (cur + S i) by lia. reflexivity.
Qed.

Lemma networks_buildDocument functionBlock steps :
  networks (buildDocument functionBlock steps) =
    match List.find isRust steps with
    | Some rustStep =>
        restNetworkOf 3 (orString (description rustStep) (js "RUST Logic"))
          (List.filter isStap steps) ::
        imap (fun i step =>
                fst (buildStepNetwork (List.filter isStap steps) i step
                       {| currentId := 4 + i |})) (List.filter isStap steps)
    | None =>
        imap (fun i step =>
                fst (buildStepNetwork (List.filter isStap steps) i step
                       {| currentId := 3 + i |})) (List.filter isStap steps)
    end.
Proof.
  unfold buildDocument, newDocument, newFunctionBlock, newMultilingualText, next.
  cbn [doc_uidManager currentId withInterface fb_networks app].
  destruct (List.find isRust steps) as [rustStep|].
  - rewrite buildRustNetwork_eq, buildStepNetworks_spec. reflexivity.
  - rewrite buildStepNetworks_spec. reflexivity.
Qed.

Lemma filter_inputWires cur from to idx n :
  List.filter (fun w => bool_decide (fst (wire_to w) = to)) (inputWires cur from to idx n) =
    inputWires cur from to idx n.
Proof.
  unfold inputWires. induction (seq 0 n) as [|k l IH]; [reflexivity|].
  cbn [map List.filter accessWire wire_to fst]. rewrite bool_decide_eq_true_2 by done.
  by rewrite IH.
Qed.

Lemma length_inputWires cur from to idx n : length (inputWires cur from to idx n) = n.
Proof. unfold inputWires. by rewrite length_map, length_seq. Qed.

(** The Rest network has the shape the generator intends, as long as
    the gate has a port for every sequential step. *)
Lemma restNetworkOf_shape networkId title normal :
  1 <= length normal <= 30 ->
  RestNetwork normal (restNetworkOf networkId title normal).
Proof.
  intros Hn. destruct normal as [|firstStep rest] eqn:En; [cbn in Hn; lia|].
  rewrite <- En in *. clear En.
  set (n := length normal) in *.
  exists (negateAll (map inPort (seq 1 n)) (freshPart (502 + n) A)),
         (freshPart (503 + 2 * n) Sr).
  assert (Hparts : net_parts (restNetworkOf networkId title normal) =
            stepAccesses 502 normal ++
            [inl (negateAll (map inPort (seq 1 n)) (freshPart (502 + n) A));
             inl (freshPart (503 + 2 * n) Sr)] ++
            match normal with
            | [] => [inr (stepAccess 505 0)]
            | firstStep :: _ =>
                [inr (stepAccess (504 + 2 * n) (number firstStep));
                 inr (stepAccess (507 + 2 * n) 0)]
            end) by reflexivity.
  split; [rewrite Hparts; set_solver|].
  split; [by rewrite part_name_negateAll|].
  split; [rewrite Hparts; set_solver|].
  split; [reflexivity|].
  split.
  { unfold incoming. rewrite part_id_negateAll. cbn [part_id freshPart].
    unfold restNetworkOf. fold n. cbn [net_wires]. rewrite List.filter_app.
    rewrite filter_inputWires, length_app, length_inputWires.
    destruct normal; [cbn in Hn; lia|].
    cbn [List.filter accessWire partWire wire_to fst].
    rewrite !bool_decide_eq_false_2 by lia. cbn [length]. lia. }
  split.
  { intros i step Hi. exists (stepAccess (502 + i) (number step)).
    split.
    { rewrite Hparts. apply elem_of_app. left. unfold stepAccesses.
      apply list_elem_of_lookup. exists i. by rewrite list_lookup_imap, Hi. }
    split; [done|].
    exists (accessWire (503 + n + i) (502 + i) (502 + n) (inPort (i + 1))).
    split; [|split; [reflexivity|]].
    - unfold restNetworkOf. fold n. cbn [net_wires]. apply elem_of_app. left.
      unfold inputWires. apply list_elem_of_fmap. exists i. split; [reflexivity|].
      apply elem_of_seq. apply lookup_lt_Some in Hi. fold n in Hi. lia.
    - by rewrite part_id_negateAll. }
  split; [apply negatedInputs_rest_gate; lia|].
  exists (partWire (506 + 2 * n) (502 + n) (js "out") (503 + 2 * n) (js "s")).
  split; [|split; [by rewrite part_id_negateAll|reflexivity]].
  unfold restNetworkOf. fold n. cbn [net_wires]. apply elem_of_app. right.
  destruct normal; [cbn in Hn; lia|]. set_solver.
Qed.

(** C1, as the code has it.  For a program with one Rest step and N
    sequential steps, 1 <= N <= 30, the document has N+1 networks: the
    Rest network, whose AND gate has one negated input per sequential
    step and sets a set/reset latch, N-1 networks of sequential steps
    that set a set/reset latch, and the network of the final step, which
    feeds a coil and has no reset wire. *)
Theorem networks_of_rest_and_sequential_steps functionBlock steps :
  length (List.filter isRust steps) = 1 ->
  1 <= length (List.filter isStap steps) <= 30 ->
  NetworksShape (List.filter isStap steps) (buildDocument functionBlock steps) /\
  length (networks (buildDocument functionBlock steps)) =
    length (List.filter isStap steps) + 1.
Proof.
  intros Hrust Hn. rewrite networks_buildDocument. unfold NetworksShape.
  rewrite networks_buildDocument.
  rewrite find_head_filter. destruct (List.filter isRust steps) as [|rustStep ?]; [done|].
  cbn [head]. set (normal := List.filter isStap steps) in *.
  split; [|cbn [length]; rewrite length_imap; lia].
  eexists _, _. split; [reflexivity|].
  split; [apply length_imap|].
  split; [by apply restNetworkOf_shape|].
  split.
  - intros i net Hi Hlt. rewrite list_lookup_imap in Hi.
    destruct (normal !! i) as [step|]; [|done]. injection Hi as <-.
    apply buildStepNetwork_latch. fold normal. lia.
  - intros net Hi. rewrite list_lookup_imap in Hi.
    destruct (normal !! (length normal - 1)) as [step|]; [|done]. injection Hi as <-.
    by apply buildStepNetwork_coil.
Qed.

Lemma elem_of_stepAccesses_inl cur l p : inl p ∉ stepAccesses cur l.
Proof.
  unfold stepAccesses. intros H. apply list_elem_of_lookup in H as [i Hi].
  rewrite list_lookup_imap in Hi. by destruct (l !! i).
Qed.

Lemma rest_network_of_document functionBlock steps rustStep restNet stepNets :
  List.find isRust steps = Some rustStep ->
  networks (buildDocument functionBlock steps) = restNet :: stepNets ->
  restNet = restNetworkOf 3 (orString (description rustStep) (js "RUST Logic"))
              (List.filter isStap steps).
Proof.
  intros Hfind Hnets. rewrite networks_buildDocument, Hfind in Hnets.
  by injection Hnets as <- _.
Qed.

(** The only AND gate of the Rest network. *)
Lemma rest_gate_unique networkId title normal gate :
  inl gate ∈ net_parts (restNetworkOf networkId title normal) ->
  part_name gate = A ->
  gate = negateAll (map inPort (seq 1 (length normal))) (freshPart (502 + length normal) A).
Proof.
  intros Hgate HA. unfold restNetworkOf in Hgate. cbn [net_parts] in Hgate.
  apply elem_of_app in Hgate as [Hgate|Hgate];
    [by apply elem_of_stepAccesses_inl in Hgate|].
  apply elem_of_app in Hgate as [Hgate|Hgate].
  - apply elem_of_cons in Hgate as [Hgate|Hgate]; [by injection Hgate|].
    apply elem_of_cons in Hgate as [Hgate|Hgate]; [|by apply elem_of_nil in Hgate].
    injection Hgate as ->. discriminate HA.
  - destruct normal;
      repeat (apply elem_of_cons in Hgate as [Hgate|Hgate]; [discriminate Hgate|]);
      by apply elem_of_nil in Hgate.
Qed.

(** C1, as stated, fails for 31 sequential steps: the AND gate has only
    the ports in1 to in30, and the input of the thirty-first step is
    wired but not negated. *)
Lemma rest_gate_input_31_not_negated :
  let steps := restStep :: sequentialSteps 31 in
  length (List.filter isRust steps) = 1 /\
  length (List.filter isStap steps) = 31 /\
  ~ NetworksShape (List.filter isStap steps) (buildDocument None steps).
Proof.
  intros steps. split; [reflexivity|].
  assert (Hlen : length (List.filter isStap steps) = 31) by reflexivity.
  split; [exact Hlen|].
  intros (restNet & stepNets & Hnets & _ & Hrest & _).
  apply (rest_network_of_document None steps restStep) in Hnets; [|reflexivity].
  subst restNet.
  destruct Hrest as (gate & latch & Hgate & HA & _ & _ & _ & _ & Hneg & _).
  apply rest_gate_unique in Hgate; [|exact HA]. subst gate.
  rewrite negatedInputs_rest_gate_31 in Hneg by lia.
  apply (f_equal length) in Hneg. rewrite !length_map, !length_seq in Hneg. lia.
Qed.

(** A Rest step and two sequential steps give three networks. *)
Lemma networks_of_rest_and_sequential_steps_witness :
  let steps := restStep :: sequentialSteps 2 in
  NetworksShape (List.filter isStap steps) (buildDocument None steps) /\
  length (networks (buildDocument None steps)) = 3.
Proof.
  intros steps.
  apply (networks_of_rest_and_sequential_steps None steps).
  - reflexivity.
  - vm_compute. lia.
Defined.

(** ** Declared identifiers *)

Lemma declaredIds_add c e : declaredIds (add c e) = declaredIds e ++ declaredIds c.
Proof.
  destruct e as [n cs a]. cbn [add declaredIds].
  rewrite flat_map_app. cbn [flat_map]. by rewrite app_nil_r, app_assoc.
Qed.

Lemma declaredIds_part p : declaredIds (part_element p) = [part_id p].
Proof.
  unfold part_element.
  set (base := match part_cardinality p with
               | Some (S _ as c) => _
               | _ => _
               end).
  assert (Hbase : declaredIds base = [part_id p]).
  { subst base. destruct (part_cardinality p) as [[|c]|], (part_name p); reflexivity. }
  clearbody base. revert base Hbase.
  induction (part_negatedInputs p) as [|port ports IH]; intros base Hbase; [done|].
  cbn [fold_left]. apply IH. rewrite declaredIds_add, Hbase. reflexivity.
Qed.

Lemma declaredIds_access a : declaredIds (access_element a) = [acc_id a].
Proof. unfold access_element. by destruct (acc_isLiteralBool a). Qed.

Lemma declaredIds_wire w : declaredIds (wire_element w) = [wire_id w].
Proof. unfold wire_element. by destruct (snd (wire_from w)) as [[|c port]|]. Qed.

Lemma declaredIds_objects parts :
  flat_map (fun o => declaredIds (object_element o)) parts = map objectId parts.
Proof.
  induction parts as [|o parts IH]; [reflexivity|]. cbn [flat_map map]. rewrite IH.
  destruct o as [p|a]; cbn [object_element objectId].
  - by rewrite declaredIds_part.
  - by rewrite declaredIds_access.
Qed.

Lemma declaredIds_wires wires :
  flat_map (fun w => declaredIds (wire_element w)) wires = map wire_id wires.
Proof.
  induction wires as [|w wires IH]; [reflexivity|]. cbn [flat_map map].
  by rewrite IH, declaredIds_wire.
Qed.

(** A text with two items declares its own identifier and takes two
    more from the manager when it is serialized. *)
Lemma mt_element_two u id name lang1 text1 lang2 text2 :
  let t := {| mt_texts := [(lang1, text1); (lang2, text2)]; mt_id := id;
              mt_compositionName := name |} in
  declaredIds (fst (mt_element u t)) = [id; currentId u; S (currentId u)] /\
  snd (mt_element u t) = {| currentId := S (S (currentId u)) |}.
Proof. destruct u as [cur]. split; reflexivity. Qed.

(** ** The allocation invariant *)

Lemma allocated_new u title baseUid :
  Allocated baseUid (fst (newNetwork u title baseUid)).
Proof.
  unfold Allocated, newNetwork, ownIds. cbn.
  replace (S (S baseUid) - baseUid) with 2 by lia.
  split; [reflexivity|]. split; [lia|]. done.
Qed.

Lemma allocated_push baseUid net o :
  objectId o = currentId (net_uidManager net) ->
  Allocated baseUid net ->
  Allocated baseUid
    (withParts net {| currentId := S (currentId (net_uidManager net)) |}
       (net_parts net ++ [o])).
Proof.
  intros Ho (Hperm & Hle & Ht & Hc). unfold Allocated, ownIds in *.
  cbn [withParts net_parts net_uidManager net_title net_comment net_wires currentId].
  split; [|split; [lia|done]].
  replace (S (currentId (net_uidManager net)) - baseUid)
    with (S (currentId (net_uidManager net) - baseUid)) by lia.
  rewrite seq_S, <- Hperm, map_app. cbn [map]. rewrite Ho.
  replace (baseUid + (currentId (net_uidManager net) - baseUid))
    with (currentId (net_uidManager net)) by lia.
  rewrite !app_comm_cons. rewrite <- !app_assoc.
  apply Permutation_app_head. apply Permutation_app_comm.
Qed.

Lemma allocated_addAccess baseUid variable index net :
  Allocated baseUid net -> Allocated baseUid (fst (addAccess variable index net)).
Proof. intros H. rewrite addAccess_eq. by apply allocated_push. Qed.

Lemma allocated_addPart baseUid name net :
  Allocated baseUid net -> Allocated baseUid (fst (addPart name net)).
Proof. intros H. rewrite addPart_eq. by apply allocated_push. Qed.

Lemma allocated_addLiteralBool baseUid value net :
  Allocated baseUid net -> Allocated baseUid (fst (addLiteralBool value net)).
Proof. intros H. by apply allocated_push. Qed.

Lemma objectId_negateAt to port parts :
  map objectId (negateAt to port parts) = map objectId parts.
Proof.
  unfold negateAt. revert to. induction parts as [|o parts IH]; intros [|to]; try reflexivity.
  - cbn. f_equal. destruct o; [apply part_id_negateInput|reflexivity].
  - cbn. f_equal. apply IH.
Qed.

Lemma allocated_connect baseUid from fromPort to toPort negated net :
  Allocated baseUid net ->
  Allocated baseUid (connect from fromPort to toPort negated net).
Proof.
  intros H. unfold connect.
  destruct (net_parts net !! from) as [f|]; [|exact H].
  destruct (net_parts net !! to) as [t|]; [|exact H].
  destruct H as (Hperm & Hle & Ht & Hc). unfold Allocated, ownIds in *.
  cbn [newWire next fst snd net_parts net_uidManager net_title net_comment net_wires currentId].
  split; [|split; [lia|done]].
  replace (S (currentId (net_uidManager net)) - baseUid)
    with (S (currentId (net_uidManager net) - baseUid)) by lia.
  rewrite seq_S, <- Hperm, map_app. cbn [map wire_id].
  replace (baseUid + (currentId (net_uidManager net) - baseUid))
    with (currentId (net_uidManager net)) by lia.
  assert (Hparts : map objectId (if negated then negateAt to toPort (net_parts net)
                                 else net_parts net) = map objectId (net_parts net)).
  { destruct negated; [apply objectId_negateAt|reflexivity]. }
  rewrite Hparts, !app_comm_cons, !app_assoc. reflexivity.
Qed.

Lemma currentId_connect from fromPort to toPort negated net :
  currentId (net_uidManager (connect from fromPort to toPort negated net)) <=
    S (currentId (net_uidManager net)).
Proof.
  unfold connect. destruct (net_parts net !! from); [|lia].
  destruct (net_parts net !! to); cbn; lia.
Qed.

Lemma addLiteralBool_eq value net :
  addLiteralBool value net =
    (withParts net {| currentId := S (currentId (net_uidManager net)) |}
       (net_parts net ++
        [inr {| acc_id := currentId (net_uidManager net); acc_variable := [];
                acc_index := None; acc_isLiteralBool := true;
                acc_literalValue := value |}]),
     length (net_parts net)).
Proof. reflexivity. Qed.

Lemma allocated_addAccesses baseUid stepsToReset : forall net,
  Allocated baseUid net -> Allocated baseUid (fst (addAccesses stepsToReset net)).
Proof.
  induction stepsToReset as [|step rest IH]; intros net H; [exact H|].
  cbn [addAccesses].
  pose proof (allocated_addAccess baseUid (js "Stap") (number step) net H) as H1.
  destruct (addAccess (js "Stap") (number step) net) as [net1 access]. cbn [fst] in H1.
  specialize (IH net1 H1). destruct (addAccesses rest net1) as [net2 accesses].
  exact IH.
Qed.

Lemma allocated_connectInputs baseUid gate stepAccesses : forall idx net,
  Allocated baseUid net -> Allocated baseUid (connectInputs gate idx stepAccesses net).
Proof.
  induction stepAccesses as [|access rest IH]; intros idx net H; [exact H|].
  cbn [connectInputs]. apply IH. by apply allocated_connect.
Qed.

(** Every identifier of the Rest network comes from its own manager,
    once. *)
Lemma allocated_rest rustStep steps u :
  Allocated 500 (fst (buildRustNetwork rustStep steps u)).
Proof.
  unfold buildRustNetwork.
  pose proof (allocated_new u (orString (description rustStep) (js "RUST Logic")) 500) as H0.
  destruct (newNetwork u _ 500) as [net0 u0]. cbn [fst] in H0.
  apply (allocated_addAccesses 500 (List.filter isStap steps)) in H0.
  destruct (addAccesses (List.filter isStap steps) net0) as [net1 accesses]. cbn [fst] in H0.
  apply (allocated_addPart 500 A) in H0.
  destruct (addPart A net1) as [net2 gate]. cbn [fst] in H0.
  apply (allocated_connectInputs 500 gate accesses 0) in H0.
  apply (allocated_addPart 500 Sr) in H0.
  destruct (addPart Sr _) as [net3 latch]. cbn [fst] in H0.
  assert (H1 : Allocated 500
            match List.find isStap steps with
            | Some firstStep =>
                let '(rustNetwork, step1Access) :=
                  addAccess (js "Stap") (number firstStep) net3 in
                connect step1Access None latch (js "r1") false rustNetwork
            | None => net3
            end).
  { destruct (List.find isStap steps) as [firstStep|]; [|exact H0].
    apply (allocated_addAccess 500 (js "Stap") (number firstStep)) in H0.
    destruct (addAccess (js "Stap") (number firstStep) net3) as [net4 access].
    by apply allocated_connect. }
  apply (allocated_connect 500 gate (Some (js "out")) latch (js "s") false) in H1.
  apply (allocated_addAccess 500 (js "Stap") 0) in H1.
  destruct (addAccess (js "Stap") 0 _) as [net5 operand]. cbn [fst] in *.
  by apply allocated_connect.
Qed.

(** One step along the construction of a network: the invariant [H] of
    the network built so far is carried over the next operation. *)
Ltac allocate H :=
  match type of H with
  | Allocated ?b ?net =>
      match goal with
      | |- context [addAccess ?v ?i net] =>
          apply (allocated_addAccess b v i) in H;
          destruct (addAccess v i net) as [? ?]; cbn [fst] in H
      | |- context [addPart ?n net] =>
          apply (allocated_addPart b n) in H;
          destruct (addPart n net) as [? ?]; cbn [fst] in H
      | |- context [addLiteralBool ?x net] =>
          apply (allocated_addLiteralBool b x) in H;
          destruct (addLiteralBool x net) as [? ?]; cbn [fst] in H
      | |- context [connect ?f ?fp ?t ?tp ?ng net] =>
          apply (allocated_connect b f fp t tp ng) in H;
          generalize dependent (connect f fp t tp ng net); intros ? H
      end
  end.

(** The same for the network of a sequential step. *)
Lemma allocated_step normal idx step u :
  Allocated (1000 + idx * 100) (fst (buildStepNetwork normal idx step u)).
Proof.
  unfold buildStepNetwork. generalize (1000 + idx * 100) as base. intros base.
  set (title := js "STAP " ++ _).
  pose proof (allocated_new u title base) as H0.
  destruct (newNetwork u title base) as [net0 u0]. cbn [fst] in H0.
  do 7 allocate H0.
  destruct (bool_decide (idx = length normal - 1)); repeat allocate H0; exact H0.
Qed.

(** ** Identifiers of a network *)

Lemma net_identifiers_eq net :
  length (mt_texts (net_title net)) = 2 ->
  length (mt_texts (net_comment net)) = 2 ->
  net_identifiers net =
    net_id net :: map objectId (net_parts net) ++ map wire_id (net_wires net) ++
    [mt_id (net_comment net); currentId (net_uidManager net);
     S (currentId (net_uidManager net))] ++
    [mt_id (net_title net); S (S (currentId (net_uidManager net)));
     S (S (S (currentId (net_uidManager net))))].
Proof.
  intros Ht Hc. unfold net_identifiers.
  destruct (net_comment net) as [[|[l1 t1] [|[l2 t2] [|]]] cid cname]; try discriminate Hc.
  destruct (net_title net) as [[|[l3 t3] [|[l4 t4] [|]]] tid tname]; try discriminate Ht.
  destruct (mt_element_two (net_uidManager net) cid cname l1 t1 l2 t2) as [Hc1 Hc2].
  destruct (mt_element _ {| mt_texts := [(l1, t1); (l2, t2)] |}) as [commentEl u].
  cbn [fst snd] in Hc1, Hc2. subst u.
  destruct (mt_element_two {| currentId := S (S (currentId (net_uidManager net))) |}
              tid tname l3 t3 l4 t4) as [Ht1 _].
  destruct (mt_element _ {| mt_texts := [(l3, t3); (l4, t4)] |}) as [titleEl u].
  cbn [fst] in Ht1. rewrite Hc1, Ht1, declaredIds_objects, declaredIds_wires.
  reflexivity.
Qed.

(** The identifiers of a network are its own, from the document, and
    those its manager has given out, four more than at the end of the
    construction. *)
Lemma net_identifiers_allocated baseUid net :
  Allocated baseUid net ->
  net_identifiers net ≡ₚ
    net_id net :: seq baseUid (currentId (net_uidManager net) - baseUid + 4).
Proof.
  intros (Hperm & Hle & Ht & Hc). rewrite net_identifiers_eq by done.
  apply Permutation_cons; [reflexivity|].
  rewrite seq_app, <- Hperm. unfold ownIds.
  replace (baseUid + (currentId (net_uidManager net) - baseUid))
    with (currentId (net_uidManager net)) by lia.
  cbn [seq].
  set (cur := currentId (net_uidManager net)).
  set (tid := mt_id (net_title net)). set (cid := mt_id (net_comment net)).
  rewrite app_assoc.
  generalize (map objectId (net_parts net) ++ map wire_id (net_wires net)) as l.
  intros l. cbn [app].
  transitivity (cid :: l ++ [cur; S cur; tid; S (S cur); S (S (S cur))]).
  { symmetry. apply Permutation_middle. }
  transitivity (cid :: tid :: l ++ [cur; S cur; S (S cur); S (S (S cur))]).
  { apply perm_skip.
    change (l ++ [cur; S cur; tid; S (S cur); S (S (S cur))])
      with (l ++ [cur; S cur] ++ tid :: [S (S cur); S (S (S cur))]).
    rewrite app_assoc. rewrite <- Permutation_middle. rewrite <- app_assoc. reflexivity. }
  apply perm_swap.
Qed.

(** ** Ranges of the identifiers *)

Lemma buildStepNetwork_counter normal idx step u :
  net_id (fst (buildStepNetwork normal idx step u)) = currentId u /\
  currentId (net_uidManager (fst (buildStepNetwork normal idx step u))) <=
    1000 + idx * 100 + 15.
Proof.
  unfold buildStepNetwork. generalize (1000 + idx * 100) as base. intros base.
  destruct (bool_decide (idx = length normal - 1)); split; try reflexivity; cbn; lia.
Qed.

(** The identifiers of the network of step [idx]: its own one, from the
    document, and at most 19 from the band that starts at
    [1000 + 100 * idx]. *)
Lemma step_identifiers normal idx step u :
  exists len,
    len <= 19 /\
    net_identifiers (fst (buildStepNetwork normal idx step u)) ≡ₚ
      currentId u :: seq (1000 + idx * 100) len.
Proof.
  pose proof (allocated_step normal idx step u) as Halloc.
  pose proof (buildStepNetwork_counter normal idx step u) as [Hid Hcur].
  pose proof Halloc as (_ & Hle & _).
  eexists. split; [|rewrite (net_identifiers_allocated _ _ Halloc), Hid; reflexivity].
  lia.
Qed.

Lemma rest_identifiers rustStep steps u :
  exists len,
    len <= 13 + 2 * length (List.filter isStap steps) /\
    net_identifiers (fst (buildRustNetwork rustStep steps u)) ≡ₚ
      currentId u :: seq 500 len.
Proof.
  pose proof (allocated_rest rustStep steps u) as Halloc.
  pose proof Halloc as (_ & Hle & _).
  eexists. split;
    [|rewrite (net_identifiers_allocated _ _ Halloc), buildRustNetwork_eq; reflexivity].
  cbn [fst restNetworkOf net_uidManager currentId].
  destruct (List.filter isStap steps); cbn [length]; lia.
Qed.

(** The networks of the sequential steps from index [idx] on, when the
    document counter stands at [c]: no identifier twice, each one either
    taken from the document (from [c] on) or from a band at or above
    [1000 + 100 * idx]. *)
Lemma step_networks_identifiers normal todo : forall idx c,
  c + length todo <= 1000 + idx * 100 ->
  let ids := flat_map net_identifiers
               (imap (fun i step =>
                        fst (buildStepNetwork normal (idx + i) step
                               {| currentId := c + i |})) todo) in
  NoDup ids /\
  forall x, x ∈ ids -> c <= x < c + length todo \/ 1000 + idx * 100 <= x.
Proof.
  induction todo as [|step rest IH]; intros idx c Hc ids.
  { split; [constructor|]. intros x Hx. by apply elem_of_nil in Hx. }
  subst ids. cbn [imap flat_map length] in *.
  destruct (step_identifiers normal (idx + 0) step {| currentId := c + 0 |})
    as (len & Hlen & Hperm).
  rewrite !Nat.add_0_r in *. cbn [currentId] in Hperm.
  specialize (IH (S idx) (S c) ltac:(lia)). cbn zeta in IH.
  assert (Hext : imap ((fun i step => fst (buildStepNetwork normal (idx + i) step
                                             {| currentId := c + i |})) ∘ S) rest =
                 imap (fun i step => fst (buildStepNetwork normal (S idx + i) step
                                            {| currentId := S c + i |})) rest).
  { apply imap_ext. intros i x _. unfold compose.
    replace (idx + S i) with (S idx + i) by lia.
    by replace (c + S i) with (S c + i) by lia. }
  rewrite Hext. destruct IH as [IHnd IHin].
  set (restIds := flat_map net_identifiers _) in *. clearbody restIds.
  split.
  - apply NoDup_app. split; [|split; [|exact IHnd]].
    + rewrite Hperm. apply NoDup_cons. split; [|apply NoDup_seq].
      rewrite elem_of_seq. lia.
    + intros x Hx Hx'. rewrite Hperm in Hx. apply IHin in Hx'.
      apply elem_of_cons in Hx as [->|Hx]; [lia|]. apply elem_of_seq in Hx. lia.
  - intros x Hx. apply elem_of_app in Hx as [Hx|Hx].
    + rewrite Hperm in Hx. apply elem_of_cons in Hx as [->|Hx]; [lia|].
      apply elem_of_seq in Hx. lia.
    + apply IHin in Hx. lia.
Qed.

(** ** Identifiers of the document *)

Lemma doc_identifiers_buildDocument functionBlock steps :
  doc_identifiers (buildDocument functionBlock steps) =
    0 :: [1; 3 + length (networks (buildDocument functionBlock steps));
          S (3 + length (networks (buildDocument functionBlock steps)))] ++
    flat_map net_identifiers (networks (buildDocument functionBlock steps)) ++
    [2; S (S (3 + length (networks (buildDocument functionBlock steps))));
     S (S (S (3 + length (networks (buildDocument functionBlock steps)))))].
Proof.
  rewrite networks_buildDocument.
  unfold buildDocument, newDocument, newFunctionBlock, newMultilingualText, next.
  cbn [doc_uidManager currentId withInterface fb_networks app].
  destruct (List.find isRust steps) as [rustStep|].
  - rewrite buildRustNetwork_eq, buildStepNetworks_spec.
    cbn [length]. rewrite length_imap. cbn [currentId]. reflexivity.
  - rewrite buildStepNetworks_spec. rewrite length_imap. reflexivity.
Qed.

(** Case analysis on a membership in a list written with [::] and [++]. *)
Ltac split_in H :=
  lazymatch type of H with
  | _ ∈ (_ :: _) => apply elem_of_cons in H as [H|H]; [|split_in H]
  | _ ∈ [] => apply elem_of_nil in H; destruct H
  | _ ∈ (_ ++ _) => apply elem_of_app in H as [H|H]; [split_in H|split_in H]
  | _ => idtac
  end.

(** C4, as the code has it.  For a program with at most 243 sequential
    steps, no identifier is declared twice in the document: those taken
    from the counter of the document stay below 500, those of the Rest
    network lie in the band from 500 to 999 and those of the network of
    the i-th sequential step in the band that starts at 1000 + 100 * i. *)
Theorem identifiers_unique_up_to_243_steps functionBlock steps :
  length (List.filter isStap steps) <= 243 ->
  UniqueIdentifiers (buildDocument functionBlock steps).
Proof.
  intros Hn. unfold UniqueIdentifiers. rewrite doc_identifiers_buildDocument.
  rewrite networks_buildDocument.
  set (normal := List.filter isStap steps) in *. set (n := length normal) in *.
  destruct (List.find isRust steps) as [rustStep|].
  - cbn [length flat_map]. rewrite length_imap. fold n.
    destruct (rest_identifiers rustStep steps {| currentId := 3 |}) as (len & Hlen & Hperm).
    rewrite buildRustNetwork_eq in Hperm. cbn [fst currentId] in Hperm.
    fold normal n in Hlen, Hperm.
    destruct (step_networks_identifiers normal normal 0 4 ltac:(fold n; lia)) as [Hnd Hin].
    cbn zeta in Hnd, Hin. fold n in Hin.
    set (stepIds := flat_map net_identifiers _) in *. clearbody stepIds.
    set (restIds := net_identifiers _) in *. clearbody restIds.
    assert (Hrest : forall x, x ∈ restIds -> x = 3 \/ 500 <= x < 1000).
    { intros x Hx. rewrite Hperm in Hx. apply elem_of_cons in Hx as [->|Hx]; [by left|].
      apply elem_of_seq in Hx. lia. }
    assert (Hrnd : NoDup restIds).
    { rewrite Hperm. apply NoDup_cons. split; [|apply NoDup_seq]. rewrite elem_of_seq. lia. }
    cbn [app].
    do 4 (apply NoDup_cons_2;
          [intros Hx; split_in Hx;
           first [lia | apply Hrest in Hx; lia | apply Hin in Hx; lia]|]).
    rewrite <- app_assoc. apply NoDup_app. split; [exact Hrnd|]. split.
    + intros x Hx Hx'. apply Hrest in Hx. split_in Hx';
        first [lia | apply Hin in Hx'; lia].
    + apply NoDup_app. split; [exact Hnd|]. split.
      * intros x Hx Hx'. apply Hin in Hx. split_in Hx'; lia.
      * do 3 (apply NoDup_cons_2; [intros Hx; split_in Hx; lia|]). constructor.
  - rewrite length_imap. fold n.
    destruct (step_networks_identifiers normal normal 0 3 ltac:(fold n; lia)) as [Hnd Hin].
    cbn zeta in Hnd, Hin. fold n in Hin.
    set (stepIds := flat_map net_identifiers _) in *. clearbody stepIds.
    cbn [app].
    do 4 (apply NoDup_cons_2;
          [intros Hx; split_in Hx; first [lia | apply Hin in Hx; lia]|]).
    apply NoDup_app. split; [exact Hnd|]. split.
    + intros x Hx Hx'. apply Hin in Hx. split_in Hx'; lia.
    + do 3 (apply NoDup_cons_2; [intros Hx; split_in Hx; lia|]). constructor.
Qed.

(** With a Rest step and 244 sequential steps or more, the identifiers
    of the Rest network run into the band of the first sequential step:
    the identifier 1000 is declared in both networks. *)
Lemma identifiers_clash_from_244_steps functionBlock steps rustStep :
  List.find isRust steps = Some rustStep ->
  244 <= length (List.filter isStap steps) ->
  ~ UniqueIdentifiers (buildDocument functionBlock steps).
Proof.
  intros Hfind Hn. unfold UniqueIdentifiers. rewrite doc_identifiers_buildDocument.
  rewrite networks_buildDocument, Hfind.
  set (normal := List.filter isStap steps) in *.
  cbn [flat_map app]. intros Hnd.
  do 4 (apply NoDup_cons in Hnd as [_ Hnd]).
  apply NoDup_app in Hnd as (Hnd & _ & _).
  apply NoDup_app in Hnd as (_ & Hdisjoint & _).
  apply (Hdisjoint 1000).
  - pose proof (allocated_rest rustStep steps {| currentId := 3 |}) as Halloc.
    pose proof (net_identifiers_allocated _ _ Halloc) as Hperm.
    rewrite buildRustNetwork_eq in Hperm. cbn [fst] in Hperm. fold normal in Hperm.
    rewrite Hperm. apply elem_of_cons. right. apply elem_of_seq.
    cbn [restNetworkOf net_uidManager currentId].
    destruct normal; cbn [length] in *; lia.
  - destruct normal as [|step rest]; [cbn [length] in Hn; lia|].
    cbn [imap flat_map]. apply elem_of_app. left.
    pose proof (allocated_step (step :: rest) (0 + 0) step {| currentId := 4 + 0 |}) as Halloc.
    pose proof Halloc as (_ & Hle & _).
    rewrite (net_identifiers_allocated _ _ Halloc).
    apply elem_of_cons. right. apply elem_of_seq. lia.
Qed.

(** C4, as stated, fails for a Rest step and 244 sequential steps. *)
Lemma identifier_1000_declared_twice :
  ~ UniqueIdentifiers (buildDocument None (restStep :: sequentialSteps 244)).
Proof.
  apply (identifiers_clash_from_244_steps None _ restStep); [reflexivity|].
  vm_compute. lia.
Qed.

(** A Rest step and two sequential steps: nine identifiers from the
    document, the others from the three bands. *)
Lemma identifiers_unique_up_to_243_steps_witness :
  UniqueIdentifiers (buildDocument None (restStep :: sequentialSteps 2)).
Proof.
  apply identifiers_unique_up_to_243_steps. vm_compute. lia.
Defined.

End GeneratorFacts.

(* ===================================================================== *)
(** * The cache of compiled patterns *)
(* ===================================================================== *)

Module RegexCacheFacts.
Import JsString RegExp RegexCache.

Lemma startsWith_single (s : jsstring) (c : N) :
  startsWith s [c] = true -> c ∈ s.
Proof.
  destruct s as [|d s]; cbn; [discriminate|].
  intros [->%N.eqb_eq _]%andb_true_iff. left.
Qed.

Lemma includes_single (s : jsstring) (c : N) :
  includes s [c] = true -> c ∈ s.
Proof.
  induction s as [|d s IH]; cbn [includes].
  - rewrite orb_false_r. apply startsWith_single.
  - intros [H|H]%orb_true_iff.
    + now apply startsWith_single.
    + right. now apply IH.
Qed.

Lemma stateless_not_elem (fl : jsstring) (c : N) :
  statelessFlags fl = true -> c ∉ js "dimsuv" -> c ∉ fl.
Proof.
  unfold statelessFlags. rewrite forallb_forall. intros Hall Hc Hin.
  apply Hc. apply list_elem_of_In in Hin.
  specialize (Hall _ Hin). now apply bool_decide_eq_true_1 in Hall.
Qed.

Lemma parseFlags_stateless (fl : jsstring) (f : flags) :
  statelessFlags fl = true -> parseFlags fl = Some f ->
  global f = false /\ sticky f = false.
Proof.
  intros Hfl. unfold parseFlags.
  destruct (_ && _ && _); [|discriminate]. intros [= <-]. cbn.
  split; apply not_true_is_false; intros Hin%includes_single;
    revert Hin; apply stateless_not_elem; try assumption;
    compute_done.
Qed.

(** An object that is neither global nor sticky is not changed by a
    match. *)
Lemma regExpExec_stateless (o : RegExpObject) (s : jsstring) :
  global (reFlags o) = false -> sticky (reFlags o) = false ->
  snd (regExpExec o s) = o.
Proof.
  intros Hg Hy. unfold regExpExec. rewrite Hg, Hy. cbn.
  destruct (search _ _ _ _ _); reflexivity.
Qed.

Lemma perform_stateless (u : use) (o : RegExpObject) :
  global (reFlags o) = false -> sticky (reFlags o) = false ->
  snd (perform u o) = o.
Proof.
  intros Hg Hy. pose proof (regExpExec_stateless o) as Hexec.
  destruct u as [text|text|text|text replacement]; cbn [perform].
  - specialize (Hexec text Hg Hy). destruct (regExpExec o text). exact Hexec.
  - specialize (Hexec text Hg Hy). destruct (regExpExec o text). exact Hexec.
  - rewrite Hg. specialize (Hexec text Hg Hy). destruct (regExpExec o text). exact Hexec.
  - unfold results. rewrite Hg. rewrite Nat.add_comm. cbn [Nat.add collect].
    specialize (Hexec text Hg Hy).
    destruct (regExpExec o text) as [[mr|] o']; cbn in Hexec; subst o'.
    + rewrite Hg. reflexivity.
    + reflexivity.
Qed.

(** Keys: the flags follow the last colon. *)
Lemma app_colon_inj (l1 l2 r1 r2 : jsstring) (c : N) :
  c ∉ l1 -> c ∉ l2 -> l1 ++ c :: r1 = l2 ++ c :: r2 -> l1 = l2 /\ r1 = r2.
Proof.
  revert l2. induction l1 as [|a l1 IH]; intros [|b l2] H1 H2 Heq; cbn in Heq.
  - now injection Heq as ->.
  - injection Heq as -> _. exfalso. apply H2. left.
  - injection Heq as -> _. exfalso. apply H1. left.
  - injection Heq as -> Heq.
    destruct (IH l2) as [-> ->]; try assumption; [set_solver|set_solver|done].
Qed.

Lemma cacheKey_inj (p1 f1 p2 f2 : jsstring) :
  statelessFlags f1 = true -> statelessFlags f2 = true ->
  cacheKey p1 f1 = cacheKey p2 f2 -> p1 = p2 /\ f1 = f2.
Proof.
  intros H1 H2 Heq. apply (f_equal (@rev N)) in Heq.
  unfold cacheKey in Heq. rewrite !rev_app_distr in Heq.
  change (rev (js ":::")) with ([58; 58; 58]%N) in Heq.
  cbn [app] in Heq. rewrite <- !app_assoc in Heq. cbn [app] in Heq.
  assert (Hc : forall fl, statelessFlags fl = true -> 58%N ∉ rev fl).
  { intros fl Hfl Hin. apply list_elem_of_In, in_rev, list_elem_of_In in Hin.
    revert Hin. apply stateless_not_elem; [assumption|]. compute_done. }
  apply app_colon_inj in Heq as [Hf Hp]; [|now apply Hc..].
  injection Hp as Hp. split.
  - now apply (f_equal (@rev N)) in Hp; rewrite !rev_involutive in Hp.
  - now apply (f_equal (@rev N)) in Hf; rewrite !rev_involutive in Hf.
Qed.

(** The map operations. *)
Lemma mapGet_Some (k : jsstring) (v : nat) (mp : jsMap) :
  mapGet k mp = Some v -> (k, v) ∈ mp.
Proof.
  unfold mapGet. induction mp as [|[k' v'] mp IH]; cbn; [discriminate|].
  unfold eqb. cbn. case_bool_decide as Hk.
  - cbn. intros [= <-]. subst k'. left.
  - intros H. right. now apply IH.
Qed.

Lemma elem_of_mapDelete (k : jsstring) (e : jsstring * nat) (mp : jsMap) :
  e ∈ mapDelete k mp -> e ∈ mp.
Proof. unfold mapDelete, jsMap. rewrite list_elem_of_filter. tauto. Qed.

Lemma elem_of_mapSet (k : jsstring) (v : nat) (e : jsstring * nat) (mp : jsMap) :
  e ∈ mapSet k v mp -> e = (k, v) \/ e ∈ mp.
Proof.
  unfold mapSet. destruct (mapHas k mp).
  - rewrite list_elem_of_fmap. intros (e' & -> & Hin).
    destruct (eqb e'.1 k); [now left|now right].
  - rewrite elem_of_app, list_elem_of_singleton. tauto.
Qed.

Lemma length_mapDelete (k : jsstring) (mp : jsMap) :
  length (mapDelete k mp) <= length mp.
Proof. apply length_filter. Qed.

Lemma length_mapDelete_elem (k : jsstring) (v : nat) (mp : jsMap) :
  (k, v) ∈ mp -> length (mapDelete k mp) < length mp.
Proof.
  unfold mapDelete, jsMap. induction mp as [|e mp IH]; [now intros ?%elem_of_nil|].
  intros [<-|Hin]%elem_of_cons.
  - rewrite filter_cons. destruct (decide _) as [Hk|_]; [now cbn in Hk|].
    cbn. pose proof (length_filter (fun e : jsstring * nat => e.1 <> k) mp). lia.
  - specialize (IH Hin). rewrite filter_cons. destruct (decide _); cbn; lia.
Qed.

Lemma length_mapSet (k : jsstring) (v : nat) (mp : jsMap) :
  length (mapSet k v mp) <= S (length mp).
Proof.
  unfold mapSet. destruct (mapHas k mp).
  - rewrite length_map. lia.
  - rewrite length_app. cbn. lia.
Qed.

Section Transparency.
Variable parsePattern : jsstring -> jsstring -> option regex.

Lemma newRegExp_stateless (p fl : jsstring) (o : RegExpObject) :
  statelessFlags fl = true -> newRegExp parsePattern p fl = Some o ->
  global (reFlags o) = false /\ sticky (reFlags o) = false.
Proof.
  intros Hfl. unfold RegexCache.newRegExp.
  destruct (parseFlags fl) as [f|] eqn:Hf; [|discriminate].
  destruct (parsePattern p fl); [|discriminate]. intros [= <-]. cbn.
  now apply (parseFlags_stateless fl).
Qed.

Lemma getRegex_faithful (p fl : jsstring) (c : RegexCache) :
  statelessFlags fl = true -> Faithful parsePattern c ->
  match getRegex parsePattern p fl c with
  | (None, c') => newRegExp parsePattern p fl = None /\ c' = c
  | (Some regex, c') =>
      Faithful parsePattern c' /\
      exists o, newRegExp parsePattern p fl = Some o /\ objects c' !! regex = Some o
  end.
Proof.
  intros Hfl Hc. unfold RegexCache.getRegex.
  destruct (mapGet _ _) as [regex|] eqn:Hget.
  - apply mapGet_Some in Hget.
    destruct (Hc _ _ Hget) as (p' & fl' & o & Hkey & Hfl' & Hnew & Hobj).
    apply cacheKey_inj in Hkey as [-> ->]; [|assumption..].
    split; [|now exists o].
    intros key r [[= -> ->]|Hin%elem_of_mapDelete]%elem_of_mapSet.
    + now exists p', fl', o.
    + now apply Hc.
  - destruct (newRegExp parsePattern p fl) as [o|] eqn:Hnew; [|done].
    split.
    + intros key r [[= -> ->]|Hin]%elem_of_mapSet; cbn [objects].
      * exists p, fl, o. repeat split; try assumption.
        now rewrite lookup_app_r, Nat.sub_diag.
      * assert (Hin' : (key, r) ∈ cache c).
        { destruct (_ <=? _)%Z; [|assumption].
          destruct (cache c) as [|[firstKey v] mp]; [assumption|].
          now apply elem_of_mapDelete in Hin. }
        destruct (Hc _ _ Hin') as (p' & fl' & o' & ? & ? & ? & Hobj).
        exists p', fl', o'. repeat split; try assumption.
        now apply lookup_app_l_Some.
    + exists o. split; [reflexivity|]. cbn [objects].
      now rewrite lookup_app_r, Nat.sub_diag.
Qed.

Lemma callCached_faithful (cl : call) (c : RegexCache) :
  statelessFlags (flagsText cl) = true -> Faithful parsePattern c ->
  fst (callCached parsePattern cl c) = callFresh parsePattern cl /\
  Faithful parsePattern (snd (callCached parsePattern cl c)).
Proof.
  intros Hfl Hc. unfold RegexCache.callCached, callFresh.
  pose proof (getRegex_faithful (pattern cl) (flagsText cl) c Hfl Hc) as Hget.
  destruct (getRegex parsePattern _ _ c) as [[regex|] c'].
  - destruct Hget as (Hc' & o & Hnew & Hobj). rewrite Hnew, Hobj.
    destruct (newRegExp_stateless _ _ _ Hfl Hnew) as [Hg Hy].
    pose proof (perform_stateless (usage cl) o Hg Hy) as Hsame.
    destruct (perform (usage cl) o) as [out o']. cbn in Hsame. subst o'.
    cbn [fst snd]. split; [reflexivity|].
    rewrite list_insert_id by assumption. now destruct c'.
  - destruct Hget as [-> ->]. now split.
Qed.

Lemma runCached_faithful (cls : list call) (c : RegexCache) :
  Forall (fun cl => statelessFlags (flagsText cl) = true) cls -> Faithful parsePattern c ->
  fst (runCached parsePattern cls c) = runFresh parsePattern cls.
Proof.
  intros Hcls. revert c. induction Hcls as [|cl cls Hcl _ IH]; intros c Hc; [reflexivity|].
  cbn [RegexCache.runCached RegexCache.runFresh map].
  destruct (callCached_faithful cl c Hcl Hc) as [Hout Hc'].
  destruct (callCached parsePattern cl c) as [out c']. cbn [fst snd] in *.
  specialize (IH c' Hc'). destruct (runCached parsePattern cls c') as [outs c''].
  cbn [fst] in *. now rewrite Hout, IH.
Qed.

(** The bound. *)
Lemma getRegex_size (p fl : jsstring) (c : RegexCache) :
  (1 <= maxSize c)%Z -> (Z.of_nat (size c) <= maxSize c)%Z ->
  maxSize (snd (getRegex parsePattern p fl c)) = maxSize c /\
  (Z.of_nat (size (snd (getRegex parsePattern p fl c))) <= maxSize c)%Z.
Proof.
  intros Hmax Hsize. unfold RegexCache.getRegex.
  destruct (mapGet _ _) as [regex|] eqn:Hget.
  - cbn. split; [reflexivity|]. unfold size in *. cbn.
    apply mapGet_Some, length_mapDelete_elem in Hget.
    pose proof (length_mapSet (cacheKey p fl) regex (mapDelete (cacheKey p fl) (cache c))).
    lia.
  - destruct (newRegExp parsePattern p fl) as [o|]; [|now split].
    cbn. split; [reflexivity|]. unfold size in *. cbn.
    match goal with |- context [mapSet ?k ?v ?mp] =>
      pose proof (length_mapSet k v mp) as Hset end.
    destruct (Z.leb_spec (maxSize c) (Z.of_nat (length (cache c)))) as [Hfull|Hroom].
    + destruct (cache c) as [|[firstKey v] mp] eqn:Hcache; [cbn in *; lia|].
      assert (Hlt : length (mapDelete firstKey ((firstKey, v) :: mp)) < length ((firstKey, v) :: mp))
        by (apply (length_mapDelete_elem _ v); left).
      lia.
    + lia.
Qed.

Lemma callCached_size (cl : call) (c : RegexCache) :
  (1 <= maxSize c)%Z -> (Z.of_nat (size c) <= maxSize c)%Z ->
  maxSize (snd (callCached parsePattern cl c)) = maxSize c /\
  (Z.of_nat (size (snd (callCached parsePattern cl c))) <= maxSize c)%Z.
Proof.
  intros Hmax Hsize. unfold RegexCache.callCached.
  pose proof (getRegex_size (pattern cl) (flagsText cl) c Hmax Hsize) as Hget.
  destruct (getRegex parsePattern _ _ c) as [[regex|] c']; cbn [snd] in *; [|assumption].
  destruct (objects c' !! regex); [|assumption].
  destruct (perform _ _). exact Hget.
Qed.

Lemma runCached_size (cls : list call) (c : RegexCache) :
  (1 <= maxSize c)%Z -> (Z.of_nat (size c) <= maxSize c)%Z ->
  (Z.of_nat (size (snd (runCached parsePattern cls c))) <= maxSize c)%Z.
Proof.
  revert c. induction cls as [|cl cls IH]; intros c Hmax Hsize; [assumption|].
  cbn [RegexCache.runCached].
  destruct (callCached_size cl c Hmax Hsize) as [Hsame Hsize'].
  destruct (callCached parsePattern cl c) as [out c']. cbn [snd] in *.
  specialize (IH c'). rewrite Hsame in IH.
  destruct (runCached parsePattern cls c') as [outs c'']. cbn [snd] in *.
  apply IH; assumption.
Qed.

End Transparency.

(** C9 (amended).  Whatever the pattern syntax, a cache observed through
    calls whose flags are flag letters other than [g] and [y] gives the
    outcomes of a fresh [RegExp] compiled for each call; and a cache of
    capacity [maxSize >= 1] never holds more than [maxSize] entries. *)
Theorem cached_matchers_transparent_and_bounded
  (parsePattern : jsstring -> jsstring -> option regex)
  (capacity : Z) (cls : list call) :
  (Forall (fun cl => statelessFlags (flagsText cl) = true) cls ->
   fst (runCached parsePattern cls (new capacity)) = runFresh parsePattern cls)
  /\ ((1 <= capacity)%Z ->
      (Z.of_nat (size (snd (runCached parsePattern cls (new capacity)))) <= capacity)%Z).
Proof.
  split.
  - intros Hcls. apply runCached_faithful; [assumption|].
    intros key regex Hin. now apply elem_of_nil in Hin.
  - intros Hcap. apply (runCached_size parsePattern cls (new capacity)); cbn; lia.
Qed.

(** Three calls on a cache of capacity 2. *)
Lemma cached_matchers_transparent_and_bounded_witness :
  let cls := [Call (js "stap") (js "i") (Test (js "STAP 1"));
              Call (js "x") [] (Replace (js "axb") (fun _ => js "-"));
              Call (js "stap") (js "i") (Exec (js "Stap"));
              Call (js "rust") (js "im") (Match (js "RUST"))] in
  fst (runCached literalPattern cls (new 2)) = runFresh literalPattern cls /\
  (Z.of_nat (size (snd (runCached literalPattern cls (new 2)))) <= 2)%Z.
Proof.
  intros cls.
  destruct (cached_matchers_transparent_and_bounded literalPattern 2 cls)
    as [Hsame Hbound].
  split.
  - apply Hsame. repeat constructor.
  - apply Hbound. lia.
Defined.

(** C9, as stated, fails: a matcher with the [g] or the [y] flag keeps
    its [lastIndex] from one call to the next; flags that are no flag
    letters make two calls share a key; a cache of capacity 0 holds an
    entry. *)
Lemma shared_matcher_keeps_last_index :
  let withG := Call (js "a") (js "g") (Test (js "a")) in
  let withY := Call (js "a") (js "y") (Test (js "a")) in
  let first := Call (js "a:::") (js "i") (Test (js "A:::")) in
  let second := Call (js "a") (js ":::i") (Test (js "a")) in
  (fst (runCached literalPattern [withG; withG] (new 1000)) = [Tested true; Tested false] /\
   runFresh literalPattern [withG; withG] = [Tested true; Tested true]) /\
  (fst (runCached literalPattern [withY; withY] (new 1000)) = [Tested true; Tested false] /\
   runFresh literalPattern [withY; withY] = [Tested true; Tested true]) /\
  (fst (runCached literalPattern [first; second] (new 1000)) = [Tested true; Tested false] /\
   runFresh literalPattern [first; second] = [Tested true; Thrown]) /\
  size (snd (runCached literalPattern [withG] (new 0))) = 1.
Proof. vm_compute. repeat split. Qed.

End RegexCacheFacts.

(* ===================================================================== *)
(** * Classification of variables *)
(* ===================================================================== *)

Module ValidationRulesFacts.
Import JsString RegExp ValidationRules.

(** A group is eligible for a name when none of its exclude patterns
    and one of its patterns match. *)
Lemma firstGroup_find (name : jsstring) (entries : list (jsstring * GroupConfig)) :
  firstGroup name entries =
  match find (fun entry => negb (isExcluded name (snd entry))
                           && isMatched name (snd entry)) entries with
  | Some entry => fst entry
  | None => js "hulpmerker"
  end.
Proof.
  induction entries as [|[groupName groupConfig] entries IH]; [reflexivity|].
  cbn [firstGroup find fst snd].
  destruct (isExcluded name groupConfig); cbn [negb andb]; [exact IH|].
  destruct (isMatched name groupConfig); [reflexivity|exact IH].
Qed.

Lemma firstGroup_key (name : jsstring) (entries : list (jsstring * GroupConfig)) :
  firstGroup name entries = js "hulpmerker" \/
  firstGroup name entries ∈ map fst entries.
Proof.
  induction entries as [|[groupName groupConfig] entries IH]; [now left|].
  cbn [firstGroup map fst].
  destruct (isExcluded name groupConfig).
  - destruct IH as [IH|IH]; [now left|right; now right].
  - destruct (isMatched name groupConfig); [right; left|].
    destruct IH as [IH|IH]; [now left|right; now right].
Qed.

Lemma groupOf_key (rules : Rules) (group : jsstring) :
  group ∈ map fst (groups rules) -> is_Some (groupOf rules group).
Proof.
  unfold groupOf. induction (groups rules) as [|[key config] entries IH].
  - now intros ?%elem_of_nil.
  - cbn [map fst find]. unfold eqb at 1. cbn [fst].
    case_bool_decide as Hkey; [now eexists|].
    intros [->|Hin]%elem_of_cons; [done|now apply IH].
Qed.

Lemma determineVariableGroup_named (name : jsstring) (rules : Rules) :
  name <> [] ->
  determineVariableGroup name rules = Some (firstGroup name (groups rules)).
Proof. unfold determineVariableGroup. now destruct name. Qed.

(** With groups of non-empty names the first branch of
    [validateVariableDefinition] is not taken. *)
Lemma validate_named_groups {C} (definition : VariableDefinition C) (rules : Rules)
  (result : ValidationResult) :
  name definition <> [] ->
  Forall (fun entry => fst entry <> []) (groups rules) ->
  validateVariableDefinition definition rules = Some result ->
  group result = Some (firstGroup (name definition) (groups rules)) /\
  Forall (fun issue => ~ unknownGroup issue) (errors result).
Proof.
  intros Hname Hkeys. unfold validateVariableDefinition.
  rewrite (determineVariableGroup_named _ _ Hname).
  destruct (firstGroup_key (name definition) (groups rules)) as [Hg|Hg].
  - rewrite Hg. cbn -[groupOf].
    destruct (groupOf rules _) as [groupRules|]; [|discriminate].
    intros [= <-]. cbn. split; [reflexivity|].
    destruct (_ && _); repeat constructor. discriminate.
  - destruct (firstGroup (name definition) (groups rules)) as [|c group] eqn:Hfirst.
    + exfalso. apply list_elem_of_fmap in Hg as (entry & Hentry & Hin).
      rewrite Forall_forall in Hkeys. now apply (Hkeys entry).
    + destruct (groupOf rules (c :: group)) as [groupRules|]; [|discriminate].
      intros [= <-]. cbn. split; [reflexivity|].
      destruct (_ && _); repeat constructor. discriminate.
Qed.

Lemma validate_returns {C} (definition : VariableDefinition C) (rules : Rules) :
  js "hulpmerker" ∈ map fst (groups rules) ->
  is_Some (validateVariableDefinition definition rules).
Proof.
  intros Hdefault. unfold validateVariableDefinition, determineVariableGroup.
  destruct (isEmpty (name definition)); [now eexists|].
  destruct (firstGroup (name definition) (groups rules)) as [|c group] eqn:Hfirst;
    [now eexists|].
  assert (Hkey : is_Some (groupOf rules (c :: group))).
  { apply groupOf_key. rewrite <- Hfirst.
    destruct (firstGroup_key (name definition) (groups rules)) as [->|Hin]; assumption. }
  destruct Hkey as [groupRules ->]. now eexists.
Qed.

(** C10.  For a definition with a non-empty name, [determineVariableGroup]
    returns a group whatever the rules: the first group, in the order of
    the rules, none of whose exclude patterns and one of whose patterns
    match the name (an excluded group is passed over and the search goes
    on), and [hulpmerker] when there is none.  So
    [validateVariableDefinition] does not report [UNKNOWN_GROUP]: under
    any rules whose groups have non-empty names, and in particular under
    [DEFAULT_VALIDATION_RULES], where it returns a result with the group. *)
Theorem classification_always_yields_a_group {C} (definition : VariableDefinition C) :
  name definition <> [] ->
  (forall rules,
     determineVariableGroup (name definition) rules =
     Some (match find (fun entry => negb (isExcluded (name definition) (snd entry))
                                    && isMatched (name definition) (snd entry))
                      (groups rules) with
           | Some entry => fst entry
           | None => js "hulpmerker"
           end)) /\
  (forall rules result,
     Forall (fun entry => fst entry <> []) (groups rules) ->
     validateVariableDefinition definition rules = Some result ->
     group result <> None /\
     Forall (fun issue => ~ unknownGroup issue) (errors result)) /\
  (exists result,
     validateVariableDefinition definition DEFAULT_VALIDATION_RULES = Some result /\
     group result <> None /\
     Forall (fun issue => ~ unknownGroup issue) (errors result)).
Proof.
  intros Hname. split; [|split].
  - intros rules. rewrite (determineVariableGroup_named _ _ Hname).
    now rewrite firstGroup_find.
  - intros rules result Hkeys Hresult.
    destruct (validate_named_groups definition rules result Hname Hkeys Hresult)
      as [-> Herrors].
    now split.
  - destruct (validate_returns definition DEFAULT_VALIDATION_RULES) as [result Hresult].
    { cbn. left. }
    exists result. split; [assumption|].
    destruct (validate_named_groups definition DEFAULT_VALIDATION_RULES result Hname)
      as [-> Herrors]; [|assumption|now split].
    cbn. repeat constructor; discriminate.
Qed.

(** A fault variable: excluded from [hulpmerker], classified as
    [storing], and reported for its missing conditions only. *)
Lemma classification_always_yields_a_group_witness :
  let definition := MkVariableDefinition nat (jsu "Motor Störung =") None 12 in
  determineVariableGroup (name definition) DEFAULT_VALIDATION_RULES
    = Some (js "storing") /\
  exists result,
    validateVariableDefinition definition DEFAULT_VALIDATION_RULES = Some result /\
    group result <> None /\
    Forall (fun issue => ~ unknownGroup issue) (errors result).
Proof.
  intros definition.
  destruct (classification_always_yields_a_group definition)
    as (Hgroup & Hrules & Hdefault); [discriminate|].
  split; [rewrite Hgroup; vm_compute; reflexivity|].
  destruct Hdefault as (result & Hresult & _).
  exists result. split; [exact Hresult|].
  apply (Hrules DEFAULT_VALIDATION_RULES result); [|exact Hresult].
  cbn. repeat constructor; discriminate.
Defined.

(** The condition on the names is needed: the name of a group is
    returned as it is, and the empty name is taken for no group. *)
Lemma unknown_group_of_unnamed_group :
  let rules := MkRules [([], MkGroupConfig [re [Any]] None (MkGroupValidation false false 0))] in
  let definition := MkVariableDefinition nat (js "x =") None 1 in
  determineVariableGroup (name definition) rules = Some [] /\
  exists result,
    validateVariableDefinition definition rules = Some result /\
    Exists unknownGroup (errors result).
Proof.
  split; [reflexivity|]. eexists. split; [reflexivity|].
  left. reflexivity.
Qed.

End ValidationRulesFacts.

(* ===================================================================== *)
(** * Patterns that cannot match *)
(* ===================================================================== *)

Module PositionsFacts.
Import JsString RegExp Positions.

Lemma after_trans (a b c : position) : after a b -> after b c -> after a c.
Proof. induction 1; [easy|]. intros H'. constructor. now apply IHafter. Qed.

Lemma after_advance (st st' : mstate) (c : N) :
  advance st = Some (c, st') -> after (positionOf st) (positionOf st').
Proof.
  unfold advance, positionOf. destruct st as [s p cs]. cbn.
  destruct s as [|d s]; [discriminate|]. intros H. simplify_eq. cbn.
  apply after_next, after_here.
Qed.

Lemma m_Repeat (f : flags) (r' : regex) (min : nat) (max : option nat)
  (greedy : bool) (k : mstate -> option mstate) (st : mstate) :
  m f (Repeat r' min max greedy) k st =
  repeatLoop (m f r') (groupsOf r') min max greedy k
    (S (min + length (rest st))) 0 st.
Proof. reflexivity. Qed.

(** The matcher hands to its continuation a state at the current or a
    later position. *)
Lemma m_after (f : flags) (r : regex) :
  forall k st res, m f r k st = Some res ->
  exists st1, after (positionOf st) (positionOf st1) /\ k st1 = Some res.
Proof.
  induction r as [|lit| |negated rs|r1 IH1 r2 IH2|r1 IH1 r2 IH2
                  |r' IH min max greedy|i r' IH| | | |negative r' IH];
    intros k st res.
  - cbn [m]. intros H. exists st. split; [apply after_here|exact H].
  - cbn [m]. destruct (advance st) as [[c st']|] eqn:Hadv; [|discriminate].
    destruct (charMatches f lit c); [|discriminate].
    intros H. exists st'. split; [now apply (after_advance _ _ c)|exact H].
  - cbn [m]. destruct (advance st) as [[c st']|] eqn:Hadv; [|discriminate].
    destruct (isLineTerminator c); [discriminate|].
    intros H. exists st'. split; [now apply (after_advance _ _ c)|exact H].
  - cbn [m]. destruct (advance st) as [[c st']|] eqn:Hadv; [|discriminate].
    destruct (classMatches f negated rs c); [|discriminate].
    intros H. exists st'. split; [now apply (after_advance _ _ c)|exact H].
  - cbn [m]. intros H. apply IH1 in H as (st1 & Hafter1 & H).
    apply IH2 in H as (st2 & Hafter2 & H).
    exists st2. split; [now apply (after_trans _ (positionOf st1))|exact H].
  - cbn [m]. unfold orElse. destruct (m f r1 k st) eqn:H1.
    + intros [= <-]. now apply IH1.
    + now apply IH2.
  - rewrite m_Repeat. generalize (S (min + length (rest st))) as fuel.
    generalize 0 as count. intros count fuel. revert count st.
    induction fuel as [|fuel IHfuel]; intros count st; [discriminate|].
    cbn [repeatLoop].
    assert (Hiterate :
      (if belowMax max count
       then m f r'
              (fun st' =>
                 if bool_decide (min <= count)
                    && bool_decide (length (rest st') = length (rest st))
                 then None
                 else repeatLoop (m f r') (groupsOf r') min max greedy k fuel (S count) st')
              (MState (rest st) (prev st) (dropCaps (groupsOf r') (caps st)))
       else None) = Some res ->
      exists st1, after (positionOf st) (positionOf st1) /\ k st1 = Some res).
    { destruct (belowMax max count); [|discriminate]. intros H.
      apply IH in H as (st1 & Hafter1 & H).
      destruct (_ && _); [discriminate|].
      apply IHfuel in H as (st2 & Hafter2 & H).
      exists st2. split; [|exact H].
      now apply (after_trans _ (positionOf st1)). }
    assert (Hleave :
      (if bool_decide (min <= count) then k st else None) = Some res ->
      exists st1, after (positionOf st) (positionOf st1) /\ k st1 = Some res).
    { destruct (bool_decide _); [|discriminate].
      intros H. exists st. split; [apply after_here|exact H]. }
    destruct greedy; unfold orElse.
    + match goal with |- context [match ?x with Some _ => _ | None => _ end] =>
        destruct x eqn:Hx end.
      * intros [= <-]. now apply Hiterate.
      * exact Hleave.
    + match goal with |- context [match ?x with Some _ => _ | None => _ end] =>
        destruct x eqn:Hx end.
      * intros [= <-]. now apply Hleave.
      * exact Hiterate.
  - cbn [m]. intros H. apply IH in H as (st1 & Hafter1 & H).
    eexists. split; [|exact H]. exact Hafter1.
  - cbn [m]. destruct (prev st) as [c|].
    + destruct (_ && _); [|discriminate]. intros H. exists st. split; [apply after_here|exact H].
    + intros H. exists st. split; [apply after_here|exact H].
  - cbn [m]. destruct (rest st) as [|c s] eqn:Hrest.
    + intros H. exists st. split; [apply after_here|exact H].
    + destruct (_ && _); [|discriminate]. intros H. exists st. split; [apply after_here|exact H].
  - cbn [m]. destruct (xorb _ _); [|discriminate].
    intros H. exists st. split; [apply after_here|exact H].
  - cbn [m]. destruct (m f r' Some st) as [st'|]; destruct negative; try discriminate.
    + intros H. eexists. split; [|exact H]. apply after_here.
    + intros H. exists st. split; [apply after_here|exact H].
Qed.

End PositionsFacts.
Module BlockedFacts.
Import JsString RegExp Positions PositionsFacts.

Lemma dead_after (f : flags) (q : regex) (pos pos' : position) :
  Dead f q pos -> after pos pos' -> Dead f q pos'.
Proof.
  intros Hdead Hafter pos'' Hafter'. apply Hdead.
  now apply (after_trans _ pos').
Qed.

Lemma dead_matcher (f : flags) (q : regex) (st : mstate) (k : mstate -> option mstate) :
  Dead f q (positionOf st) -> m f q k st = None.
Proof.
  intros Hdead. destruct st as [s p cs].
  apply (Hdead (p, s) (after_here _) k cs).
Qed.

(** A pattern every match of which goes through a dead pattern is dead. *)
Lemma blocked_dead (f : flags) (atoms : list regex) (pos : position) :
  Forall (fun q => Dead f q pos) atoms ->
  forall r, blocked atoms r = true -> Dead f r pos.
Proof.
  intros Hatoms r. revert pos Hatoms.
  induction r as [|lit| |negated rs|r1 IH1 r2 IH2|r1 IH1 r2 IH2
                  |r' IH min max greedy|i r' IH| | | |negative r' IH];
    intros pos Hatoms; cbn [blocked];
    (intros [Hin%bool_decide_eq_true_1|Hr]%orb_true_iff;
     [rewrite Forall_forall in Hatoms; now apply Hatoms|]);
    try discriminate.
  - apply orb_true_iff in Hr as [Hr|Hr].
    + intros [p' s'] Hafter k cs. cbn [m].
      apply dead_matcher. apply (dead_after _ _ pos); [now apply IH1|exact Hafter].
    + intros [p' s'] Hafter k cs. cbn [m].
      destruct (m f r1 _ _) as [res|] eqn:Hm; [|reflexivity].
      apply m_after in Hm as (st1 & Hafter1 & Hm).
      rewrite dead_matcher in Hm; [discriminate|].
      apply (dead_after _ _ pos); [now apply IH2|].
      now apply (after_trans _ (p', s')).
  - apply andb_true_iff in Hr as [Hr1 Hr2].
    intros [p' s'] Hafter k cs. cbn [m]. unfold orElse.
    rewrite (IH1 pos Hatoms Hr1 _ Hafter), (IH2 pos Hatoms Hr2 _ Hafter).
    reflexivity.
  - apply andb_true_iff in Hr as [Hmin%bool_decide_eq_true_1 Hr].
    intros [p' s'] Hafter k cs. rewrite m_Repeat. cbn [repeatLoop].
    assert (Hleave : bool_decide (min <= 0) = false)
      by (apply bool_decide_eq_false_2; lia).
    rewrite Hleave.
    assert (Hiterate : forall k',
      m f r' k' (MState (rest (stateAt (p', s') cs)) (prev (stateAt (p', s') cs))
                   (dropCaps (groupsOf r') (caps (stateAt (p', s') cs)))) = None).
    { intros k'. apply (IH pos Hatoms Hr _ Hafter). }
    destruct greedy; unfold orElse; destruct (belowMax max 0);
      rewrite ?Hiterate; reflexivity.
  - intros [p' s'] Hafter k cs. cbn [m]. apply (IH pos Hatoms Hr _ Hafter).
Qed.

(** No match, nothing replaced. *)
Lemma search_dead (f : flags) (r : regex) (s : jsstring) :
  forall skipped p, Dead f r (p, s) -> search f r skipped p s = None.
Proof.
  induction s as [|c s IH]; intros skipped p Hdead; cbn [search]; unfold matchHere.
  - pose proof (Hdead (p, []) (after_here _) Some []) as Hnone.
    unfold stateAt in Hnone. cbn [fst snd] in Hnone. now rewrite Hnone.
  - pose proof (Hdead (p, c :: s) (after_here _) Some []) as Hnone.
    unfold stateAt in Hnone. cbn [fst snd] in Hnone. rewrite Hnone.
    apply IH. apply (dead_after _ _ (p, c :: s)); [assumption|].
    apply after_next, after_here.
Qed.

Lemma exec_dead (f : flags) (r : regex) (s : jsstring) :
  Dead f r (None, s) -> exec f r s = None.
Proof. apply search_dead. Qed.

Lemma test_dead (f : flags) (r : regex) (s : jsstring) :
  Dead f r (None, s) -> test f r s = false.
Proof.
  intros Hdead. unfold test. rewrite (exec_dead _ _ _ Hdead).
  apply bool_decide_eq_false_2. now intros [? ?].
Qed.

Lemma replace_dead (f : flags) (r : regex) (replacer : matchResult -> jsstring)
  (s : jsstring) :
  Dead f r (None, s) -> replace f r replacer s = s.
Proof.
  intros Hdead. unfold replace. cbn [replaceFrom].
  now rewrite (search_dead _ _ _ _ _ Hdead).
Qed.


Lemma always_forall (P : position -> bool) (p : option N) (s : jsstring) :
  (forall pos', after (p, s) pos' -> P pos' = true) -> always P p s = true.
Proof.
  revert p. induction s as [|c s IH]; intros p HP; cbn [always].
  - rewrite (HP _ (after_here _)). reflexivity.
  - rewrite (HP _ (after_here _)). cbn. apply IH.
    intros pos' Hafter. apply HP. now apply after_next.
Qed.


End BlockedFacts.
Module PlainTextFacts.
Import JsString RegExp Positions PositionsFacts BlockedFacts Normalizer PlainText.

(** ** Characters *)










(** ** Quiet positions *)



(** ** The patterns that match nowhere *)








(** ** Keywords *)






(** ** Runs of spaces and line breaks *)

Lemma letterOrDigit_plain (c : N) : letterOrDigit c = true -> plainChar c = true.
Proof. unfold plainChar. now intros ->. Qed.





(** One turn of the loop. *)
Lemma repeatLoop_S (mr : (mstate -> option mstate) -> mstate -> option mstate)
  (ids : list nat) (min : nat) (max : option nat) (greedy : bool)
  (k : mstate -> option mstate) (fuel count : nat) (st : mstate) :
  repeatLoop mr ids min max greedy k (S fuel) count st =
  let iterate :=
    if belowMax max count then
      mr (fun st' =>
            if bool_decide (min <= count)
               && bool_decide (length (rest st') = length (rest st))
            then None else repeatLoop mr ids min max greedy k fuel (S count) st')
         (MState (rest st) (prev st) (dropCaps ids (caps st)))
    else None in
  let leave := if bool_decide (min <= count) then k st else None in
  if greedy
  then match iterate with Some res => Some res | None => leave end
  else match leave with Some res => Some res | None => iterate end.
Proof. reflexivity. Qed.







(** Line breaks at the start and at the end of the text. *)
Lemma m_Seq (f : flags) (r1 r2 : regex) (k : mstate -> option mstate) (st : mstate) :
  m f (Seq r1 r2) k st = m f r1 (fun st' => m f r2 k st') st.
Proof. reflexivity. Qed.

Lemma m_Bol (f : flags) (k : mstate -> option mstate) (st : mstate) :
  m f Bol k st =
  match prev st with
  | None => k st
  | Some c => if multiline f && isLineTerminator c then k st else None
  end.
Proof. reflexivity. Qed.

Lemma m_Eol (f : flags) (k : mstate -> option mstate) (st : mstate) :
  m f Eol k st =
  match rest st with
  | [] => k st
  | c :: _ => if multiline f && isLineTerminator c then k st else None
  end.
Proof. reflexivity. Qed.



(** ** Plain text: patterns that match nowhere *)





(** ** The lines of a plain text *)

Lemma split_cons (sep c : N) (s : jsstring) :
  exists l ls, split sep s = l :: ls /\
    split sep (c :: s) = if N.eqb c sep then [] :: l :: ls else (c :: l) :: ls.
Proof.
  assert (Hsplit : exists l ls, split sep s = l :: ls).
  { destruct s as [|d s]; [now exists [], []|]. cbn [split].
    destruct (N.eqb d sep); [now eexists _, _|].
    destruct (split sep s); now eexists _, _. }
  destruct Hsplit as (l & ls & Hsplit). exists l, ls. split; [assumption|].
  cbn [split]. now rewrite Hsplit.
Qed.

Lemma join_cons (sep p q : jsstring) (qs : list jsstring) :
  join sep (p :: q :: qs) = p ++ sep ++ join sep (q :: qs).
Proof. reflexivity. Qed.














(** ** The stages of the normalization on a plain text *)
















End PlainTextFacts.

(* ===================================================================== *)
(** * Global replacement of one-character patterns *)
(* ===================================================================== *)

Module ReplaceFacts.
Import JsString RegExp Positions Encoding.

Section SingleReplace.
Variables (f : flags) (r : regex) (acc : N -> bool) (t : jsstring).
Hypothesis Hsingle : Single f r acc.
Hypothesis Hglobal : global f = true.

Lemma search_single_cons sk p d s :
  search f r sk p (d :: s) =
    if acc d then Some (MatchResult (rev sk) [d] [] s)
    else search f r (d :: sk) (Some d) s.
Proof using Hsingle.
  cbn [search]. unfold matchHere. rewrite Hsingle.
  destruct (acc d); [|reflexivity]. cbn [rest caps].
  replace (length (d :: s) - length s) with 1 by (cbn [length]; lia).
  reflexivity.
Qed.

Lemma search_single_nil sk p : search f r sk p [] = None.
Proof using Hsingle. cbn [search]. unfold matchHere. now rewrite Hsingle. Qed.

Lemma search_single_spec s : forall sk p,
  match search f r sk p s with
  | None => flat_map (replaceChar acc t) s = s
  | Some mr =>
      length (matched mr) = 1 /\ length (RegExp.after mr) < length s /\
      rev sk ++ flat_map (replaceChar acc t) s =
        before mr ++ t ++ flat_map (replaceChar acc t) (RegExp.after mr)
  end.
Proof using Hsingle.
  induction s as [|d s IH]; intros sk p.
  - now rewrite search_single_nil.
  - rewrite search_single_cons. cbn [flat_map].
    assert (Hd : replaceChar acc t d = if acc d then t else [d]) by reflexivity.
    rewrite Hd. destruct (acc d) eqn:E.
    + cbn [matched RegExp.after before length]. repeat split; lia.
    + specialize (IH (d :: sk) (Some d)).
      destruct (search f r (d :: sk) (Some d) s) as [mr|].
      * destruct IH as (Hm & Hl & Heq). split; [done|].
        split; [cbn [length]; lia|].
        rewrite <- Heq. cbn [rev]. now rewrite <- app_assoc.
      * cbn [app]. now rewrite IH.
Qed.

Lemma replaceFrom_single fuel : forall s p,
  length s < fuel ->
  replaceFrom fuel f r (fun _ => t) p s = flat_map (replaceChar acc t) s.
Proof using Hsingle Hglobal.
  induction fuel as [|fuel IH]; intros s p Hlen; [lia|].
  cbn [replaceFrom]. pose proof (search_single_spec s [] p) as H.
  destruct (search f r [] p s) as [mr|]; [|done].
  destruct H as (Hm & Hl & Heq). cbn [rev app] in Heq. rewrite Heq, Hglobal.
  destruct (matched mr) as [|c [|c' l]]; try discriminate.
  rewrite IH by lia. reflexivity.
Qed.

(** A global replacement of a pattern that reads one character acts on
    each character separately. *)
Lemma replaceWith_single s :
  replaceWith f r t s = flat_map (replaceChar acc t) s.
Proof using Hsingle Hglobal. apply replaceFrom_single. lia. Qed.

End SingleReplace.

Lemma single_Char (f : flags) (lit : N) : Single f (Char lit) (charMatches f lit).
Proof. intros k [|c s] p cs; reflexivity. Qed.

Lemma single_Class (f : flags) (negated : bool) (rs : list (N * N)) :
  Single f (Class negated rs) (classMatches f negated rs).
Proof. intros k [|c s] p cs; reflexivity. Qed.

(** A replacement text without the character [d] brings no [d] into a
    text without it, and the replaced character is gone when the
    replacement text does not hold it. *)
Lemma replaceChar_keeps_out (acc : N -> bool) (t s : jsstring) (d : N) :
  d ∉ t -> d ∉ s -> d ∉ flat_map (replaceChar acc t) s.
Proof.
  intros Ht Hs Hin. apply list_elem_of_In, in_flat_map in Hin as (c & Hc & Hin).
  unfold replaceChar in Hin. destruct (acc c).
  - now apply Ht, list_elem_of_In.
  - destruct Hin as [<-|[]]. now apply Hs, list_elem_of_In.
Qed.

Lemma replaceChar_removes (acc : N -> bool) (t s : jsstring) (d : N) :
  acc d = true -> d ∉ t -> d ∉ flat_map (replaceChar acc t) s.
Proof.
  intros Hd Ht Hin. apply list_elem_of_In, in_flat_map in Hin as (c & Hc & Hin).
  unfold replaceChar in Hin. destruct (acc c) eqn:Hc'.
  - now apply Ht, list_elem_of_In.
  - destruct Hin as [<-|[]]. congruence.
Qed.

Lemma replaceChar_unchanged (acc : N -> bool) (t s : jsstring) :
  Forall (fun c => acc c = false) s -> flat_map (replaceChar acc t) s = s.
Proof.
  induction 1 as [|c s Hc _ IH]; [reflexivity|].
  cbn [flat_map]. unfold replaceChar at 1. now rewrite Hc, IH.
Qed.

End ReplaceFacts.

(* ===================================================================== *)
(** * Escaping, seen from the reader of the XML text *)
(* ===================================================================== *)

Module EscapeFacts.
Import JsString RegExp XmlBuilder Netlist Encoding XmlFacts.

Lemma escapeChar_cases (c : N) :
  (c = 38%N /\ escapeChar c = js "&amp;") \/
  (c = 60%N /\ escapeChar c = js "&lt;") \/
  (c = 62%N /\ escapeChar c = js "&gt;") \/
  (c = 34%N /\ escapeChar c = js "&quot;") \/
  (c = 39%N /\ escapeChar c = js "&apos;") \/
  (c ∉ [38; 60; 62; 34; 39]%N /\ escapeChar c = [c]).
Proof.
  unfold escapeChar.
  destruct (N.eqb_spec c 38); [now left|right].
  destruct (N.eqb_spec c 60); [now left|right].
  destruct (N.eqb_spec c 62); [now left|right].
  destruct (N.eqb_spec c 34); [now left|right].
  destruct (N.eqb_spec c 39); [now left|right].
  split; [|reflexivity]. rewrite !elem_of_cons, elem_of_nil. tauto.
Qed.

(** X1.  The escaped text holds no [<], [>], double quote or apostrophe,
    whatever the text, and escaping a concatenation is concatenating the
    escaped parts. *)
Theorem escapeXml_leaves_no_markup (a b : jsstring) :
  escapeXml (a ++ b) = escapeXml a ++ escapeXml b /\
  Forall (fun c => c ∉ markup) (escapeXml a).
Proof.
  rewrite !escapeXml_chars. unfold escaped. split; [apply flat_map_app|].
  apply Forall_flat_map, Forall_forall. intros c _.
  destruct (escapeChar_cases c) as [[-> ->]|[[-> ->]|[[-> ->]|[[-> ->]|[[-> ->]|[Hc ->]]]]]];
    try (repeat constructor; compute_done).
  constructor; [|constructor]. unfold markup.
  rewrite !elem_of_cons, elem_of_nil in *. tauto.
Qed.

(** X2.  Escaping loses nothing: two texts with the same escaped text
    are the same text. *)
Theorem escapeXml_injective (a b : jsstring) :
  escapeXml a = escapeXml b -> a = b.
Proof.
  rewrite !escapeXml_chars. unfold escaped. revert b.
  induction a as [|c a IH]; intros [|d b]; cbn [flat_map].
  - reflexivity.
  - destruct (escapeChar_cases d) as [[_ ->]|[[_ ->]|[[_ ->]|[[_ ->]|[[_ ->]|[_ ->]]]]]];
      discriminate.
  - destruct (escapeChar_cases c) as [[_ ->]|[[_ ->]|[[_ ->]|[[_ ->]|[[_ ->]|[_ ->]]]]]];
      discriminate.
  - intros Heq.
    assert (Hhead : c = d /\ flat_map escapeChar a = flat_map escapeChar b).
    { destruct (escapeChar_cases c) as [[-> Hc]|[[-> Hc]|[[-> Hc]|[[-> Hc]|[[-> Hc]|[Hc Hc']]]]]];
        destruct (escapeChar_cases d) as [[-> Hd]|[[-> Hd]|[[-> Hd]|[[-> Hd]|[[-> Hd]|[Hd Hd']]]]]];
        rewrite ?Hc, ?Hd, ?Hc', ?Hd' in Heq; cbn in Heq; simplify_eq;
        try (split; [reflexivity|assumption]);
        try (exfalso; rewrite !elem_of_cons, elem_of_nil in *; tauto). }
    destruct Hhead as [-> Htail]. f_equal. now apply IH.
Qed.

Lemma escapeXml_injective_witness :
  escapeXml (js "a<b") = escapeXml (js "a<b") /\ js "a<b" = js "a<b".
Proof.
  split; [reflexivity|]. apply escapeXml_injective. reflexivity.
Defined.

End EscapeFacts.

(* ===================================================================== *)
(** * The networks of any list of steps *)
(* ===================================================================== *)

Module WiringFacts.
Import JsString RegExp XmlBuilder Generator Netlist Wiring GeneratorFacts.

(** X3.  Whatever the steps, the document holds one network for each
    sequential step, after one Rest network when there is a RUST step:
    one only, made from the first RUST step, however many there are. *)
Theorem one_network_per_sequential_step (functionBlock : option jsstring)
  (steps : list Step) :
  length (networks (buildDocument functionBlock steps)) =
    (if List.find isRust steps then 1 else 0) + length (List.filter isStap steps) /\
  match List.find isRust steps with
  | Some rustStep =>
      head (networks (buildDocument functionBlock steps)) =
      Some (restNetworkOf 3 (orString (description rustStep) (js "RUST Logic"))
              (List.filter isStap steps))
  | None => True
  end.
Proof.
  rewrite networks_buildDocument.
  destruct (List.find isRust steps) as [rustStep|]; cbn [length head];
    rewrite length_imap; split; reflexivity || exact I.
Qed.

Lemma objectId_stepAccesses (cur : nat) (l : list Step) :
  map objectId (stepAccesses cur l) = seq cur (length l).
Proof.
  unfold stepAccesses. revert cur. induction l as [|step l IH]; intros cur; [reflexivity|].
  cbn [imap map length seq objectId stepAccess acc_id]. rewrite Nat.add_0_r. f_equal.
  rewrite <- IH. f_equal. apply imap_ext. intros i x _. cbn. do 2 f_equal. lia.
Qed.

Lemma partIds_stepAccesses (cur : nat) (l : list Step) (rest : list (Part + Access)) :
  flat_map (fun o => match o with inl p => [part_id p] | inr _ => [] end)
           (stepAccesses cur l ++ rest) =
  flat_map (fun o => match o with inl p => [part_id p] | inr _ => [] end) rest.
Proof.
  rewrite flat_map_app.
  assert (Hall : Forall (fun o : Part + Access =>
                    match o with inl p => [part_id p] | inr _ => [] end = [])
                   (stepAccesses cur l)).
  { apply Forall_forall. intros [p|a] Hin; [|reflexivity].
    now apply elem_of_stepAccesses_inl in Hin. }
  induction Hall as [|o os Ho _ IH]; [reflexivity|].
  cbn [flat_map]. now rewrite Ho.
Qed.

Lemma restNetworkOf_wired (networkId : nat) (title : jsstring) (normal : list Step) :
  WellWired (restNetworkOf networkId title normal) /\
  OperandsConnected (restNetworkOf networkId title normal).
Proof.
  split.
  - unfold WellWired, partIds, restNetworkOf. cbn [net_wires net_parts].
    rewrite partIds_stepAccesses, !map_app, objectId_stepAccesses.
    cbn [map objectId flat_map app]. rewrite part_id_negateAll. cbn [part_id freshPart].
    apply Forall_app. split.
    + unfold inputWires. apply Forall_fmap, Forall_forall. intros k Hk%elem_of_seq.
      unfold compose, accessWire; cbn [wire_from wire_to fst]. split.
      * apply elem_of_app. left. apply elem_of_seq. cbn [wire_from fst]. lia.
      * cbn [wire_to fst]. left.
    + destruct normal as [|firstStep normal]; cbn [length];
        repeat (apply Forall_cons_2;
                [unfold accessWire, partWire; cbn [wire_from wire_to fst map objectId acc_id stepAccess];
                 split; [rewrite !elem_of_app, !elem_of_cons, elem_of_seq; lia
                        |rewrite !elem_of_cons; lia]|]);
        apply Forall_nil_2.
  - intros p Hp Hname. unfold restNetworkOf in *. cbn [net_parts net_wires] in *.
    apply elem_of_app in Hp as [Hp|Hp]; [now apply elem_of_stepAccesses_inl in Hp|].
    apply elem_of_app in Hp as [Hp|Hp].
    + apply elem_of_cons in Hp as [Hp|Hp].
      { injection Hp as ->. rewrite part_name_negateAll in Hname. now cbn in Hname. }
      apply elem_of_cons in Hp as [Hp|Hp]; [|now apply elem_of_nil in Hp].
      injection Hp as ->. destruct normal as [|firstStep normal].
      * exists (accessWire 506 505 503 (js "operand")). split; [|reflexivity].
        apply elem_of_app. right. right. left.
      * set (n := length (firstStep :: normal)).
        exists (accessWire (508 + 2 * n) (507 + 2 * n) (503 + 2 * n) (js "operand")).
        split; [|reflexivity]. apply elem_of_app. right. do 2 right. left.
    + destruct normal; repeat (apply elem_of_cons in Hp as [Hp|Hp]; [discriminate|]);
        now apply elem_of_nil in Hp.
Qed.

(** The parts and the wires of the network of a sequential step. *)
Lemma buildStepNetwork_closed (normal : list Step) (idx : nat) (step : Step)
  (u : UidManager) :
  let base := 1000 + idx * 100 in
  let previous := if bool_decide (idx = 0) then 0%Z
                  else default 0%Z (number <$> normal !! (idx - 1)) in
  let next := default 0%Z (number <$> normal !! (idx + 1)) in
  let gate := negateInput (js "in2") (freshPart (5 + base) A) in
  let inputs :=
    [accessWire (6 + base) (2 + base) (5 + base) (js "in1");
     accessWire (7 + base) (3 + base) (5 + base) (js "in2");
     accessWire (8 + base) (4 + base) (5 + base) (js "in3")] in
  let conditions : list (Part + Access) :=
    [inr (stepAccess (2 + base) previous); inr (stepAccess (3 + base) (number step));
     inr {| acc_id := 4 + base; acc_variable := []; acc_index := None;
            acc_isLiteralBool := true; acc_literalValue := false |};
     inl gate] in
  net_parts (fst (buildStepNetwork normal idx step u)) =
    (if bool_decide (idx = length normal - 1)
     then conditions ++ [inl (freshPart (9 + base) Coil);
                         inr (stepAccess (10 + base) (number step))]
     else conditions ++ [inl (freshPart (9 + base) Sr);
                         inr (stepAccess (10 + base) next);
                         inr (stepAccess (11 + base) (number step))]) /\
  net_wires (fst (buildStepNetwork normal idx step u)) =
    (if bool_decide (idx = length normal - 1)
     then inputs ++ [partWire (11 + base) (5 + base) (js "out") (9 + base) (js "in");
                     accessWire (12 + base) (10 + base) (9 + base) (js "operand")]
     else inputs ++ [partWire (12 + base) (5 + base) (js "out") (9 + base) (js "s");
                     accessWire (13 + base) (10 + base) (9 + base) (js "r1");
                     accessWire (14 + base) (11 + base) (9 + base) (js "operand")]).
Proof.
  unfold buildStepNetwork. generalize (1000 + idx * 100) as base. intros base.
  destruct (bool_decide (idx = length normal - 1)); split; reflexivity.
Qed.

Lemma buildStepNetwork_wired (normal : list Step) (idx : nat) (step : Step)
  (u : UidManager) :
  WellWired (fst (buildStepNetwork normal idx step u)) /\
  OperandsConnected (fst (buildStepNetwork normal idx step u)).
Proof.
  destruct (buildStepNetwork_closed normal idx step u) as [Hparts Hwires].
  cbn zeta in Hparts, Hwires. unfold WellWired, OperandsConnected, partIds.
  rewrite Hparts, Hwires. clear Hparts Hwires.
  generalize (1000 + idx * 100) as base. intros base.
  destruct (bool_decide (idx = length normal - 1)); cbn [app]; split.
  - cbn [map flat_map app objectId stepAccess acc_id part_id]. rewrite part_id_negateInput.
    cbn [freshPart part_id].
    repeat (apply Forall_cons_2;
            [unfold accessWire, partWire; cbn [wire_from wire_to fst];
             split; rewrite !elem_of_cons; tauto|]).
    apply Forall_nil_2.
  - intros p Hp Hname.
    repeat (apply elem_of_cons in Hp as [Hp|Hp]; [first [discriminate Hp|injection Hp as ->]|]);
      try (now apply elem_of_nil in Hp);
      [exfalso; apply Hname; unfold negateInput; now destruct (bool_decide _)|].
    exists (accessWire (12 + base) (10 + base) (9 + base) (js "operand")).
    split; [|reflexivity]. do 4 right. left.
  - cbn [map flat_map app objectId stepAccess acc_id part_id]. rewrite part_id_negateInput.
    cbn [freshPart part_id].
    repeat (apply Forall_cons_2;
            [unfold accessWire, partWire; cbn [wire_from wire_to fst];
             split; rewrite !elem_of_cons; tauto|]).
    apply Forall_nil_2.
  - intros p Hp Hname.
    repeat (apply elem_of_cons in Hp as [Hp|Hp]; [first [discriminate Hp|injection Hp as ->]|]);
      try (now apply elem_of_nil in Hp);
      [exfalso; apply Hname; unfold negateInput; now destruct (bool_decide _)|].
    exists (accessWire (14 + base) (11 + base) (9 + base) (js "operand")).
    split; [|reflexivity]. do 5 right. left.
Qed.

(** X4.  Whatever the steps, no wire of the document dangles (every
    wire starts at an object of its own network and ends at a gate, latch
    or coil of it) and every latch and coil has a wire to its operand. *)
Theorem networks_are_wired (functionBlock : option jsstring) (steps : list Step) :
  Forall (fun net => WellWired net /\ OperandsConnected net)
         (networks (buildDocument functionBlock steps)).
Proof.
  rewrite networks_buildDocument.
  assert (Hsteps : forall base,
    Forall (fun net => WellWired net /\ OperandsConnected net)
      (imap (fun i step =>
               fst (buildStepNetwork (List.filter isStap steps) i step
                      {| currentId := base + i |})) (List.filter isStap steps))).
  { intros base. apply Forall_forall. intros net Hnet.
    apply list_elem_of_lookup in Hnet as [i Hi]. rewrite list_lookup_imap in Hi.
    destruct (List.filter isStap steps !! i) as [step|]; [|discriminate].
    apply (inj Some) in Hi as <-. apply buildStepNetwork_wired. }
  destruct (List.find isRust steps) as [rustStep|]; [|apply Hsteps].
  constructor; [apply restNetworkOf_wired|apply Hsteps].
Qed.

End WiringFacts.

(* ===================================================================== *)
(** * Replacements of single characters *)
(* ===================================================================== *)

Module CharacterFacts.
Import JsString RegExp Positions Generator Normalizer Encoding ReplaceFacts BlockedFacts.

Lemma flat_map_flat_map {A B C : Type} (f : A -> list B) (g : B -> list C) (l : list A) :
  flat_map g (flat_map f l) = flat_map (fun a => flat_map g (f a)) l.
Proof.
  induction l as [|a l IH]; [reflexivity|].
  cbn [flat_map]. now rewrite flat_map_app, IH.
Qed.

Lemma digit_not_space (c : N) : isDigit c = true -> isSpace c = false.
Proof.
  unfold isDigit, isSpace, inRanges, spaceRanges. cbn [existsb fst snd].
  intros [H1 H2]%andb_true_iff. apply N.leb_le in H1, H2.
  repeat (apply orb_false_intro); try reflexivity;
    apply andb_false_iff; rewrite !N.leb_gt; lia.
Qed.

Lemma digits_removed (name : jsstring) :
  replaceWith flag_g (Class true digitRanges) [] name = List.filter isDigit name.
Proof.
  rewrite (replaceWith_single flag_g _ _ _ (single_Class _ _ _) eq_refl).
  induction name as [|c name IH]; [reflexivity|].
  cbn [flat_map List.filter]. rewrite IH. unfold replaceChar, classMatches.
  cbn [ignoreCase flag_g]. unfold inRanges, digitRanges. cbn [existsb fst snd].
  rewrite orb_false_r. unfold isDigit. now destruct ((48 <=? c)%N && (c <=? 57)%N).
Qed.

Lemma parseInt_digits (s : jsstring) :
  Forall (fun c => isDigit c = true) s ->
  parseInt s = match s with [] => None | _ :: _ => Some (parseDigits 0 s) end.
Proof.
  intros Hs. destruct Hs as [|c s Hc _]; [reflexivity|].
  unfold parseInt. cbn [trimStart]. now rewrite (digit_not_space c Hc), Hc.
Qed.

Lemma filter_digits (name : jsstring) :
  Forall (fun c => isDigit c = true) (List.filter isDigit name).
Proof.
  apply Forall_forall. intros c Hc%list_elem_of_In%filter_In. tauto.
Qed.

(** X5.  The number of a function block is never 0.  When the name holds
    at most fifteen digits, it is the number that the digits of the name
    spell when every other character is dropped, and 1 when this is 0 or
    when the name holds no digit. *)
Theorem blockNumber_reads_the_digits (name : jsstring) :
  (1 <= blockNumber name)%N /\
  (length (List.filter isDigit name) <= 15 ->
   blockNumber name = N.max 1 (parseDigits 0 (List.filter isDigit name))).
Proof.
  unfold blockNumber. rewrite digits_removed, (parseInt_digits _ (filter_digits name)).
  destruct (List.filter isDigit name) as [|c s]; [split; [lia|reflexivity]|].
  destruct (parseDigits 0 (c :: s)) as [|n]; split; try lia; intros _; lia.
Qed.

Lemma blockNumber_reads_the_digits_witness :
  length (List.filter isDigit (js "FB1_v2")) <= 15 /\
  blockNumber (js "FB1_v2") = 12%N.
Proof.
  assert (H : length (List.filter isDigit (js "FB1_v2")) <= 15) by (vm_compute; lia).
  split; [exact H|].
  rewrite (proj2 (blockNumber_reads_the_digits (js "FB1_v2")) H). reflexivity.
Defined.

(** A pattern that reads one character and accepts none of the text
    matches nowhere in it. *)
Lemma after_suffix (P : N -> Prop) (pos pos' : position) :
  after pos pos' -> Forall P (snd pos) -> Forall P (snd pos').
Proof.
  induction 1 as [|p c s pos' _ IH]; [tauto|].
  cbn [snd]. intros Hall. apply IH. cbn [snd]. now inversion Hall.
Qed.

Lemma single_dead (f : flags) (r : regex) (acc : N -> bool) (p : option N) (s : jsstring) :
  Single f r acc -> Forall (fun c => acc c = false) s -> Dead f r (p, s).
Proof.
  intros Hsingle Hs [p' s'] Hafter k cs.
  pose proof (after_suffix _ _ _ Hafter Hs) as Hs'. cbn [snd] in Hs'.
  unfold stateAt. cbn [fst snd]. rewrite Hsingle.
  destruct Hs' as [|c s' Hc _]; [reflexivity|]. now rewrite Hc.
Qed.

Lemma charMatches_exact (lit c : N) : charMatches flag_g lit c = (lit =? c)%N.
Proof. reflexivity. Qed.

Lemma replaceChar_char (lit : N) (t : jsstring) (c : N) :
  replaceChar (charMatches flag_g lit) t c = if (c =? lit)%N then t else [c].
Proof. unfold replaceChar. now rewrite charMatches_exact, N.eqb_sym. Qed.

Lemma replace_char (lit : N) (t s : jsstring) :
  replaceWith flag_g (Char lit) t s =
  flat_map (fun c => if (c =? lit)%N then t else [c]) s.
Proof.
  rewrite (replaceWith_single flag_g _ _ _ (single_Char _ _) eq_refl).
  apply flat_map_ext. intros c. apply replaceChar_char.
Qed.

Lemma replace_same (lit : N) (s : jsstring) :
  replaceWith flag_g (Class false [(lit, lit); (lit, lit)]) [lit] s = s.
Proof.
  rewrite (replaceWith_single flag_g _ _ _ (single_Class _ _ _) eq_refl).
  induction s as [|c s IH]; [reflexivity|].
  cbn [flat_map]. rewrite IH. unfold replaceChar, classMatches.
  cbn [ignoreCase flag_g xorb]. unfold inRanges. cbn [existsb fst snd].
  destruct (N.leb_spec lit c), (N.leb_spec c lit); cbn; try reflexivity.
  f_equal. f_equal. lia.
Qed.

Lemma normalizeEncoding_chars (text : jsstring) :
  normalizeEncoding text = flat_map encodeChar text.
Proof.
  unfold normalizeEncoding. rewrite !replace_same, !replace_char, !flat_map_flat_map.
  apply flat_map_ext. intros c. unfold encodeChar.
  destruct (N.eqb_spec c 8211) as [->|H1]; [reflexivity|].
  cbn [flat_map app]. rewrite app_nil_r.
  destruct (N.eqb_spec c 8212) as [->|H2]; [reflexivity|].
  cbn [flat_map app]. rewrite app_nil_r.
  destruct (N.eqb_spec c 8230) as [->|H3]; [reflexivity|].
  cbn [flat_map app]. rewrite app_nil_r.
  destruct (N.eqb_spec c 160) as [->|H4]; reflexivity.
Qed.

(** X6.  [normalizeEncoding] works character by character: it leaves no
    dash U+2013 or U+2014, no ellipsis U+2026 and no non-breaking space,
    it maps a concatenation to the concatenation of the results, and it
    leaves every other character as it is. *)
Theorem normalizeEncoding_leaves_no_foreign_character (a b : jsstring) :
  Forall (fun c => c ∉ foreign) (normalizeEncoding a) /\
  normalizeEncoding (a ++ b) = normalizeEncoding a ++ normalizeEncoding b /\
  (Forall (fun c => c ∉ foreign) a -> normalizeEncoding a = a).
Proof.
  rewrite !normalizeEncoding_chars. split; [|split; [apply flat_map_app|]].
  - apply Forall_flat_map, Forall_forall. intros c _. unfold encodeChar.
    destruct (N.eqb_spec c 8211); [repeat constructor; compute_done|].
    destruct (N.eqb_spec c 8212); [repeat constructor; compute_done|].
    destruct (N.eqb_spec c 8230); [repeat constructor; compute_done|].
    destruct (N.eqb_spec c 160); [repeat constructor; compute_done|].
    constructor; [|constructor]. unfold foreign.
    rewrite !elem_of_cons, elem_of_nil. tauto.
  - induction 1 as [|c s Hc _ IH]; [reflexivity|].
    cbn [flat_map]. rewrite IH. unfold encodeChar, foreign in *.
    rewrite !elem_of_cons, elem_of_nil in Hc.
    destruct (N.eqb_spec c 8211); [tauto|]. destruct (N.eqb_spec c 8212); [tauto|].
    destruct (N.eqb_spec c 8230); [tauto|]. destruct (N.eqb_spec c 160); [tauto|].
    reflexivity.
Qed.

Lemma normalizeEncoding_leaves_no_foreign_character_witness :
  Forall (fun c => c ∉ foreign) (js "a-b") /\ normalizeEncoding (js "a-b") = js "a-b".
Proof.
  assert (H : Forall (fun c => c ∉ foreign) (js "a-b")).
  { repeat (apply Forall_cons_2; [compute_done|]). apply Forall_nil_2. }
  split; [exact H|].
  exact (proj2 (proj2 (normalizeEncoding_leaves_no_foreign_character (js "a-b") [])) H).
Defined.

Lemma char_dead (lit : N) (p : option N) (s : jsstring) :
  lit ∉ s -> Dead flag_g (Char lit) (p, s).
Proof.
  intros Hs. apply (single_dead _ _ _ _ _ (single_Char _ _)).
  apply Forall_forall. intros c Hc. rewrite charMatches_exact.
  apply N.eqb_neq. now intros ->.
Qed.

Lemma normalizeLineEndings_unchanged (text : jsstring) :
  13%N ∉ text -> normalizeLineEndings text = text.
Proof.
  intros Htext. unfold normalizeLineEndings.
  unfold replaceWith at 2. rewrite (replace_dead flag_g (Str [13; 10]%N)).
  - rewrite replace_char. induction text as [|c text IH]; [reflexivity|].
    apply not_elem_of_cons in Htext as [Hc Htext]. cbn [flat_map].
    rewrite (IH Htext). destruct (N.eqb_spec c 13); [congruence|reflexivity].
  - apply (blocked_dead flag_g [Char 13%N]); [|reflexivity].
    apply Forall_cons_2; [now apply char_dead|apply Forall_nil_2].
Qed.

Lemma normalizeLineEndings_clean (text : jsstring) : 13%N ∉ normalizeLineEndings text.
Proof.
  unfold normalizeLineEndings.
  rewrite (replaceWith_single flag_g _ _ _ (single_Char _ _) eq_refl).
  apply replaceChar_removes; [reflexivity|]. unfold newline. compute_done.
Qed.

(** X7.  [normalizeLineEndings] leaves no carriage return, whatever the
    text; it leaves a text without carriage returns as it is, so
    applying it twice is applying it once. *)
Theorem normalizeLineEndings_leaves_no_carriage_return (text : jsstring) :
  13%N ∉ normalizeLineEndings text /\
  normalizeLineEndings (normalizeLineEndings text) = normalizeLineEndings text /\
  (13%N ∉ text -> normalizeLineEndings text = text).
Proof.
  split; [apply normalizeLineEndings_clean|]. split.
  - apply normalizeLineEndings_unchanged, normalizeLineEndings_clean.
  - apply normalizeLineEndings_unchanged.
Qed.

Lemma normalizeLineEndings_leaves_no_carriage_return_witness :
  13%N ∉ js "a b" /\ normalizeLineEndings (js "a b") = js "a b".
Proof.
  assert (H : 13%N ∉ js "a b") by compute_done.
  split; [exact H|].
  exact (proj2 (proj2 (normalizeLineEndings_leaves_no_carriage_return (js "a b"))) H).
Defined.

End CharacterFacts.

(* ===================================================================== *)
(** * Hits, misses and the order of the cache *)
(* ===================================================================== *)

Module CacheFacts.
Import JsString RegExp RegexCache CacheStatistics RegexCacheFacts.

Lemma mapHas_false (k : jsstring) (mp : jsMap) :
  mapHas k mp = false <-> Forall (fun e => fst e <> k) mp.
Proof.
  unfold mapHas. induction mp as [|e mp IH]; cbn [existsb].
  - split; [constructor|reflexivity].
  - rewrite orb_false_iff, IH, Forall_cons. unfold eqb.
    rewrite bool_decide_eq_false. reflexivity.
Qed.

Lemma mapHas_mapDelete (k : jsstring) (mp : jsMap) : mapHas k (mapDelete k mp) = false.
Proof.
  apply mapHas_false, Forall_forall. intros e He.
  unfold mapDelete, jsMap in He. now apply list_elem_of_filter in He as [? _].
Qed.

Lemma mapGet_None (k : jsstring) (mp : jsMap) :
  mapGet k mp = None -> mapHas k mp = false.
Proof.
  unfold mapGet, mapHas. induction mp as [|e mp IH]; cbn [find existsb]; [reflexivity|].
  destruct (eqb (fst e) k); [discriminate|]. exact IH.
Qed.

Lemma mapHas_mapDelete_other (k k' : jsstring) (mp : jsMap) :
  mapHas k mp = false -> mapHas k (mapDelete k' mp) = false.
Proof.
  rewrite !mapHas_false, !Forall_forall. intros Hmp e He. apply Hmp.
  now apply elem_of_mapDelete in He.
Qed.

Lemma mapGet_last (k : jsstring) (v : nat) (mp : jsMap) :
  mapHas k mp = false -> mapGet k (mp ++ [(k, v)]) = Some v.
Proof.
  unfold mapGet, mapHas. induction mp as [|e mp IH]; cbn [existsb app find fst].
  - intros _. unfold eqb. now rewrite bool_decide_eq_true_2.
  - intros [He Hmp]%orb_false_iff. rewrite He. now apply IH.
Qed.

Lemma mapDelete_last (k : jsstring) (v : nat) (mp : jsMap) :
  mapHas k mp = false -> mapDelete k (mp ++ [(k, v)]) = mp.
Proof.
  rewrite mapHas_false. unfold mapDelete, jsMap. intros Hmp.
  rewrite filter_app, filter_cons, filter_nil.
  destruct (decide _) as [Hk|_]; [now cbn in Hk|]. rewrite app_nil_r.
  induction Hmp as [|e mp He _ IH]; [reflexivity|].
  rewrite filter_cons. destruct (decide _); [now rewrite IH|contradiction].
Qed.

Lemma mapSet_fresh (k : jsstring) (v : nat) (mp : jsMap) :
  mapHas k mp = false -> mapSet k v mp = mp ++ [(k, v)].
Proof. unfold mapSet. now intros ->. Qed.

Section Requests.
Variable parsePattern : jsstring -> jsstring -> option regex.

(** After a request that returned, the key is the last entry of the
    map. *)
Lemma getRegex_last (p fl : jsstring) (c c' : RegexCache) (regex : nat) :
  getRegex parsePattern p fl c = (Some regex, c') ->
  exists mp, cache c' = mp ++ [(cacheKey p fl, regex)] /\
             mapHas (cacheKey p fl) mp = false.
Proof.
  unfold RegexCache.getRegex. destruct (mapGet _ _) as [found|] eqn:Hget.
  - intros [= <- <-]. cbn [cache].
    exists (mapDelete (cacheKey p fl) (cache c)).
    split; [|apply mapHas_mapDelete]. apply mapSet_fresh, mapHas_mapDelete.
  - destruct (newRegExp parsePattern p fl) as [o|]; [|discriminate].
    intros [= <- <-]. cbn [cache]. apply mapGet_None in Hget.
    eexists. split; [apply mapSet_fresh|]; destruct (_ <=? _)%Z; try assumption;
      destruct (cache c) as [|[firstKey v] mp] eqn:Hcache; try reflexivity;
      rewrite <- Hcache in *; now apply mapHas_mapDelete_other.
Qed.

(** X8.  A request that returned a matcher is answered from the map
    when it is made again at once: the same matcher is returned, one
    hit is counted, and nothing else of the cache changes, whatever
    its capacity. *)
Theorem getRegex_again_is_a_hit (p fl : jsstring) (c c' : RegexCache) (regex : nat) :
  getRegex parsePattern p fl c = (Some regex, c') ->
  getRegex parsePattern p fl c' =
    (Some regex,
     MkCache (objects c') (cache c') (maxSize c') (S (hitCount c')) (missCount c')).
Proof.
  intros Hget. destruct (getRegex_last _ _ _ _ _ Hget) as (mp & Hcache & Hmp).
  unfold RegexCache.getRegex. rewrite Hcache, (mapGet_last _ _ _ Hmp).
  now rewrite (mapDelete_last _ _ _ Hmp), (mapSet_fresh _ _ _ Hmp).
Qed.

Lemma consistent_new (capacity : Z) : Consistent (new capacity).
Proof. repeat split; [constructor|cbn; lia..]. Qed.

Lemma getRegex_consistent (p fl : jsstring) (c : RegexCache) :
  Consistent c ->
  Consistent (snd (getRegex parsePattern p fl c)) /\
  match fst (getRegex parsePattern p fl c) with
  | Some regex =>
      is_Some (objects (snd (getRegex parsePattern p fl c)) !! regex) /\
      hitCount (snd (getRegex parsePattern p fl c)) +
      missCount (snd (getRegex parsePattern p fl c)) = S (hitCount c + missCount c)
  | None => snd (getRegex parsePattern p fl c) = c
  end.
Proof.
  intros (Hrefs & Hobjects & Hsize). unfold RegexCache.getRegex.
  destruct (mapGet _ _) as [regex|] eqn:Hget.
  - cbn [fst snd]. apply mapGet_Some in Hget.
    assert (Hregex : regex < length (objects c)).
    { rewrite Forall_forall in Hrefs. exact (Hrefs _ Hget). }
    split; [|split; [now apply lookup_lt_is_Some|cbn; lia]].
    split; [|split; [exact Hobjects|]]; cbn [objects cache missCount].
    + apply Forall_forall. intros e [->|He%elem_of_mapDelete]%elem_of_mapSet; [exact Hregex|].
      rewrite Forall_forall in Hrefs. now apply Hrefs.
    + unfold size in *. cbn [cache].
      pose proof (length_mapDelete_elem _ _ _ Hget).
      pose proof (length_mapSet (cacheKey p fl) regex (mapDelete (cacheKey p fl) (cache c))).
      lia.
  - destruct (newRegExp parsePattern p fl) as [o|]; [|now split].
    cbn [fst snd objects cache hitCount missCount].
    assert (Hkept : forall kept : jsMap,
              kept = (if (maxSize c <=? Z.of_nat (size c))%Z
                      then match cache c with
                           | [] => []
                           | (firstKey, _) :: _ => mapDelete firstKey (cache c)
                           end
                      else cache c) ->
              Forall (fun e => snd e < length (objects c)) kept /\
              length kept <= length (cache c)).
    { intros kept ->. destruct (_ <=? _)%Z; [|now split].
      destruct (cache c) as [|[firstKey v] mp] eqn:Hcache; [now split|].
      rewrite <- Hcache in *. split; [|apply length_mapDelete].
      apply Forall_forall. intros e He%elem_of_mapDelete.
      rewrite Forall_forall in Hrefs. now apply Hrefs. }
    destruct (Hkept _ eq_refl) as [Hrefs' Hlen].
    split; [|split; [rewrite lookup_app_r, Nat.sub_diag by lia; now eexists|lia]].
    split; [|split]; cbn [objects cache missCount]; rewrite ?length_app; cbn [length].
    + apply Forall_forall. intros e [->|He]%elem_of_mapSet; cbn [snd]; [lia|].
      rewrite Forall_forall in Hrefs'. specialize (Hrefs' _ He). lia.
    + lia.
    + unfold size in *. cbn [cache].
      eapply Nat.le_trans; [apply length_mapSet|]. apply le_n_S.
      eapply Nat.le_trans; [exact Hlen|exact Hsize].
Qed.

Lemma callCached_consistent (cl : call) (c : RegexCache) :
  Consistent c ->
  Consistent (snd (callCached parsePattern cl c)) /\
  hitCount (snd (callCached parsePattern cl c)) +
  missCount (snd (callCached parsePattern cl c)) =
    returned [fst (callCached parsePattern cl c)] + (hitCount c + missCount c) /\
  (fst (callCached parsePattern cl c) = Thrown ->
   newRegExp parsePattern (pattern cl) (flagsText cl) = None).
Proof.
  intros Hc. unfold RegexCache.callCached.
  pose proof (getRegex_consistent (pattern cl) (flagsText cl) c Hc) as [Hc' Hget].
  assert (Hthrown : fst (getRegex parsePattern (pattern cl) (flagsText cl) c) = None ->
                    newRegExp parsePattern (pattern cl) (flagsText cl) = None).
  { unfold RegexCache.getRegex. destruct (mapGet _ _); [discriminate|].
    now destruct (newRegExp parsePattern _ _). }
  destruct (getRegex parsePattern (pattern cl) (flagsText cl) c) as [[regex|] c'];
    cbn [fst snd] in *.
  - destruct Hget as [[o Ho] Hcount]. rewrite Ho.
    destruct (perform (usage cl) o) as [out o'] eqn:Hperform. cbn [fst snd].
    split; [|split].
    + destruct Hc' as (Hrefs & Hobjects & Hsize).
      unfold Consistent, size in *. cbn [objects cache missCount].
      now rewrite length_insert.
    + cbn [hitCount missCount]. rewrite Hcount. unfold returned.
      destruct (usage cl); cbn [perform] in Hperform;
        repeat match type of Hperform with
               | context [let (_, _) := ?e in _] => destruct e
               | context [if ?b then _ else _] => destruct b
               end;
        injection Hperform as <- _; reflexivity.
    + intros ->. destruct (usage cl); cbn [perform] in Hperform;
        repeat match type of Hperform with
               | context [let (_, _) := ?e in _] => destruct e
               | context [if ?b then _ else _] => destruct b
               end;
        discriminate.
  - subst c'. split; [exact Hc|]. split; [reflexivity|]. intros _. now apply Hthrown.
Qed.

(** X9.  The counters of a cache count every call of [test], [exec],
    [match] and [replace] that returned, once, as a hit or as a miss;
    the map never holds more entries than there were misses; and a call
    throws only if [new RegExp] throws for its pattern and flags. *)
Theorem counters_count_every_call (capacity : Z) (cls : list call) :
  let run := runCached parsePattern cls (new capacity) in
  hitCount (snd run) + missCount (snd run) = returned (fst run) /\
  size (snd run) <= missCount (snd run) /\
  Forall2 (fun cl out =>
             out = Thrown ->
             newRegExp parsePattern (pattern cl) (flagsText cl) = None)
          cls (fst run).
Proof.
  assert (Hrun : forall c, Consistent c ->
            let run := runCached parsePattern cls c in
            hitCount (snd run) + missCount (snd run) =
              returned (fst run) + (hitCount c + missCount c) /\
            size (snd run) <= missCount (snd run) /\
            Forall2 (fun cl out =>
                       out = Thrown ->
                       newRegExp parsePattern (pattern cl) (flagsText cl) = None)
                    cls (fst run)).
  { induction cls as [|cl cls' IH]; intros c Hc.
    - cbn. split; [reflexivity|]. split; [apply Hc|constructor].
    - cbn [RegexCache.runCached].
      destruct (callCached_consistent cl c Hc) as (Hc' & Hcount & Hthrown).
      destruct (callCached parsePattern cl c) as [out c']. cbn [fst snd] in *.
      specialize (IH c' Hc'). cbn zeta in IH.
      destruct (runCached parsePattern cls' c') as [outs c'']. cbn [fst snd] in *.
      destruct IH as (IHcount & IHsize & IHthrown).
      split; [|split; [exact IHsize|now constructor]].
      rewrite IHcount, Hcount. unfold returned. cbn [List.filter].
      destruct out; cbn [length]; lia. }
  intros run. destruct (Hrun (new capacity) (consistent_new capacity)) as (Hcount & Hrest).
  split; [|exact Hrest]. fold run in Hcount. rewrite Hcount. cbn. lia.
Qed.

End Requests.

(** A request, and the same request again. *)
Lemma getRegex_again_is_a_hit_witness :
  let c := snd (getRegex literalPattern (js "stap") (js "i") (new 0)) in
  getRegex literalPattern (js "stap") (js "i") (new 0) = (Some 0, c) /\
  getRegex literalPattern (js "stap") (js "i") c =
    (Some 0, MkCache (objects c) (cache c) (maxSize c) (S (hitCount c)) (missCount c)).
Proof.
  intros c.
  assert (H : getRegex literalPattern (js "stap") (js "i") (new 0) = (Some 0, c))
    by reflexivity.
  split; [exact H|].
  exact (getRegex_again_is_a_hit literalPattern (js "stap") (js "i") (new 0) c 0 H).
Defined.

End CacheFacts.

(* ===================================================================== *)
(** * What enables a sequential step *)
(* ===================================================================== *)

Module StepLogicFacts.
Import JsString RegExp XmlBuilder Generator Netlist StepLogic GeneratorFacts WiringFacts.

Lemma buildStepNetwork_conditions (normal : list Step) (idx : nat) (step : Step)
  (u : UidManager) :
  StepConditions
    (if bool_decide (idx = 0) then 0%Z
     else default 0%Z (number <$> normal !! (idx - 1)))
    step (fst (buildStepNetwork normal idx step u)).
Proof.
  destruct (buildStepNetwork_closed normal idx step u) as [Hparts Hwires].
  cbn zeta in Hparts, Hwires. unfold StepConditions, feeds, incoming.
  rewrite Hparts, Hwires. clear Hparts Hwires.
  generalize (1000 + idx * 100) as base. intros base.
  generalize (if bool_decide (idx = 0) then 0%Z
              else default 0%Z (number <$> normal !! (idx - 1))) as previous.
  intros previous.
  exists (negateInput (js "in2") (freshPart (5 + base) A)).
  rewrite part_id_negateInput. cbn [freshPart part_id].
  assert (Hcount : forall others : list Wire,
            Forall (fun w => fst (wire_to w) = 9 + base) others ->
            length (List.filter (fun w => bool_decide (fst (wire_to w) = 5 + base))
                      ([accessWire (6 + base) (2 + base) (5 + base) (js "in1");
                        accessWire (7 + base) (3 + base) (5 + base) (js "in2");
                        accessWire (8 + base) (4 + base) (5 + base) (js "in3")] ++ others))
            = 3).
  { intros others Hothers. cbn [app List.filter accessWire wire_to fst].
    rewrite !bool_decide_eq_true_2 by reflexivity. cbn [length]. do 3 f_equal.
    induction Hothers as [|w others Hw _ IH]; [reflexivity|].
    cbn [List.filter]. rewrite bool_decide_eq_false_2 by lia. exact IH. }
  destruct (bool_decide (idx = length normal - 1)); cbn [app];
    (split; [do 3 right; left|]; split; [reflexivity|]; split; [reflexivity|];
     split; [exists (stepAccess (2 + base) previous);
             split; [left|]; split; [done|];
             exists (accessWire (6 + base) (2 + base) (5 + base) (js "in1"));
             split; [left|]; split; reflexivity|];
     split; [exists (stepAccess (3 + base) (number step));
             split; [right; left|]; split; [done|];
             exists (accessWire (7 + base) (3 + base) (5 + base) (js "in2"));
             split; [right; left|]; split; reflexivity|];
     split; [exists {| acc_id := 4 + base; acc_variable := []; acc_index := None;
                       acc_isLiteralBool := true; acc_literalValue := false |};
             split; [do 2 right; left|]; split; [done|];
             exists (accessWire (8 + base) (4 + base) (5 + base) (js "in3"));
             split; [do 2 right; left|]; split; reflexivity|]).
  - apply (Hcount [_; _]). repeat (apply Forall_cons_2; [reflexivity|]). apply Forall_nil_2.
  - apply (Hcount [_; _; _]). repeat (apply Forall_cons_2; [reflexivity|]). apply Forall_nil_2.
Qed.

Lemma buildStepNetwork_target (normal : list Step) (idx : nat) (step : Step)
  (u : UidManager) :
  idx < length normal ->
  StepTarget (number <$> normal !! (S idx)) step (fst (buildStepNetwork normal idx step u)).
Proof.
  intros Hidx.
  destruct (buildStepNetwork_closed normal idx step u) as [Hparts Hwires].
  cbn zeta in Hparts, Hwires. unfold StepTarget, feeds, drives.
  rewrite Hparts, Hwires. clear Hparts Hwires.
  generalize (1000 + idx * 100) as base. intros base.
  generalize (if bool_decide (idx = 0) then 0%Z
              else default 0%Z (number <$> normal !! (idx - 1))) as previous.
  intros previous.
  destruct (decide (idx = length normal - 1)) as [Hfinal|Hfinal];
    [rewrite (bool_decide_eq_true_2 _ Hfinal)|rewrite (bool_decide_eq_false_2 _ Hfinal)];
    cbn [app].
  - rewrite (lookup_ge_None_2 normal (S idx)) by lia. cbn [fmap option_fmap option_map].
    exists (negateInput (js "in2") (freshPart (5 + base) A)), (freshPart (9 + base) Coil).
    rewrite part_id_negateInput. cbn [freshPart part_id part_name].
    split; [do 3 right; left|]. split; [reflexivity|]. split; [do 4 right; left|].
    split; [|split; [reflexivity|]].
    + exists (stepAccess (10 + base) (number step)).
      split; [do 5 right; left|]. split; [done|].
      exists (accessWire (12 + base) (10 + base) (9 + base) (js "operand")).
      split; [do 4 right; left|]. split; reflexivity.
    + exists (partWire (11 + base) (5 + base) (js "out") (9 + base) (js "in")).
      split; [do 3 right; left|]. split; reflexivity.
  - destruct (lookup_lt_is_Some_2 normal (S idx)) as [nextStep Hnext]; [lia|].
    replace (idx + 1) with (S idx) by lia. rewrite Hnext.
    cbn [fmap option_fmap option_map default].
    exists (negateInput (js "in2") (freshPart (5 + base) A)), (freshPart (9 + base) Sr).
    rewrite part_id_negateInput. cbn [freshPart part_id part_name].
    split; [do 3 right; left|]. split; [reflexivity|]. split; [do 4 right; left|].
    split; [|split; [reflexivity|split]].
    + exists (stepAccess (11 + base) (number step)).
      split; [do 6 right; left|]. split; [done|].
      exists (accessWire (14 + base) (11 + base) (9 + base) (js "operand")).
      split; [do 5 right; left|]. split; reflexivity.
    + exists (partWire (12 + base) (5 + base) (js "out") (9 + base) (js "s")).
      split; [do 3 right; left|]. split; reflexivity.
    + exists (stepAccess (10 + base) (number nextStep)).
      split; [do 5 right; left|]. split; [done|].
      exists (accessWire (13 + base) (10 + base) (9 + base) (js "r1")).
      split; [do 4 right; left|]. split; reflexivity.
Qed.

(** X10.  The network of the sequential step at position [i]: its AND
    gate has exactly three inputs, the bit of the sequential step before
    it (bit 0 for the first one), the negated bit of the step itself and
    the constant false; the gate drives the coil of the step when it is
    the final one, and otherwise a latch that is reset by the bit of the
    next sequential step; the operand is the bit of the step itself. *)
Theorem step_network_logic (functionBlock : option jsstring) (steps : list Step)
  (i : nat) (step : Step) :
  List.filter isStap steps !! i = Some step ->
  exists net,
    networks (buildDocument functionBlock steps) !!
      (match List.find isRust steps with Some _ => S i | None => i end) = Some net /\
    StepConditions
      (match i with
       | 0 => 0%Z
       | S j => default 0%Z (number <$> List.filter isStap steps !! j)
       end) step net /\
    StepTarget (number <$> List.filter isStap steps !! (S i)) step net.
Proof.
  intros Hstep. rewrite networks_buildDocument.
  assert (Hlookup : forall base,
    imap (fun i step =>
            fst (buildStepNetwork (List.filter isStap steps) i step
                   {| currentId := base + i |})) (List.filter isStap steps) !! i =
    Some (fst (buildStepNetwork (List.filter isStap steps) i step
                 {| currentId := base + i |}))).
  { intros base. now rewrite list_lookup_imap, Hstep. }
  assert (Hprevious :
    (if bool_decide (i = 0) then 0%Z
     else default 0%Z (number <$> List.filter isStap steps !! (i - 1))) =
    match i with
    | 0 => 0%Z
    | S j => default 0%Z (number <$> List.filter isStap steps !! j)
    end).
  { destruct i as [|j]; [reflexivity|].
    rewrite bool_decide_eq_false_2 by lia. now replace (S j - 1) with j by lia. }
  pose proof (lookup_lt_Some _ _ _ Hstep) as Hi.
  destruct (List.find isRust steps) as [rustStep|];
    eexists; (split; [cbn [lookup list_lookup]; apply Hlookup|]);
    rewrite <- Hprevious;
    (split; [apply buildStepNetwork_conditions|now apply buildStepNetwork_target]).
Qed.

Lemma step_network_logic_witness :
  let steps := restStep :: sequentialSteps 2 in
  List.filter isStap steps !! 1 = Some {| number := 2; type := STAP; description := None |} /\
  exists net,
    networks (buildDocument None steps) !! 2 = Some net /\
    StepConditions 1 {| number := 2; type := STAP; description := None |} net /\
    StepTarget None {| number := 2; type := STAP; description := None |} net.
Proof.
  intros steps.
  assert (H : List.filter isStap steps !! 1 =
              Some {| number := 2; type := STAP; description := None |}) by reflexivity.
  split; [exact H|]. exact (step_network_logic None steps 1 _ H).
Defined.

End StepLogicFacts.

(* ===================================================================== *)
(** * The bits addressed by the netlist *)
(* ===================================================================== *)

Module AccessFacts.
Import JsString RegExp XmlBuilder Generator Netlist GeneratorFacts WiringFacts.

Lemma default_number (normal : list Step) (i : nat) :
  default 0%Z (number <$> normal !! i) = 0%Z \/
  exists step, step ∈ normal /\ number step = default 0%Z (number <$> normal !! i).
Proof.
  destruct (normal !! i) as [step|] eqn:Hstep; [right|now left].
  exists step. split; [now apply list_elem_of_lookup_2 in Hstep|reflexivity].
Qed.

Lemma restNetworkOf_indices (networkId : nat) (title : jsstring) (normal : list Step)
  (a : Access) (k : Z) :
  inr a ∈ net_parts (restNetworkOf networkId title normal) -> acc_index a = Some k ->
  k = 0%Z \/ exists step, step ∈ normal /\ number step = k.
Proof.
  unfold restNetworkOf. cbn [net_parts]. intros Ha Hk.
  apply elem_of_app in Ha as [Ha|Ha].
  - unfold stepAccesses in Ha. apply list_elem_of_lookup in Ha as [i Hi].
    rewrite list_lookup_imap in Hi.
    destruct (normal !! i) as [step|] eqn:Hstep; [|discriminate].
    injection Hi as <-. cbn in Hk. injection Hk as <-.
    right. exists step. split; [now apply list_elem_of_lookup_2 in Hstep|reflexivity].
  - apply elem_of_app in Ha as [Ha|Ha].
    { repeat (apply elem_of_cons in Ha as [Ha|Ha]; [discriminate|]).
      now apply elem_of_nil in Ha. }
    destruct normal as [|firstStep normal];
      repeat (apply elem_of_cons in Ha as [Ha|Ha];
              [injection Ha as ->; cbn in Hk; injection Hk as <-|]);
      try (now apply elem_of_nil in Ha); try (now left).
    right. exists firstStep. split; [left|reflexivity].
Qed.

Lemma buildStepNetwork_indices (normal : list Step) (idx : nat) (step : Step)
  (u : UidManager) (a : Access) (k : Z) :
  normal !! idx = Some step ->
  inr a ∈ net_parts (fst (buildStepNetwork normal idx step u)) -> acc_index a = Some k ->
  k = 0%Z \/ exists step, step ∈ normal /\ number step = k.
Proof.
  intros Hstep.
  destruct (buildStepNetwork_closed normal idx step u) as [Hparts _].
  cbn zeta in Hparts. rewrite Hparts. clear Hparts.
  generalize (1000 + idx * 100) as base. intros base.
  assert (Hprevious : forall previous,
            previous = (if bool_decide (idx = 0) then 0%Z
                        else default 0%Z (number <$> normal !! (idx - 1))) ->
            previous = 0%Z \/ exists step, step ∈ normal /\ number step = previous).
  { intros previous ->. destruct (bool_decide (idx = 0)); [now left|apply default_number]. }
  specialize (Hprevious _ eq_refl). revert Hprevious.
  generalize (if bool_decide (idx = 0) then 0%Z
              else default 0%Z (number <$> normal !! (idx - 1))) as previous.
  intros previous Hprevious.
  pose proof (default_number normal (idx + 1)) as Hnext. revert Hnext.
  generalize (default 0%Z (number <$> normal !! (idx + 1))) as nextNumber.
  intros nextNumber Hnext.
  assert (Hown : exists step', step' ∈ normal /\ number step' = number step).
  { exists step. split; [now apply list_elem_of_lookup_2 in Hstep|reflexivity]. }
  destruct (bool_decide (idx = length normal - 1)); cbn [app]; intros Ha Hk;
    repeat (apply elem_of_cons in Ha as [Ha|Ha];
            [first [discriminate Ha
                   |injection Ha as ->; cbn [acc_index stepAccess] in Hk;
                    first [discriminate Hk|injection Hk as <-]]|]);
    try (now apply elem_of_nil in Ha); auto.
Qed.

(** X11.  Every access of the generated netlist to an element of the
    step-bit array addresses bit 0 or the bit whose index is the number
    of a step of type STAP; so the accesses stay within the declared
    bounds 0 to 31 of the array when the numbers of these steps do. *)
Theorem accesses_address_step_bits (functionBlock : option jsstring) (steps : list Step)
  (net : Network) (a : Access) (k : Z) :
  net ∈ networks (buildDocument functionBlock steps) ->
  inr a ∈ net_parts net -> acc_index a = Some k ->
  (k = 0%Z \/ exists step, step ∈ steps /\ type step = STAP /\ number step = k) /\
  (Forall (fun step => type step = STAP -> (0 <= number step <= 31)%Z) steps ->
   (0 <= k <= 31)%Z).
Proof.
  intros Hnet Ha Hk.
  assert (Hnormal : k = 0%Z \/
                    exists step, step ∈ List.filter isStap steps /\ number step = k).
  { rewrite networks_buildDocument in Hnet.
    assert (Hsteps : forall base,
      net ∈ imap (fun i step =>
                    fst (buildStepNetwork (List.filter isStap steps) i step
                           {| currentId := base + i |})) (List.filter isStap steps) ->
      k = 0%Z \/ exists step, step ∈ List.filter isStap steps /\ number step = k).
    { intros base Hin. apply list_elem_of_lookup in Hin as [i Hi].
      rewrite list_lookup_imap in Hi.
      destruct (List.filter isStap steps !! i) as [step|] eqn:Hstep; [|discriminate].
      apply (inj Some) in Hi as <-. exact (buildStepNetwork_indices _ _ _ _ _ _ Hstep Ha Hk). }
    destruct (List.find isRust steps) as [rustStep|]; [|now apply (Hsteps 3)].
    apply elem_of_cons in Hnet as [->|Hnet]; [|now apply (Hsteps 4)].
    exact (restNetworkOf_indices _ _ _ _ _ Ha Hk). }
  assert (Hk' : k = 0%Z \/ exists step, step ∈ steps /\ type step = STAP /\ number step = k).
  { destruct Hnormal as [->|(step & Hstep & <-)]; [now left|right].
    apply list_elem_of_In, filter_In in Hstep as [Hin Hstap].
    exists step. split; [now apply list_elem_of_In|]. split; [|reflexivity].
    unfold isStap in Hstap. now apply bool_decide_eq_true_1 in Hstap. }
  split; [exact Hk'|]. intros Hbounds.
  destruct Hk' as [->|(step & Hin & Hstap & <-)]; [lia|].
  rewrite Forall_forall in Hbounds. now apply Hbounds.
Qed.

Lemma accesses_address_step_bits_witness :
  let steps := restStep :: sequentialSteps 2 in
  let net := restNetworkOf 3 (js "Rust") (sequentialSteps 2) in
  let a := stepAccess 503 2 in
  net ∈ networks (buildDocument None steps) /\ inr a ∈ net_parts net /\
  acc_index a = Some 2%Z /\
  (exists step, step ∈ steps /\ type step = STAP /\ number step = 2%Z).
Proof.
  intros steps net a.
  assert (Hnet : net ∈ networks (buildDocument None steps)).
  { rewrite networks_buildDocument. left. }
  assert (Ha : inr a ∈ net_parts net) by (right; left).
  assert (Hk : acc_index a = Some 2%Z) by reflexivity.
  repeat (split; [assumption|]).
  destruct (proj1 (accesses_address_step_bits None steps net a 2 Hnet Ha Hk)) as [H|H];
    [discriminate H|exact H].
Defined.

End AccessFacts.

(* ===================================================================== *)
(** * What the validation of a variable reports *)
(* ===================================================================== *)

Module ReportFacts.
Import JsString RegExp ValidationRules ValidationRulesFacts.

Lemma groupOf_None (rules : Rules) (group : jsstring) :
  groupOf rules group = None <-> group ∉ map fst (groups rules).
Proof.
  unfold groupOf. induction (groups rules) as [|[key config] entries IH].
  - cbn. split; [intros _ ?%elem_of_nil; done|reflexivity].
  - cbn [map fst find]. unfold eqb at 1. cbn [fst]. rewrite not_elem_of_cons.
    case_bool_decide as Hkey.
    + cbn. split; [discriminate|]. intros [Hne _]. now destruct Hne.
    + rewrite IH. split; [intros H; split; [congruence|exact H]|tauto].
Qed.

Lemma find_eligible_None (name : jsstring) (entries : list (jsstring * GroupConfig)) :
  find (fun entry => negb (isExcluded name (snd entry)) && isMatched name (snd entry))
       entries = None <->
  Forall (fun entry => isExcluded name (snd entry) = true \/
                       isMatched name (snd entry) = false) entries.
Proof.
  induction entries as [|entry entries IH]; cbn [find].
  - split; [constructor|reflexivity].
  - rewrite Forall_cons. destruct (isExcluded name (snd entry)); cbn [negb andb].
    + rewrite IH. tauto.
    + destruct (isMatched name (snd entry)).
      * split; [discriminate|]. intros [[H|H] _]; discriminate.
      * rewrite IH. tauto.
Qed.

(** X12.  [validateVariableDefinition] throws exactly when the name is
    not empty, no group of the rules is eligible for it (each one is
    excluded or has no matching pattern) and the rules have no group
    [hulpmerker] to fall back on; in every other case it returns a
    result. *)
Theorem validation_throws_exactly_without_fallback {C} (definition : VariableDefinition C)
  (rules : Rules) :
  validateVariableDefinition definition rules = None <->
  name definition <> [] /\
  js "hulpmerker" ∉ map fst (groups rules) /\
  Forall (fun entry => isExcluded (name definition) (snd entry) = true \/
                       isMatched (name definition) (snd entry) = false) (groups rules).
Proof.
  unfold validateVariableDefinition, determineVariableGroup.
  destruct (name definition) as [|c name'] eqn:Hname; cbn [isEmpty].
  { split; [discriminate|]. now intros [? _]. }
  rewrite <- Hname, firstGroup_find, <- find_eligible_None.
  destruct (find _ (groups rules)) as [entry|] eqn:Hfind.
  - split; [|now intros (_ & _ & ?)].
    apply find_some in Hfind as [Hin _]. destruct (fst entry) as [|d key] eqn:Hkey;
      [discriminate|].
    destruct (groupOf_key rules (d :: key)) as [config ->]; [|discriminate].
    rewrite <- Hkey. apply list_elem_of_fmap. exists entry.
    split; [reflexivity|now apply list_elem_of_In].
  - rewrite <- groupOf_None.
    destruct (groupOf rules (js "hulpmerker")).
    + split; [discriminate|]. now intros (_ & ? & _).
    + split; [intros _|reflexivity]. rewrite Hname. repeat split; discriminate.
Qed.

Lemma validate_in_group {C} (definition : VariableDefinition C) (rules : Rules)
  (g : jsstring) (config : GroupConfig) :
  name definition <> [] -> firstGroup (name definition) (groups rules) = g ->
  g <> [] -> groupOf rules g = Some config ->
  exists result,
    validateVariableDefinition definition rules = Some result /\
    group result = Some g /\ groupRules result = Some config /\
    (errors result = [] <->
     requiresConditions (validation config) = false \/ 0 < conditionCount definition) /\
    (warnings result = [] <->
     conditionCount definition <= maxConditions (validation config)).
Proof.
  intros Hname Hfirst Hg Hconfig. unfold validateVariableDefinition.
  rewrite (determineVariableGroup_named _ _ Hname), Hfirst.
  destruct g as [|c g']; [done|]. rewrite Hconfig.
  eexists. split; [reflexivity|]. cbn [group groupRules errors warnings].
  split; [reflexivity|]. split; [reflexivity|]. split.
  - destruct (requiresConditions (validation config)); cbn [andb].
    + destruct (Nat.eqb_spec (conditionCount definition) 0) as [Hzero|Hpos].
      * split; [discriminate|]. intros [?|?]; [discriminate|lia].
      * split; [intros _; right; lia|reflexivity].
    + split; [now left|reflexivity].
  - destruct (Nat.ltb_spec (maxConditions (validation config)) (conditionCount definition)).
    + split; [discriminate|lia].
    + split; [intros _; assumption|reflexivity].
Qed.

(** X13.  Under [DEFAULT_VALIDATION_RULES] a definition with a name gets
    a result with one of the six groups.  It is reported for missing
    conditions exactly when it has no condition and its group is
    [hulpmerker], [storing] or [melding]; it is warned about too many
    conditions exactly when it has more than 20 conditions in
    [hulpmerker], more than 10 in [storing] or [melding], and as soon as
    it has one condition in [tijd], [teller] or [variabele]; it never
    gets both reports. *)
Theorem default_rules_reports {C} (definition : VariableDefinition C) :
  name definition <> [] ->
  exists result g,
    validateVariableDefinition definition DEFAULT_VALIDATION_RULES = Some result /\
    group result = Some g /\
    g ∈ map fst (groups DEFAULT_VALIDATION_RULES) /\
    (errors result = [] <->
     0 < conditionCount definition \/ g ∈ [js "tijd"; js "teller"; js "variabele"]) /\
    (warnings result = [] <->
     conditionCount definition <=
       (if bool_decide (g = js "hulpmerker") then 20
        else if bool_decide (g ∈ [js "storing"; js "melding"]) then 10 else 0)) /\
    (errors result = [] \/ warnings result = []).
Proof.
  intros Hname.
  assert (Hkey : firstGroup (name definition) (groups DEFAULT_VALIDATION_RULES)
                 ∈ map fst (groups DEFAULT_VALIDATION_RULES)).
  { destruct (firstGroup_key (name definition) (groups DEFAULT_VALIDATION_RULES))
      as [->|Hin]; [left|exact Hin]. }
  remember (firstGroup (name definition) (groups DEFAULT_VALIDATION_RULES)) as g eqn:Hg.
  symmetry in Hg.
  assert (Hcases :
    exists config, groupOf DEFAULT_VALIDATION_RULES g = Some config /\ g <> [] /\
      (requiresConditions (validation config) = false <->
       g ∈ [js "tijd"; js "teller"; js "variabele"]) /\
      maxConditions (validation config) =
        (if bool_decide (g = js "hulpmerker") then 20
         else if bool_decide (g ∈ [js "storing"; js "melding"]) then 10 else 0)).
  { cbn [map fst groups DEFAULT_VALIDATION_RULES] in Hkey.
    repeat (apply elem_of_cons in Hkey as [->|Hkey]);
      [exists hulpmerker|exists storing|exists melding|exists tijd|exists teller
      |exists variabele|now apply elem_of_nil in Hkey];
      (split; [reflexivity|]; split; [discriminate|]; split;
       [|vm_compute; reflexivity]);
      (split; [try discriminate; intros _; compute_done
              |try reflexivity; intros Hin; exfalso; revert Hin; compute_done]). }
  destruct Hcases as (config & Hconfig & Hne & Hrequires & Hmax).
  destruct (validate_in_group definition _ g config Hname Hg Hne Hconfig)
    as (result & Hresult & Hgroup & _ & Herrors & Hwarnings).
  exists result, g. split; [exact Hresult|]. split; [exact Hgroup|].
  split; [exact Hkey|]. rewrite <- Hmax.
  split; [rewrite Herrors, Hrequires; tauto|]. split; [exact Hwarnings|].
  destruct (Nat.eq_dec (conditionCount definition) 0) as [Hzero|Hpos].
  - right. apply Hwarnings. lia.
  - left. apply Herrors. right. lia.
Qed.

Lemma default_rules_reports_witness :
  let definition := MkVariableDefinition nat (js "TIJD = 5") (Some [7]) 3 in
  name definition <> [] /\
  exists result,
    validateVariableDefinition definition DEFAULT_VALIDATION_RULES = Some result /\
    group result = Some (js "tijd") /\ errors result = [] /\ warnings result <> [].
Proof.
  intros definition.
  assert (Hname : name definition <> []) by discriminate.
  split; [exact Hname|].
  destruct (default_rules_reports definition Hname)
    as (result & g & Hresult & Hgroup & _ & Herrors & Hwarnings & _).
  assert (Hg : g = js "tijd").
  { assert (H : validateVariableDefinition definition DEFAULT_VALIDATION_RULES <> None /\
                (group <$> validateVariableDefinition definition DEFAULT_VALIDATION_RULES)
                = Some (Some (js "tijd"))) by (split; [discriminate|vm_compute; reflexivity]).
    destruct H as [_ H]. rewrite Hresult in H.
    cbn [fmap option_fmap option_map] in H. injection H as H.
    rewrite Hgroup in H. now injection H. }
  exists result. subst g. split; [exact Hresult|]. split; [exact Hgroup|]. split.
  - apply Herrors. right. compute_done.
  - intros Hnone. apply Hwarnings in Hnone. revert Hnone. vm_compute. lia.
Defined.

End ReportFacts.

(* ===================================================================== *)
(** * Grouping of the conditions of a step *)
(* ===================================================================== *)

Module GroupFacts.
Import JsString RegExp ValidationRules StepValidation.

Lemma flatten_app (g1 g2 : list ConditionGroup) :
  flatten (g1 ++ g2) = flatten g1 ++ flatten g2.
Proof. apply flat_map_app. Qed.

(** A condition added to groups that are not empty. *)
Lemma addToGroups_later (groups : list ConditionGroup) (condition : Condition)
  (isOr : bool) :
  groups <> [] ->
  addToGroups groups condition isOr <> [] /\
  flatten (addToGroups groups condition isOr) = flatten groups ++ [condition] /\
  map operator (addToGroups groups condition isOr) =
    map operator groups ++ (if isOr then [OR] else []) /\
  (Forall (fun g => groupConditions g <> []) groups ->
   Forall (fun g => groupConditions g <> []) (addToGroups groups condition isOr)).
Proof.
  intros Hgroups. unfold addToGroups.
  destruct (exists_last Hgroups) as (init & lastGroup & ->).
  rewrite length_app. cbn [length].
  replace (0 <? length init + 1) with true by (symmetry; apply Nat.ltb_lt; lia).
  replace (length init + 1 =? 0) with false by (symmetry; apply Nat.eqb_neq; lia).
  destruct isOr; cbn [andb].
  - split; [now destruct init|]. split; [|split].
    + rewrite !flatten_app. cbn. now rewrite !app_nil_r.
    + now rewrite !map_app.
    + intros Hall. apply Forall_app. split; [exact Hall|].
      apply Forall_cons_2; [discriminate|apply Forall_nil_2].
  - replace (length init + 1 - 1) with (length init + 0) by lia.
    rewrite alter_app_r. cbn [alter list_alter].
    split; [now destruct init|]. split; [|split].
    + rewrite !flatten_app. cbn. rewrite !app_nil_r. now rewrite app_assoc.
    + rewrite !map_app. cbn. now rewrite app_nil_r.
    + intros [Hinit Hlast]%Forall_app. apply Forall_app. split; [exact Hinit|].
      apply Forall_cons_2; [|apply Forall_nil_2]. cbn. now destruct (groupConditions lastGroup).
Qed.

(** The first condition opens an AND group, with or without a plus. *)
Lemma addToGroups_first (condition : Condition) (isOr : bool) :
  addToGroups [] condition isOr = [MkGroup AND [condition]].
Proof. unfold addToGroups. cbn. now rewrite andb_false_r. Qed.

Lemma addToGroups_all (inputs : list (Condition * bool)) :
  forall groups, groups <> [] ->
  let groups' := fold_left (fun gs input => addToGroups gs (fst input) (snd input))
                           inputs groups in
  groups' <> [] /\
  flatten groups' = flatten groups ++ map fst inputs /\
  map operator groups' =
    map operator groups ++
    replicate (length (List.filter (fun input => snd input) inputs)) OR /\
  (Forall (fun g => groupConditions g <> []) groups ->
   Forall (fun g => groupConditions g <> []) groups').
Proof.
  induction inputs as [|[condition isOr] inputs IH]; intros groups Hgroups.
  - cbn. rewrite !app_nil_r. auto.
  - cbn [fold_left fst snd map List.filter].
    destruct (addToGroups_later groups condition isOr Hgroups)
      as (Hne & Hflat & Hops & Hall).
    destruct (IH _ Hne) as (IHne & IHflat & IHops & IHall). cbn zeta in *.
    split; [exact IHne|]. split; [|split].
    + rewrite IHflat, Hflat, <- app_assoc. reflexivity.
    + rewrite IHops, Hops, <- app_assoc. f_equal. now destruct isOr.
    + intros H. apply IHall, Hall, H.
Qed.

Lemma addToGroups_flatten (groups : list ConditionGroup) (condition : Condition)
  (isOr : bool) :
  flatten (addToGroups groups condition isOr) = flatten groups ++ [condition].
Proof.
  destruct groups as [|g groups]; [now rewrite addToGroups_first|].
  now apply addToGroups_later.
Qed.

Lemma entryConditions_addConditions (inputs : list (Condition * bool)) :
  forall step,
  step_entryConditions (addConditions step inputs) =
  fold_left (fun gs input => addToGroups gs (fst input) (snd input)) inputs
            (step_entryConditions step).
Proof.
  unfold addConditions. induction inputs as [|input inputs IH]; intros step; [reflexivity|].
  cbn [fold_left]. now rewrite IH.
Qed.

(** X14.  The condition lines that follow a step of the enhanced parser
    end up in its entry conditions in the order of the lines, none lost
    and none twice; no group is empty; the first group is an AND group,
    also when the first line carries a plus, and every later group is an
    OR group, one for each later line with a plus. *)
Theorem entry_conditions_grouped_in_order (step : ParsedStep)
  (inputs : list (Condition * bool)) :
  step_entryConditions step = [] ->
  let step' := addConditions step inputs in
  flatten (step_entryConditions step') = map fst inputs /\
  Forall (fun g => groupConditions g <> []) (step_entryConditions step') /\
  map operator (step_entryConditions step') =
    match inputs with
    | [] => []
    | _ :: later =>
        AND :: replicate (length (List.filter (fun input => snd input) later)) OR
    end.
Proof.
  intros Hempty step'. unfold step'. rewrite entryConditions_addConditions, Hempty.
  destruct inputs as [|[condition isOr] later]; [repeat split; constructor|].
  cbn [fold_left fst snd]. rewrite addToGroups_first.
  destruct (addToGroups_all later [MkGroup AND [condition]]) as (_ & Hflat & Hops & Hall);
    [discriminate|]. cbn zeta in *.
  split; [exact Hflat|]. split; [|exact Hops].
  apply Hall. apply Forall_cons_2; [discriminate|apply Forall_nil_2].
Qed.

Lemma entry_conditions_grouped_in_order_witness :
  let step := MkParsedStep (js "SCHRITT") 1 [] [] [] [] [] [] 1 in
  let a := MkCondition (js "a") false None 2 true in
  let b := MkCondition (js "b") false None 3 false in
  let c := MkCondition (js "c") false None 4 true in
  step_entryConditions step = [] /\
  step_entryConditions (addConditions step [(a, true); (b, false); (c, true)]) =
    [MkGroup AND [a; b]; MkGroup OR [c]] /\
  map operator (step_entryConditions (addConditions step [(a, true); (b, false); (c, true)]))
    = [AND; OR].
Proof.
  intros step a b c.
  assert (H : step_entryConditions step = []) by reflexivity.
  split; [exact H|]. split; [reflexivity|].
  exact (proj2 (proj2 (entry_conditions_grouped_in_order step
                         [(a, true); (b, false); (c, true)] H))).
Defined.

(** X15.  The base parser keeps its two views of the conditions of a
    step in agreement: when the flat list holds the texts of the grouped
    conditions, it still does after any number of added conditions, and
    the texts of the added conditions follow the earlier ones in the
    order of the calls. *)
Theorem base_views_agree (step : ParsedStep) (inputs : list (Condition * bool)) :
  step_conditions step = map cond_text (flatten (step_transitionConditions step)) ->
  let step' := baseAddConditions step inputs in
  step_conditions step' = map cond_text (flatten (step_transitionConditions step')) /\
  step_conditions step' =
    step_conditions step ++ map (fun input => cond_text (fst input)) inputs.
Proof.
  unfold baseAddConditions. revert step.
  induction inputs as [|[condition isOr] inputs IH]; intros step Hstep.
  - cbn. now rewrite app_nil_r.
  - cbn [fold_left fst snd map].
    destruct (IH (baseAddConditionToStep step condition isOr)) as [IHagree IHtexts].
    { cbn [baseAddConditionToStep step_conditions step_transitionConditions].
      now rewrite addToGroups_flatten, map_app, Hstep. }
    cbn zeta in *. split; [exact IHagree|].
    rewrite IHtexts. cbn [baseAddConditionToStep step_conditions].
    now rewrite <- app_assoc.
Qed.

Lemma base_views_agree_witness :
  let step := MkParsedStep (js "STAP") 1 [] [] [] [] [] [] 1 in
  let a := MkCondition (js "a") false None 2 true in
  let b := MkCondition (js "b") false None 3 false in
  step_conditions step = map cond_text (flatten (step_transitionConditions step)) /\
  step_conditions (baseAddConditions step [(a, true); (b, false)]) = [js "a"; js "b"].
Proof.
  intros step a b.
  assert (H : step_conditions step =
              map cond_text (flatten (step_transitionConditions step))) by reflexivity.
  split; [exact H|].
  exact (proj2 (base_views_agree step [(a, true); (b, false)] H)).
Defined.

End GroupFacts.

(* ===================================================================== *)
(** * Consistency of the step numbers *)
(* ===================================================================== *)

Module ConsistencyFacts.
Import JsString RegExp ValidationRules StepValidation.

(** ** Duplicates *)

Lemma duplicateErrors_spec (todo : list ParsedStep) : forall (seen : list Z) (issue : Issue),
  issue ∈ duplicateErrors seen todo <->
  exists i step,
    todo !! i = Some step /\ isSchritt step = true /\ issue = duplicateStep step /\
    (step_number step ∈ seen \/
     exists j earlier, j < i /\ todo !! j = Some earlier /\ isSchritt earlier = true /\
                       step_number earlier = step_number step).
Proof.
  induction todo as [|step todo IH]; intros seen issue; cbn [duplicateErrors].
  - split; [now intros ?%elem_of_nil|]. now intros (i & s & Hi & _).
  - destruct (isSchritt step) eqn:Hschritt.
    + rewrite elem_of_app, IH. split.
      * intros [Hhere|(i & s & Hi & Hs & -> & Hseen)].
        -- case_bool_decide as Hin; [|now apply elem_of_nil in Hhere].
           apply list_elem_of_singleton in Hhere as ->.
           exists 0, step. repeat split; try assumption. now left.
        -- exists (S i), s. repeat split; try assumption.
           destruct Hseen as [[Heq|Hin]%elem_of_cons|(j & e & Hj & He & Hse & Hnum)].
           ++ right. exists 0, step. split; [lia|]. split; [reflexivity|].
              split; [assumption|congruence].
           ++ now left.
           ++ right. exists (S j), e. (split; [lia|]); repeat split; assumption.
      * intros ([|i] & s & Hi & Hs & -> & Hseen).
        -- injection Hi as <-. left.
           destruct Hseen as [Hin|(j & e & Hj & _)]; [|lia].
           rewrite bool_decide_eq_true_2 by assumption. left.
        -- right. exists i, s. cbn in Hi. repeat split; try assumption.
           destruct Hseen as [Hin|([|j] & e & Hj & He & Hse & Hnum)].
           ++ left. now right.
           ++ injection He as <-. left. rewrite Hnum. left.
           ++ right. exists j, e. cbn in He. (split; [lia|]); repeat split; assumption.
    + rewrite IH. split.
      * intros (i & s & Hi & Hs & -> & Hseen). exists (S i), s.
        repeat split; try assumption.
        destruct Hseen as [Hin|(j & e & Hj & He & Hse & Hnum)]; [now left|right].
        exists (S j), e. (split; [lia|]); repeat split; assumption.
      * intros ([|i] & s & Hi & Hs & -> & Hseen).
        -- injection Hi as <-. congruence.
        -- exists i, s. cbn in Hi. repeat split; try assumption.
           destruct Hseen as [Hin|([|j] & e & Hj & He & Hse & Hnum)]; [now left| |].
           ++ injection He as <-. congruence.
           ++ right. exists j, e. cbn in He. (split; [lia|]); repeat split; assumption.
Qed.

Lemma duplicateErrors_none (todo : list ParsedStep) : forall seen : list Z,
  duplicateErrors seen todo = [] <->
  NoDup (map step_number (List.filter isSchritt todo)) /\
  Forall (fun n => n ∉ seen) (map step_number (List.filter isSchritt todo)).
Proof.
  induction todo as [|step todo IH]; intros seen; cbn [duplicateErrors List.filter map].
  - split; [intros _; split; constructor|reflexivity].
  - destruct (isSchritt step); [|apply IH].
    cbn [map]. rewrite NoDup_cons, Forall_cons. split.
    + intros [Hhere Hrest]%app_eq_nil. apply IH in Hrest as [Hnodup Hseen].
      case_bool_decide as Hin; [discriminate|].
      rewrite Forall_forall in Hseen. repeat split; try assumption.
      * intros Hdup. apply (Hseen _ Hdup). left.
      * apply Forall_forall. intros n Hn Hn'. apply (Hseen n Hn). now right.
    + intros ([Hfresh Hnodup] & Hhere & Hseen).
      rewrite bool_decide_eq_false_2 by assumption. cbn [app]. apply IH.
      split; [assumption|]. rewrite Forall_forall in *.
      intros n Hn [->|Hin]%elem_of_cons; [contradiction|]. now apply (Hseen n).
Qed.

Lemma vonErrors_type (all : list ParsedStep) (issue : Issue) :
  issue ∈ vonErrors all -> type issue = js "INVALID_VON_SCHRITT".
Proof.
  unfold vonErrors. intros Hin.
  apply list_elem_of_In, in_flat_map in Hin as (step & _ & Hin).
  apply in_flat_map in Hin as (transition & _ & Hin).
  destruct (find _ all); [contradiction|]. now destruct Hin as [<-|[]].
Qed.

Lemma duplicateErrors_type (todo : list ParsedStep) (seen : list Z) (issue : Issue) :
  issue ∈ duplicateErrors seen todo -> type issue = js "DUPLICATE_STEP".
Proof. intros (i & step & _ & _ & -> & _)%duplicateErrors_spec. reflexivity. Qed.

(** X16.  [validateStepLogicConsistency] leaves the steps and the
    earlier errors as they are.  Among the errors it adds, the
    DUPLICATE_STEP errors are those of the steps of type SCHRITT whose
    number is the number of an earlier step of type SCHRITT, each with
    the line of the later step; so there is none exactly when the
    numbers of these steps are pairwise distinct. *)
Theorem duplicate_steps_are_reported (result : Result) :
  steps (validateStepLogicConsistency result) = steps result /\
  exists added,
    errors (validateStepLogicConsistency result) = errors result ++ added /\
    (forall issue,
       issue ∈ added /\ type issue = js "DUPLICATE_STEP" <->
       exists i step, repeats (steps result) i step /\ issue = duplicateStep step) /\
    (Forall (fun issue => type issue <> js "DUPLICATE_STEP") added <->
     NoDup (map step_number (List.filter isSchritt (steps result)))).
Proof.
  split; [reflexivity|].
  exists (duplicateErrors [] (steps result) ++ vonErrors (steps result)).
  split; [reflexivity|]. split.
  - intros issue. rewrite elem_of_app. split.
    + intros [[Hdup|Hvon] Htype].
      * apply duplicateErrors_spec in Hdup as (i & step & Hi & Hs & -> & Hseen).
        exists i, step. split; [|reflexivity].
        destruct Hseen as [Hin|Hearlier]; [now apply elem_of_nil in Hin|].
        now repeat split.
      * apply vonErrors_type in Hvon. rewrite Hvon in Htype. discriminate.
    + intros (i & step & (Hi & Hs & Hearlier) & ->). split; [|reflexivity].
      left. apply duplicateErrors_spec. exists i, step. repeat split; try assumption.
      now right.
  - rewrite Forall_app. split.
    + intros [Hdup _].
      destruct (duplicateErrors [] (steps result)) as [|issue rest] eqn:Herrors.
      * now apply duplicateErrors_none in Herrors as [? _].
      * exfalso. apply Forall_cons in Hdup as [Hissue _]. apply Hissue.
        apply (duplicateErrors_type (steps result) []). rewrite Herrors. left.
    + intros Hnodup. split.
      * replace (duplicateErrors [] (steps result)) with (@nil Issue); [constructor|].
        symmetry. apply duplicateErrors_none. split; [assumption|].
        apply Forall_forall. intros n _ ?%elem_of_nil. assumption.
      * apply Forall_forall. intros issue Hin%vonErrors_type. rewrite Hin. discriminate.
Qed.

(** ** Gaps *)











(** ** References to steps *)

Lemma vonErrors_spec (all : list ParsedStep) (issue : Issue) :
  issue ∈ vonErrors all <->
  exists step transition,
    step ∈ all /\ transition ∈ step_transitions step /\
    Forall (fun s => step_number s <> fromStep transition) all /\
    issue = invalidVonSchritt step transition.
Proof.
  unfold vonErrors. rewrite list_elem_of_In, in_flat_map. split.
  - intros (step & Hstep & Hin). apply in_flat_map in Hin as (transition & Htransition & Hin).
    destruct (find _ all) eqn:Hfind; [contradiction|]. destruct Hin as [<-|[]].
    exists step, transition. rewrite !list_elem_of_In. repeat split; try assumption.
    apply Forall_forall. intros s Hs%list_elem_of_In.
    apply (find_none _ _ Hfind) in Hs. now apply Z.eqb_neq in Hs.
  - intros (step & transition & Hstep & Htransition & Hnone & ->).
    exists step. rewrite <- list_elem_of_In. split; [assumption|].
    apply in_flat_map. exists transition. rewrite <- list_elem_of_In.
    split; [assumption|].
    destruct (find _ all) as [s|] eqn:Hfind; [|now left].
    apply find_some in Hfind as [Hs%list_elem_of_In Heq%Z.eqb_eq].
    rewrite Forall_forall in Hnone. now apply Hnone in Hs.
Qed.

(** X18.  A VON SCHRITT declaration is reported as INVALID_VON_SCHRITT,
    with the line of the step that carries it, exactly when no step of
    the result, of whatever type and position, has the number it names;
    [validateStepLogicConsistency] adds no error of any other kind than
    this one and DUPLICATE_STEP. *)
Theorem von_schritt_references_are_checked (result : Result) :
  exists added,
    errors (validateStepLogicConsistency result) = errors result ++ added /\
    (forall issue,
       issue ∈ added /\ type issue = js "INVALID_VON_SCHRITT" <->
       exists step transition,
         step ∈ steps result /\ transition ∈ step_transitions step /\
         Forall (fun s => step_number s <> fromStep transition) (steps result) /\
         issue = invalidVonSchritt step transition) /\
    Forall (fun issue => type issue = js "DUPLICATE_STEP" \/
                         type issue = js "INVALID_VON_SCHRITT") added.
Proof.
  exists (duplicateErrors [] (steps result) ++ vonErrors (steps result)).
  split; [reflexivity|]. split.
  - intros issue. rewrite <- vonErrors_spec, elem_of_app. split.
    + intros [[Hdup|Hvon] Htype]; [|exact Hvon].
      apply duplicateErrors_type in Hdup. rewrite Hdup in Htype. discriminate.
    + intros Hvon. split; [now right|now apply vonErrors_type in Hvon].
  - apply Forall_app. split; apply Forall_forall; intros issue Hin.
    + left. now apply duplicateErrors_type in Hin.
    + right. now apply vonErrors_type in Hin.
Qed.

End ConsistencyFacts.

(* ===================================================================== *)
(** * Line breaks at the ends of the normalized text *)
(* ===================================================================== *)

Module EndsFacts.
Import JsString RegExp Positions Normalizer Ends PositionsFacts ReplaceFacts PlainTextFacts.

Lemma dropCaps_nil (cs : list (nat * jsstring)) : dropCaps [] cs = cs.
Proof.
  unfold dropCaps. induction cs as [|e cs IH]; [reflexivity|].
  rewrite filter_cons. destruct (decide _) as [_|Hin]; [now rewrite IH|].
  exfalso. apply Hin. apply not_elem_of_nil.
Qed.

(** One turn of a greedy loop without upper bound over a pattern that
    reads one character. *)
Lemma greedy_turn (f : flags) (r : regex) (acc : N -> bool) (min : nat)
  (k : mstate -> option mstate) (fuel count : nat) (s : jsstring) (p : option N)
  (cs : list (nat * jsstring)) :
  Single f r acc ->
  repeatLoop (m f r) [] min None true k (S fuel) count (MState s p cs) =
  let leave := if bool_decide (min <= count) then k (MState s p cs) else None in
  match s with
  | c :: s' =>
      if acc c then
        match repeatLoop (m f r) [] min None true k fuel (S count) (MState s' (Some c) cs) with
        | Some res => Some res
        | None => leave
        end
      else leave
  | [] => leave
  end.
Proof.
  intros Hsingle. rewrite repeatLoop_S. cbn zeta. cbn [belowMax rest prev caps].
  rewrite Hsingle, dropCaps_nil. destruct s as [|c s']; [reflexivity|].
  destruct (acc c); [|reflexivity]. cbn [rest length].
  rewrite (bool_decide_eq_false_2 (length s' = S (length s'))) by lia.
  now rewrite andb_false_r.
Qed.

Lemma isBreak_char (c : N) : charMatches noFlags 10 c = isBreak c.
Proof. reflexivity. Qed.

(** The breaks at the start: [^\n+]. *)
Lemma leading_loop (s : jsstring) : forall fuel count p cs,
  length s < fuel ->
  exists p',
    repeatLoop (m noFlags (Char 10)) [] 1 None true Some fuel count (MState s p cs) =
    if (0 <? count) || match s with c :: _ => isBreak c | [] => false end
    then Some (MState (dropBreaks s) p' cs) else None.
Proof.
  induction s as [|c s IH]; intros fuel count p cs Hfuel;
    (destruct fuel as [|fuel]; [lia|]);
    rewrite (greedy_turn _ _ _ _ _ _ _ _ _ _ (single_Char noFlags 10)); cbn zeta.
  - exists p. rewrite orb_false_r. destruct count; [reflexivity|].
    rewrite bool_decide_eq_true_2 by lia. reflexivity.
  - rewrite isBreak_char. cbn [dropBreaks]. destruct (isBreak c).
    + destruct (IH fuel (S count) (Some c) cs) as [p' ->]; [cbn in Hfuel; lia|].
      exists p'. cbn [Nat.ltb Nat.leb orb]. now rewrite orb_true_r.
    + exists p. rewrite orb_false_r. destruct count; [reflexivity|].
      rewrite bool_decide_eq_true_2 by lia. reflexivity.
Qed.

Lemma search_bol (r : regex) (s : jsstring) : forall skipped c,
  search noFlags (Seq Bol r) skipped (Some c) s = None.
Proof.
  induction s as [|d s IH]; intros skipped c; cbn [search]; unfold matchHere;
    rewrite m_Seq, m_Bol; cbn [prev multiline noFlags andb]; [reflexivity|apply IH].
Qed.

Lemma replace_leading (s : jsstring) :
  replaceWith noFlags (Seq Bol (Plus (Char 10))) [] s = dropBreaks s.
Proof.
  unfold replaceWith, replace. cbn [replaceFrom].
  assert (Hhere : matchHere noFlags (Seq Bol (Plus (Char 10))) None s =
                  if match s with c :: _ => isBreak c | [] => false end
                  then Some (take (length s - length (dropBreaks s)) s, [], dropBreaks s)
                  else None).
  { unfold matchHere. rewrite m_Seq, m_Bol. cbn [prev]. unfold Plus. rewrite m_Repeat.
    cbn [groupsOf rest].
    destruct (leading_loop s (S (1 + length s)) 0 None []) as [p' ->]; [lia|].
    cbn [Nat.ltb Nat.leb orb]. now destruct (match s with c :: _ => isBreak c | [] => false end). }
  destruct s as [|c s]; cbn [search]; rewrite Hhere.
  - reflexivity.
  - cbn [dropBreaks]. destruct (isBreak c); [reflexivity|].
    now rewrite search_bol.
Qed.

(** The breaks at the end: [\n+$]. *)
Lemma trailing_loop (s : jsstring) : forall fuel count p cs,
  length s < fuel ->
  exists p',
    repeatLoop (m noFlags (Char 10)) [] 1 None true (fun st' => m noFlags Eol Some st')
      fuel count (MState s p cs) =
    if forallb isBreak s && ((0 <? count) || negb (isEmpty s))
    then Some (MState [] p' cs) else None.
Proof.
  induction s as [|c s IH]; intros fuel count p cs Hfuel;
    (destruct fuel as [|fuel]; [lia|]);
    rewrite (greedy_turn _ _ _ _ _ _ _ _ _ _ (single_Char noFlags 10)); cbn zeta;
    rewrite m_Eol; cbn [rest multiline noFlags andb forallb isEmpty negb].
  - exists p. rewrite orb_false_r. destruct count; [reflexivity|].
    rewrite bool_decide_eq_true_2 by lia. reflexivity.
  - rewrite isBreak_char, orb_true_r, andb_true_r. destruct (isBreak c); cbn [andb].
    + destruct (IH fuel (S count) (Some c) cs) as [p' ->]; [cbn in Hfuel; lia|].
      exists p'. cbn [Nat.ltb Nat.leb orb]. rewrite andb_true_r.
      destruct (forallb isBreak s); [reflexivity|]. now destruct (bool_decide _).
    + exists p. now destruct (bool_decide _).
Qed.

Lemma matchHere_trailing (p : option N) (s : jsstring) :
  matchHere noFlags (Seq (Plus (Char 10)) Eol) p s =
  if forallb isBreak s && negb (isEmpty s) then Some (s, [], []) else None.
Proof.
  unfold matchHere. rewrite m_Seq. unfold Plus. rewrite m_Repeat. cbn [groupsOf rest].
  destruct (trailing_loop s (S (1 + length s)) 0 p []) as [p' ->]; [lia|].
  cbn [Nat.ltb Nat.leb orb].
  destruct (forallb isBreak s && negb (isEmpty s)); [|reflexivity].
  cbn [rest caps length]. now rewrite Nat.sub_0_r, firstn_all.
Qed.

Lemma chomp_cons (c : N) (s : jsstring) :
  chomp (c :: s) = if forallb isBreak (c :: s) then [] else c :: chomp s.
Proof. reflexivity. Qed.

Lemma search_trailing (s : jsstring) : forall skipped p,
  match search noFlags (Seq (Plus (Char 10)) Eol) skipped p s with
  | Some mr => before mr ++ RegExp.after mr = rev skipped ++ chomp s
  | None => chomp s = s
  end.
Proof.
  induction s as [|c s IH]; intros skipped p; cbn [search]; rewrite matchHere_trailing.
  - reflexivity.
  - rewrite chomp_cons. cbn [isEmpty negb]. rewrite andb_true_r.
    destruct (forallb isBreak (c :: s)); [reflexivity|].
    specialize (IH (c :: skipped) (Some c)).
    destruct (search _ _ _ _ s) as [mr|].
    + rewrite IH. cbn [rev]. now rewrite <- app_assoc.
    + now rewrite IH.
Qed.

Lemma replace_trailing (s : jsstring) :
  replaceWith noFlags (Seq (Plus (Char 10)) Eol) [] s = chomp s.
Proof.
  unfold replaceWith, replace. cbn [replaceFrom global noFlags].
  pose proof (search_trailing s [] None) as Hsearch.
  destruct (search _ _ _ _ s) as [mr|]; [exact Hsearch|now symmetry].
Qed.

Lemma chomp_nil (s : jsstring) : chomp s = [] -> forallb isBreak s = true.
Proof.
  destruct s as [|c s]; [reflexivity|]. rewrite chomp_cons.
  now destruct (forallb isBreak (c :: s)).
Qed.

Lemma last_chomp (s : jsstring) : last (chomp s) <> Some newline.
Proof.
  induction s as [|c s IH]; [discriminate|].
  rewrite chomp_cons. destruct (forallb isBreak (c :: s)) eqn:Hall; [discriminate|].
  destruct (chomp s) as [|d rest] eqn:Hchomp; [|exact IH].
  apply chomp_nil in Hchomp. cbn [forallb] in Hall. rewrite Hchomp, andb_true_r in Hall.
  cbn [last]. intros [= ->]. discriminate.
Qed.

Lemma head_chomp (s : jsstring) : head s <> Some newline -> head (chomp s) <> Some newline.
Proof.
  destruct s as [|c s]; [discriminate|]. rewrite chomp_cons.
  now destruct (forallb isBreak (c :: s)).
Qed.

Lemma head_dropBreaks (s : jsstring) : head (dropBreaks s) <> Some newline.
Proof.
  induction s as [|c s IH]; [discriminate|]. cbn [dropBreaks].
  destruct (isBreak c) eqn:Hc; [exact IH|]. cbn [head]. intros [= ->]. discriminate.
Qed.

(** X19.  Whatever the text and the source, the normalized text neither
    starts nor ends with a line break: the last two replacements of
    [applyConsistencyRules] remove the line breaks at the start and then
    those at the end. *)
Theorem normalizeText_trims_line_breaks (text : jsstring) :
  trimmedOfBreaks (applyConsistencyRules text) /\
  forall source, trimmedOfBreaks (normalizeText text source).
Proof.
  assert (Hrules : forall t, trimmedOfBreaks (applyConsistencyRules t)).
  { intros t. unfold applyConsistencyRules. rewrite replace_trailing, replace_leading.
    split; [apply head_chomp, head_dropBreaks|apply last_chomp]. }
  split; [apply Hrules|]. intros source. unfold normalizeText. apply Hrules.
Qed.

End EndsFacts.

(* ===================================================================== *)
(** * White space at the ends of the lines *)
(* ===================================================================== *)

Module WhitespaceFacts.
Import JsString RegExp Positions Normalizer Ends PositionsFacts ReplaceFacts PlainTextFacts
       EndsFacts.

Lemma space_class (c : N) : classMatches noFlags false spaceRanges c = isSpace c.
Proof. unfold classMatches, isSpace. cbn [ignoreCase noFlags]. now destruct (inRanges _ _). Qed.

Lemma leading_space_loop (s : jsstring) : forall fuel count p cs,
  length s < fuel ->
  exists p',
    repeatLoop (m noFlags Space) [] 0 None true Some fuel count (MState s p cs) =
    Some (MState (trimStart s) p' cs).
Proof.
  induction s as [|c s IH]; intros fuel count p cs Hfuel;
    (destruct fuel as [|fuel]; [lia|]); unfold Space;
    rewrite (greedy_turn _ _ _ _ _ _ _ _ _ _ (single_Class noFlags false spaceRanges));
    cbn zeta; rewrite (bool_decide_eq_true_2 (0 <= count)) by lia.
  - now exists p.
  - rewrite space_class. cbn [trimStart]. destruct (isSpace c); [|now exists p].
    destruct (IH fuel (S count) (Some c) cs) as [p' Hloop]; [cbn in Hfuel; lia|].
    unfold Space in Hloop. rewrite Hloop. now exists p'.
Qed.

Lemma length_trimStart (s : jsstring) : length (trimStart s) <= length s.
Proof.
  induction s as [|c s IH]; [reflexivity|]. cbn [trimStart].
  destruct (isSpace c); cbn [length]; lia.
Qed.

Lemma leadingWhitespace_trimStart (line : jsstring) :
  matchedText noFlags (Seq Bol (Star Space)) line ++ trimStart line = line.
Proof.
  unfold matchedText, exec.
  assert (Hhere : matchHere noFlags (Seq Bol (Star Space)) None line =
                  Some (take (length line - length (trimStart line)) line, [],
                        trimStart line)).
  { unfold matchHere. rewrite m_Seq, m_Bol. cbn [prev]. unfold Star, Space.
    rewrite m_Repeat. cbn [groupsOf rest Nat.add].
    destruct (leading_space_loop line (S (length line)) 0 None []) as [p' Hloop]; [lia|].
    unfold Space in Hloop. now rewrite Hloop. }
  assert (Hmatched : match search noFlags (Seq Bol (Star Space)) [] None line with
                     | Some mr => matched mr
                     | None => []
                     end = take (length line - length (trimStart line)) line).
  { destruct line as [|c s]; cbn [search]; now rewrite Hhere. }
  rewrite Hmatched. clear Hhere Hmatched.
  induction line as [|c s IH]; [reflexivity|]. cbn [trimStart].
  destruct (isSpace c).
  - pose proof (length_trimStart s).
    replace (length (c :: s) - length (trimStart s))
      with (S (length s - length (trimStart s))) by (cbn [length]; lia).
    cbn [take app]. now rewrite IH.
  - now rewrite Nat.sub_diag.
Qed.

Lemma trimStart_app (u v : jsstring) :
  trimStart (u ++ v) = if forallb isSpace u then trimStart v else trimStart u ++ v.
Proof.
  induction u as [|c u IH]; [reflexivity|]. cbn [app trimStart forallb].
  destruct (isSpace c); [exact IH|reflexivity].
Qed.

Lemma trimStart_nil (s : jsstring) : trimStart s = [] <-> forallb isSpace s = true.
Proof.
  induction s as [|c s IH]; [easy|]. cbn [trimStart forallb].
  destruct (isSpace c); [exact IH|easy].
Qed.

Lemma forallb_rev (P : N -> bool) (s : jsstring) : forallb P (rev s) = forallb P s.
Proof.
  induction s as [|c s IH]; [reflexivity|]. cbn [rev forallb].
  rewrite forallb_app, IH. cbn [forallb]. rewrite andb_true_r. apply andb_comm.
Qed.

Lemma trimStart_spaces (s : jsstring) : forallb isSpace (trimStart s) = true -> trimStart s = [].
Proof.
  induction s as [|c s IH]; [reflexivity|]. cbn [trimStart].
  destruct (isSpace c) eqn:Hc; [exact IH|]. cbn [forallb]. now rewrite Hc.
Qed.

(** What [removeExtraWhitespace] makes of one line. *)
Lemma line_trimEnd (line : jsstring) :
  (if isEmpty (trim line) then []
   else matchedText noFlags (Seq Bol (Star Space)) line ++ trim line) = trimEnd line.
Proof.
  pose proof (leadingWhitespace_trimStart line) as Hline.
  set (leading := matchedText noFlags (Seq Bol (Star Space)) line) in *.
  unfold trim. rewrite <- Hline at 3. unfold trimEnd at 3.
  rewrite rev_app_distr, trimStart_app.
  destruct (forallb isSpace (rev (trimStart line))) eqn:Hspaces.
  - rewrite forallb_rev in Hspaces. apply trimStart_spaces in Hspaces.
    rewrite Hspaces in *. cbn [trimEnd rev trimStart isEmpty]. rewrite app_nil_r in Hline.
    symmetry. change [] with (rev (@nil N)). f_equal. apply trimStart_nil.
    rewrite forallb_rev. apply trimStart_nil.
    assert (Hall : trimStart (leading ++ []) = []) by (rewrite app_nil_r, Hline; exact Hspaces).
    now rewrite app_nil_r in Hall.
  - rewrite rev_app_distr, rev_involutive. unfold trimEnd.
    destruct (rev (trimStart (rev (trimStart line)))) as [|c rest] eqn:Hrev; [|reflexivity].
    exfalso. apply (f_equal (@rev N)) in Hrev. rewrite rev_involutive in Hrev.
    cbn [rev] in Hrev. apply trimStart_nil in Hrev. congruence.
Qed.

Lemma removeExtraWhitespace_lines (text : jsstring) :
  removeExtraWhitespace text = unlines (map trimEnd (lines text)).
Proof.
  unfold removeExtraWhitespace. f_equal. apply map_ext. intros line. apply line_trimEnd.
Qed.

Lemma split_unbroken (l : jsstring) :
  newline ∉ l -> split newline l = [l].
Proof.
  induction l as [|c l IH]; [reflexivity|]. intros [Hc Hl]%not_elem_of_cons.
  cbn [split]. rewrite (IH Hl). destruct (N.eqb_spec c newline); [congruence|reflexivity].
Qed.

Lemma split_app_break (l r : jsstring) :
  newline ∉ l -> split newline (l ++ newline :: r) = l :: split newline r.
Proof.
  induction l as [|c l IH]; intros Hl.
  - cbn [app split]. now rewrite N.eqb_refl.
  - apply not_elem_of_cons in Hl as [Hc Hl]. cbn [app split]. rewrite (IH Hl).
    destruct (N.eqb_spec c newline); [congruence|reflexivity].
Qed.

Lemma lines_unlines (ls : list jsstring) :
  ls <> [] -> Forall (fun l => newline ∉ l) ls -> lines (unlines ls) = ls.
Proof.
  unfold lines, unlines. intros Hne Hls. induction Hls as [|l ls Hl Hls IH]; [done|].
  destruct ls as [|l' ls]; [now apply split_unbroken|].
  rewrite join_cons. cbn [app]. rewrite (split_app_break _ _ Hl). f_equal.
  now apply IH.
Qed.

Lemma lines_unbroken (text : jsstring) :
  lines text <> [] /\ Forall (fun l => newline ∉ l) (lines text).
Proof.
  unfold lines. induction text as [|c text [_ IH]].
  - split; [discriminate|]. apply Forall_cons_2; [apply not_elem_of_nil|apply Forall_nil_2].
  - destruct (split_cons newline c text) as (l & ls & Hsplit & ->).
    rewrite Hsplit in IH. apply Forall_cons in IH as [Hl Hls].
    destruct (N.eqb_spec c newline) as [->|Hc]; (split; [discriminate|]).
    + apply Forall_cons_2; [apply not_elem_of_nil|now apply Forall_cons_2].
    + apply Forall_cons_2; [|exact Hls]. apply not_elem_of_cons. split; [congruence|exact Hl].
Qed.

Lemma elem_of_trimStart (c : N) (s : jsstring) : c ∈ trimStart s -> c ∈ s.
Proof.
  induction s as [|d s IH]; [easy|]. cbn [trimStart].
  destruct (isSpace d); [|easy]. intros Hc. right. now apply IH.
Qed.

Lemma elem_of_trimEnd (c : N) (s : jsstring) : c ∈ trimEnd s -> c ∈ s.
Proof.
  unfold trimEnd. rewrite !list_elem_of_In, <- in_rev, <- !list_elem_of_In.
  intros Hc%elem_of_trimStart. now apply list_elem_of_In, in_rev, list_elem_of_In in Hc.
Qed.

Lemma trimStart_idemp (s : jsstring) : trimStart (trimStart s) = trimStart s.
Proof.
  induction s as [|c s IH]; [reflexivity|]. cbn [trimStart].
  destruct (isSpace c) eqn:Hc; [exact IH|]. cbn [trimStart]. now rewrite Hc.
Qed.

Lemma trimEnd_idemp (s : jsstring) : trimEnd (trimEnd s) = trimEnd s.
Proof. unfold trimEnd. now rewrite rev_involutive, trimStart_idemp. Qed.

Lemma last_trimEnd (s : jsstring) (c : N) : last (trimEnd s) = Some c -> isSpace c = false.
Proof.
  unfold trimEnd. generalize (rev s) as t. intros t.
  induction t as [|d t IH]; [discriminate|]. cbn [trimStart].
  destruct (isSpace d) eqn:Hd; [exact IH|]. cbn [rev]. rewrite last_snoc.
  now intros [= <-].
Qed.

(** X20.  [removeExtraWhitespace] removes the white space at the end of
    every line and nothing else: the lines of the result are the lines
    of the text without their trailing white space, so the number of
    lines and the indentation are kept, no line of the result ends with
    white space, and applying the function twice is applying it once. *)
Theorem removeExtraWhitespace_trims_line_ends (text : jsstring) :
  lines (removeExtraWhitespace text) = map trimEnd (lines text) /\
  Forall (fun line => forall c, last line = Some c -> isSpace c = false)
         (lines (removeExtraWhitespace text)) /\
  removeExtraWhitespace (removeExtraWhitespace text) = removeExtraWhitespace text.
Proof.
  assert (Hlines : lines (removeExtraWhitespace text) = map trimEnd (lines text)).
  { rewrite removeExtraWhitespace_lines. destruct (lines_unbroken text) as [Hne Hall].
    apply lines_unlines; [now destruct (lines text)|].
    apply Forall_forall. intros l (l0 & -> & Hl0)%list_elem_of_fmap Hin%elem_of_trimEnd.
    rewrite Forall_forall in Hall. now apply (Hall l0). }
  split; [exact Hlines|]. split.
  - rewrite Hlines. apply Forall_forall.
    intros l (l0 & -> & _)%list_elem_of_fmap c. apply last_trimEnd.
  - rewrite (removeExtraWhitespace_lines (removeExtraWhitespace text)), Hlines.
    rewrite removeExtraWhitespace_lines, map_map. f_equal. apply map_ext.
    intros l. apply trimEnd_idemp.
Qed.

End WhitespaceFacts.

(* ===================================================================== *)
(** * A match holds characters of the text only *)
(* ===================================================================== *)

Module AlphabetFacts.
Import JsString RegExp Positions Normalizer Encoding Alphabet PositionsFacts CharacterFacts.

Section Within.
Variable A : N -> Prop.

Lemma within_advance (st st' : mstate) (c : N) :
  stateWithin A st -> advance st = Some (c, st') -> stateWithin A st'.
Proof.
  intros [Hrest Hcaps]. unfold advance. destruct (rest st) as [|d s] eqn:Hst; [discriminate|].
  intros [= <- <-]. split; [|exact Hcaps]. cbn [rest]. now apply Forall_cons in Hrest as [_ ?].
Qed.

Lemma within_dropCaps (ids : list nat) (cs : list (nat * jsstring)) :
  Forall (fun g => Forall A (snd g)) cs ->
  Forall (fun g => Forall A (snd g)) (dropCaps ids cs).
Proof.
  intros Hcs. unfold dropCaps. apply Forall_forall. intros g [_ Hg]%list_elem_of_filter.
  rewrite Forall_forall in Hcs. now apply Hcs.
Qed.

Lemma within_consumed (st st' : mstate) : stateWithin A st -> Forall A (consumed st st').
Proof. intros [Hrest _]. unfold consumed. now apply Forall_take. Qed.

(** The matcher hands to its continuation a state within [A] when it
    starts from one. *)
Lemma m_within (f : flags) (r : regex) :
  forall k st res, m f r k st = Some res -> stateWithin A st ->
  exists st1, stateWithin A st1 /\ k st1 = Some res.
Proof.
  induction r as [|lit| |negated rs|r1 IH1 r2 IH2|r1 IH1 r2 IH2
                  |r' IH min max greedy|i r' IH| | | |negative r' IH];
    intros k st res.
  - cbn [m]. intros H Hst. now exists st.
  - cbn [m]. destruct (advance st) as [[c st']|] eqn:Hadv; [|discriminate].
    destruct (charMatches f lit c); [|discriminate].
    intros H Hst. exists st'. split; [now apply (within_advance st st' c)|exact H].
  - cbn [m]. destruct (advance st) as [[c st']|] eqn:Hadv; [|discriminate].
    destruct (isLineTerminator c); [discriminate|].
    intros H Hst. exists st'. split; [now apply (within_advance st st' c)|exact H].
  - cbn [m]. destruct (advance st) as [[c st']|] eqn:Hadv; [|discriminate].
    destruct (classMatches f negated rs c); [|discriminate].
    intros H Hst. exists st'. split; [now apply (within_advance st st' c)|exact H].
  - cbn [m]. intros H Hst. apply IH1 in H as (st1 & Hst1 & H); [|exact Hst].
    now apply IH2 in H.
  - cbn [m]. unfold orElse. destruct (m f r1 k st) eqn:H1.
    + intros [= <-]. now apply IH1.
    + now apply IH2.
  - rewrite m_Repeat. generalize (S (min + length (rest st))) as fuel.
    generalize 0 as count. intros count fuel. revert count st.
    induction fuel as [|fuel IHfuel]; intros count st; [discriminate|].
    cbn [repeatLoop]. intros H Hst.
    assert (Hiterate :
      (if belowMax max count
       then m f r'
              (fun st' =>
                 if bool_decide (min <= count)
                    && bool_decide (length (rest st') = length (rest st))
                 then None
                 else repeatLoop (m f r') (groupsOf r') min max greedy k fuel (S count) st')
              (MState (rest st) (prev st) (dropCaps (groupsOf r') (caps st)))
       else None) = Some res ->
      exists st1, stateWithin A st1 /\ k st1 = Some res).
    { destruct (belowMax max count); [|discriminate]. intros Hm.
      apply IH in Hm as (st1 & Hst1 & Hm).
      - destruct (_ && _); [discriminate|]. now apply IHfuel in Hm.
      - destruct Hst as [Hrest Hcaps]. split; [exact Hrest|]. cbn [caps].
        now apply within_dropCaps. }
    assert (Hleave :
      (if bool_decide (min <= count) then k st else None) = Some res ->
      exists st1, stateWithin A st1 /\ k st1 = Some res).
    { destruct (bool_decide _); [|discriminate]. intros Hk. now exists st. }
    revert H. destruct greedy; unfold orElse.
    + match goal with |- context [match ?x with Some _ => _ | None => _ end] =>
        destruct x eqn:Hx end.
      * intros [= <-]. now apply Hiterate.
      * exact Hleave.
    + match goal with |- context [match ?x with Some _ => _ | None => _ end] =>
        destruct x eqn:Hx end.
      * intros [= <-]. now apply Hleave.
      * exact Hiterate.
  - cbn [m]. intros H Hst. apply IH in H as (st1 & Hst1 & H); [|exact Hst].
    eexists. split; [|exact H]. destruct Hst1 as [Hrest Hcaps].
    split; [exact Hrest|]. cbn [caps]. unfold setCap.
    apply Forall_cons_2; [cbn [snd]; now apply within_consumed|now apply within_dropCaps].
  - cbn [m]. destruct (prev st) as [c|].
    + destruct (_ && _); [|discriminate]. intros H Hst. now exists st.
    + intros H Hst. now exists st.
  - cbn [m]. destruct (rest st) as [|c s] eqn:Hrest.
    + intros H Hst. now exists st.
    + destruct (_ && _); [|discriminate]. intros H Hst. now exists st.
  - cbn [m]. destruct (xorb _ _); [|discriminate]. intros H Hst. now exists st.
  - cbn [m]. destruct (m f r' Some st) as [st'|] eqn:Hlook; destruct negative; try discriminate.
    + intros H Hst. apply IH in Hlook as (st1 & Hst1 & [= <-]); [|exact Hst].
      eexists. split; [|exact H]. destruct Hst as [Hrest _], Hst1 as [_ Hcaps]. now split.
    + intros H Hst. now exists st.
Qed.

Lemma matchHere_within (f : flags) (r : regex) (p : option N) (s mt s' : jsstring)
  (cs : list (nat * jsstring)) :
  Forall A s -> matchHere f r p s = Some (mt, cs, s') ->
  Forall A mt /\ Forall (fun g => Forall A (snd g)) cs /\ Forall A s'.
Proof.
  intros Hs. unfold matchHere. destruct (m f r Some (MState s p [])) as [st'|] eqn:Hm;
    [|discriminate].
  intros [= <- <- <-]. apply m_within in Hm as (st1 & [Hrest Hcaps] & [= <-]).
  - split; [now apply Forall_take|now split].
  - split; [exact Hs|constructor].
Qed.

Lemma search_within (f : flags) (r : regex) (s : jsstring) :
  forall skipped p mr,
  Forall A s -> Forall A skipped -> search f r skipped p s = Some mr ->
  resultWithin A mr.
Proof.
  induction s as [|c s IH]; intros skipped p mr Hs Hskipped; cbn [search].
  - destruct (matchHere f r p []) as [[[mt cs] s']|] eqn:Hhere; [|discriminate].
    intros [= <-]. apply matchHere_within in Hhere as (Hmt & Hcs & Hs'); [|exact Hs].
    repeat split; try assumption. now apply Forall_rev.
  - destruct (matchHere f r p (c :: s)) as [[[mt cs] s']|] eqn:Hhere.
    + intros [= <-]. apply matchHere_within in Hhere as (Hmt & Hcs & Hs'); [|exact Hs].
      repeat split; try assumption. now apply Forall_rev.
    + apply Forall_cons in Hs as [Hc Hs]. apply IH; [exact Hs|now constructor].
Qed.

Lemma replaceFrom_within (f : flags) (r : regex) (replacer : matchResult -> jsstring)
  (fuel : nat) : forall p s,
  (forall mr, resultWithin A mr -> Forall A (replacer mr)) ->
  Forall A s -> Forall A (replaceFrom fuel f r replacer p s).
Proof.
  induction fuel as [|fuel IH]; intros p s Hreplacer Hs; [exact Hs|].
  cbn [replaceFrom]. destruct (search f r [] p s) as [mr|] eqn:Hsearch; [|exact Hs].
  apply search_within in Hsearch as Hmr; [|exact Hs|constructor].
  pose proof Hmr as (Hbefore & Hmatched & Hafter & Hgroups).
  apply Forall_app. split; [exact Hbefore|]. apply Forall_app. split; [now apply Hreplacer|].
  destruct (global f); [|exact Hafter].
  destruct (matched mr) as [|c mt].
  - destruct (RegExp.after mr) as [|c s']; [constructor|].
    apply Forall_cons in Hafter as [Hc Hs']. constructor; [exact Hc|now apply IH].
  - now apply IH.
Qed.

Lemma replace_within (f : flags) (r : regex) (replacer : matchResult -> jsstring)
  (s : jsstring) :
  (forall mr, resultWithin A mr -> Forall A (replacer mr)) ->
  Forall A s -> Forall A (replace f r replacer s).
Proof. apply replaceFrom_within. Qed.

Lemma replaceWith_within (f : flags) (r : regex) (text s : jsstring) :
  Forall A text -> Forall A s -> Forall A (replaceWith f r text s).
Proof. intros Htext. apply replace_within. now intros mr _. Qed.

Lemma exec_within (f : flags) (r : regex) (s : jsstring) (mr : matchResult) :
  Forall A s -> exec f r s = Some mr -> resultWithin A mr.
Proof. intros Hs. apply search_within; [exact Hs|constructor]. Qed.

Lemma groupText_within (mr : matchResult) (i : nat) :
  resultWithin A mr -> Forall A (groupText mr i).
Proof.
  intros (_ & _ & _ & Hgroups). unfold groupText, group.
  induction Hgroups as [|[j t] cs Ht _ IH]; cbn [getCap]; [constructor|].
  destruct (bool_decide (j = i)); [exact Ht|exact IH].
Qed.

Lemma trimStart_within (s : jsstring) : Forall A s -> Forall A (trimStart s).
Proof.
  induction 1 as [|c s Hc Hs IH]; [constructor|]. cbn [trimStart].
  destruct (isSpace c); [exact IH|now constructor].
Qed.

Lemma trim_within (s : jsstring) : Forall A s -> Forall A (trim s).
Proof.
  intros Hs. unfold trim, trimEnd. now apply Forall_rev, trimStart_within, Forall_rev,
    trimStart_within.
Qed.

Lemma lines_within (s : jsstring) : Forall A s -> Forall (Forall A) (lines s).
Proof.
  unfold lines. induction 1 as [|c s Hc Hs IH].
  - repeat constructor.
  - destruct (PlainTextFacts.split_cons newline c s) as (l & ls & Hsplit & ->).
    rewrite Hsplit in IH. apply Forall_cons in IH as [Hl Hls].
    destruct (N.eqb c newline); repeat constructor; assumption.
Qed.

Lemma unlines_within (ls : list jsstring) :
  A newline -> Forall (Forall A) ls -> Forall A (unlines ls).
Proof.
  intros Hbreak. unfold unlines. induction 1 as [|l ls Hl Hls IH]; [constructor|].
  destruct ls as [|l' ls]; [exact Hl|]. rewrite PlainTextFacts.join_cons.
  apply Forall_app. split; [exact Hl|]. now constructor.
Qed.

End Within.

(** ** The stages of [normalizeText] *)

Lemma clean_text (s : jsstring) : forallb cleanb s = true -> Forall clean s.
Proof.
  rewrite forallb_forall. intros Hs. apply Forall_forall. intros c Hc%list_elem_of_In.
  specialize (Hs c Hc). unfold cleanb in Hs. apply negb_true_iff in Hs.
  intros Hin%list_elem_of_In. apply not_true_iff_false in Hs. apply Hs.
  apply existsb_exists. exists c. split; [exact Hin|apply N.eqb_refl].
Qed.

Ltac constant := apply clean_text; vm_compute; reflexivity.

Lemma toUpperCase_clean (s : jsstring) : Forall clean s -> Forall clean (toUpperCase s).
Proof.
  unfold toUpperCase. induction 1 as [|c s Hc Hs IH]; [constructor|].
  cbn [map]. constructor; [|exact IH]. unfold upperChar.
  destruct ((97 <=? c)%N && (c <=? 122)%N) eqn:Hletter; [|exact Hc].
  apply andb_true_iff in Hletter as [H1%N.leb_le H2%N.leb_le].
  unfold clean, replaced. rewrite !elem_of_cons, elem_of_nil. lia.
Qed.

Ltac within :=
  repeat first
    [ assumption
    | apply Forall_nil_2
    | apply Forall_app; split
    | apply toUpperCase_clean
    | apply trim_within
    | apply groupText_within; assumption
    | constant ].

Lemma removeWordFormatting_clean (text : jsstring) :
  Forall clean text -> Forall clean (removeWordFormatting text).
Proof.
  intros Htext. unfold removeWordFormatting.
  repeat (apply replaceWith_within; [constant|]). exact Htext.
Qed.

Lemma fixWordImportIssues_clean (text : jsstring) :
  Forall clean text -> Forall clean (fixWordImportIssues text).
Proof.
  intros Htext. unfold fixWordImportIssues.
  repeat (apply replaceWith_within; [constant|]). exact Htext.
Qed.

Lemma fixManualInputIssues_clean (text : jsstring) :
  Forall clean text -> Forall clean (fixManualInputIssues text).
Proof.
  intros Htext. unfold fixManualInputIssues.
  apply replaceWith_within; [constant|]. apply unlines_within; [compute_done|].
  apply Forall_fmap. eapply Forall_impl; [|intros line; apply trim_within].
  apply lines_within. repeat (apply replaceWith_within; [constant|]). exact Htext.
Qed.

Lemma splitEmbedded_clean (line : jsstring) :
  Forall clean line -> Forall (Forall clean) (splitEmbedded line).
Proof.
  intros Hline. unfold splitEmbedded.
  destruct (exec flag_i embeddedStep line) as [mr1|] eqn:H1;
    [apply (exec_within clean) in H1; [|exact Hline]|];
  (destruct (exec flag_i embeddedRest line) as [mr2|] eqn:H2;
    [apply (exec_within clean) in H2; [|exact Hline]|]);
  cbn zeta;
  repeat match goal with
         | |- context [if ?b then _ else _] => destruct b
         end;
  repeat (apply Forall_cons_2; [within|]); apply Forall_nil_2.
Qed.

Lemma normalizeStepFormatting_clean (text : jsstring) :
  Forall clean text -> Forall clean (normalizeStepFormatting text).
Proof.
  intros Htext. unfold normalizeStepFormatting. cbn zeta.
  apply replaceWith_within; [constant|].
  repeat (apply replace_within; [intros mr Hmr; within|]).
  apply unlines_within; [compute_done|].
  apply Forall_flat_map. eapply Forall_impl; [apply lines_within, Htext|].
  intros line. apply splitEmbedded_clean.
Qed.

Lemma applyConsistencyRules_clean (text : jsstring) :
  Forall clean text -> Forall clean (applyConsistencyRules text).
Proof.
  intros Htext. unfold applyConsistencyRules.
  repeat (apply replaceWith_within; [constant|]).
  repeat (apply replace_within; [intros mr Hmr; within|]).
  exact Htext.
Qed.

Lemma encodeChar_clean (c : N) : c <> 13%N -> Forall clean (encodeChar c).
Proof.
  intros Hc. unfold encodeChar.
  destruct (N.eqb_spec c 8211); [constant|]. destruct (N.eqb_spec c 8212); [constant|].
  destruct (N.eqb_spec c 8230); [constant|]. destruct (N.eqb_spec c 160); [constant|].
  constructor; [|constructor]. unfold clean, replaced.
  rewrite !elem_of_cons, elem_of_nil. tauto.
Qed.

Lemma common_clean (text : jsstring) :
  Forall clean (normalizeEncoding (normalizeLineEndings text)).
Proof.
  rewrite normalizeEncoding_chars. apply Forall_flat_map, Forall_forall.
  intros c Hc. apply encodeChar_clean. intros ->.
  now apply (normalizeLineEndings_clean text).
Qed.

(** X21.  Whatever the text and the source, the normalized text holds
    no carriage return, no non-breaking space, no dash U+2013 or U+2014
    and no ellipsis U+2026: the first stages replace them, and the later
    stages insert fixed ASCII texts, parts of the text and capitals of
    such parts only. *)
Theorem normalizeText_leaves_no_replaced_character (text source : jsstring) :
  Forall (fun c => c ∉ replaced) (normalizeText text source).
Proof.
  unfold normalizeText. cbn zeta. apply applyConsistencyRules_clean.
  pose proof (common_clean (removeExtraWhitespace text)) as Hcommon.
  destruct (eqb source (js "word")).
  - unfold normalizeWordImport.
    now apply normalizeStepFormatting_clean, fixWordImportIssues_clean,
      removeWordFormatting_clean.
  - destruct (eqb source (js "manual")); [|exact Hcommon].
    unfold normalizeManualInput.
    now apply normalizeStepFormatting_clean, fixManualInputIssues_clean.
Qed.

End AlphabetFacts.

(* ===================================================================== *)
(** * Least recently used *)
(* ===================================================================== *)

Module RecencyFacts.
Import JsString RegExp RegexCache Recency RegexCacheFacts CacheFacts.

Lemma keys_mapDelete (k : jsstring) (mp : jsMap) :
  map fst (mapDelete k mp) = filter (fun k' => k' <> k) (map fst mp).
Proof.
  unfold mapDelete, jsMap. induction mp as [|e mp IH]; [reflexivity|].
  cbn [map]. rewrite !filter_cons. destruct (decide (fst e <> k)); cbn [map]; now rewrite IH.
Qed.

Lemma mapHas_keys (k : jsstring) (mp : jsMap) :
  mapHas k mp = false <-> k ∉ map fst mp.
Proof.
  rewrite mapHas_false. induction mp as [|e mp IH].
  - split; [intros _; apply not_elem_of_nil|constructor].
  - cbn [map]. rewrite Forall_cons, not_elem_of_cons, IH.
    split; intros [H1 H2]; (split; [intros Heq; apply H1; now rewrite Heq|exact H2]).
Qed.

Lemma mapGet_keys (k : jsstring) (mp : jsMap) :
  is_Some (mapGet k mp) <-> k ∈ map fst mp.
Proof.
  unfold mapGet. induction mp as [|e mp IH]; cbn [find map].
  - split; [now intros [? ?]|now intros ?%elem_of_nil].
  - unfold eqb at 1. case_bool_decide as He.
    + split; [intros _; rewrite He; left|intros _; now eexists].
    + rewrite IH, elem_of_cons. split; [now right|]. intros [->|?]; [done|assumption].
Qed.

Lemma filter_fresh (k : jsstring) (l : list jsstring) :
  k ∉ l -> filter (fun k' => k' <> k) l = l.
Proof.
  induction l as [|a l IH]; [reflexivity|]. intros [Ha Hl]%not_elem_of_cons.
  rewrite filter_cons. destruct (decide (a <> k)) as [_|Heq]; [now rewrite IH|].
  exfalso. apply Heq. intros ->. now apply Ha.
Qed.

Lemma length_filter_member (k : jsstring) (l : list jsstring) :
  NoDup l -> k ∈ l -> S (length (filter (fun k' => k' <> k) l)) = length l.
Proof.
  induction 1 as [|a l Ha Hl IH]; [now intros ?%elem_of_nil|].
  rewrite filter_cons. intros [->|Hk]%elem_of_cons.
  - destruct (decide (a <> a)); [congruence|]. now rewrite filter_fresh.
  - destruct (decide (a <> k)) as [_|Heq]; [cbn [length]; now rewrite IH|].
    exfalso. apply Ha. apply dec_stable in Heq. now rewrite Heq.
Qed.

Lemma touch_NoDup (used : list jsstring) (key : jsstring) :
  NoDup used -> NoDup (touch used key).
Proof.
  intros Hused. unfold touch. apply NoDup_app. split; [now apply NoDup_filter|].
  split; [|apply NoDup_singleton].
  intros k [Hk _]%list_elem_of_filter Heq%list_elem_of_singleton. now apply Hk.
Qed.

Lemma recency_NoDup (keys : list jsstring) : NoDup (recency keys).
Proof.
  unfold recency. assert (H : forall used, NoDup used -> NoDup (fold_left touch keys used)).
  { induction keys as [|k keys IH]; intros used Hused; [exact Hused|].
    cbn [fold_left]. now apply IH, touch_NoDup. }
  apply H. constructor.
Qed.

(** The last [n] keys after one more use. *)
Lemma lastn_touch (n : nat) (used : list jsstring) (key : jsstring) :
  1 <= n -> NoDup used ->
  lastn n (touch used key) =
  if bool_decide (key ∈ lastn n used)
  then filter (fun k => k <> key) (lastn n used) ++ [key]
  else (if bool_decide (n <= length (lastn n used))
        then tail (lastn n used) else lastn n used) ++ [key].
Proof.
  intros Hn Hused. unfold lastn, touch.
  rewrite <- (take_drop (length used - n) used) in Hused.
  apply NoDup_app in Hused as (Hpre & Hdisjoint & Hkeys).
  rewrite <- (take_drop (length used - n) used) at 1 2.
  set (pre := take (length used - n) used) in *.
  set (keys := drop (length used - n) used) in *.
  assert (Hlen : length pre + length keys = length used).
  { unfold pre, keys. rewrite length_take, length_drop. lia. }
  assert (Hkeyslen : length keys = Nat.min n (length used)).
  { unfold keys. rewrite length_drop. lia. }
  rewrite filter_app, !length_app. cbn [length].
  case_bool_decide as Hmember.
  - assert (Hfresh : key ∉ pre) by (intros Hin; now apply (Hdisjoint key)).
    rewrite (filter_fresh _ _ Hfresh).
    pose proof (length_filter_member key keys Hkeys Hmember) as Hfiltered.
    rewrite <- app_assoc.
    replace (length pre + length (filter (fun k => k <> key) keys) + 1 - n)
      with (length pre + 0) by lia.
    now rewrite drop_app_length'.
  - rewrite (filter_fresh _ keys Hmember). case_bool_decide as Hfull.
    + destruct keys as [|k0 rest] eqn:Hk; [cbn in Hfull; lia|]. cbn [tail length] in *.
      rewrite <- app_assoc.
      replace (length (filter (fun k => k <> key) pre) + S (length rest) + 1 - n)
        with (length (filter (fun k => k <> key) pre) + 1) by lia.
      rewrite drop_app_add'; [|reflexivity]. reflexivity.
    + assert (Hpre0 : pre = []).
      { apply length_zero_iff_nil. lia. }
      rewrite Hpre0. cbn [filter app length]. rewrite filter_nil. cbn [app length].
      replace (0 + length keys + 1 - n) with 0 by lia. reflexivity.
Qed.

Lemma mapDelete_fresh (k : jsstring) (mp : jsMap) :
  mapHas k mp = false -> mapDelete k mp = mp.
Proof.
  rewrite mapHas_false. unfold mapDelete, jsMap.
  induction 1 as [|e mp He _ IH]; [reflexivity|].
  rewrite filter_cons. destruct (decide _); [now rewrite IH|contradiction].
Qed.

Section Order.
Variable parsePattern : jsstring -> jsstring -> option regex.

Lemma getRegex_keys (p fl : jsstring) (c : RegexCache) :
  compiles parsePattern (p, fl) -> (1 <= maxSize c)%Z -> NoDup (map fst (cache c)) ->
  maxSize (snd (getRegex parsePattern p fl c)) = maxSize c /\
  map fst (cache (snd (getRegex parsePattern p fl c))) =
    if bool_decide (cacheKey p fl ∈ map fst (cache c))
    then filter (fun k => k <> cacheKey p fl) (map fst (cache c)) ++ [cacheKey p fl]
    else (if bool_decide (Z.to_nat (maxSize c) <= length (map fst (cache c)))
          then tail (map fst (cache c)) else map fst (cache c)) ++ [cacheKey p fl].
Proof.
  intros [o Ho] Hmax Hkeys. unfold RegexCache.getRegex.
  destruct (mapGet (cacheKey p fl) (cache c)) as [regex|] eqn:Hget.
  - cbn [snd maxSize cache]. split; [reflexivity|].
    rewrite bool_decide_eq_true_2 by (apply mapGet_keys; rewrite Hget; now eexists).
    rewrite (mapSet_fresh _ _ _ (mapHas_mapDelete _ _)), map_app, keys_mapDelete.
    reflexivity.
  - cbn [fst snd] in Ho. rewrite Ho. cbn [snd maxSize cache]. split; [reflexivity|].
    assert (Hfresh : cacheKey p fl ∉ map fst (cache c)).
    { intros Hin%mapGet_keys. rewrite Hget in Hin. now destruct Hin. }
    rewrite bool_decide_eq_false_2 by exact Hfresh.
    unfold size. rewrite length_map.
    destruct (Z.leb_spec (maxSize c) (Z.of_nat (length (cache c)))) as [Hfull|Hroom].
    + rewrite bool_decide_eq_true_2 by lia.
      destruct (cache c) as [|[firstKey v] mp] eqn:Hcache; [cbn in Hfull; lia|].
      cbn [map fst tail] in *. apply NoDup_cons in Hkeys as [Hfirst Hrest].
      apply not_elem_of_cons in Hfresh as [Hne Hfresh].
      assert (Hdeleted : mapDelete firstKey ((firstKey, v) :: mp) = mp).
      { apply mapHas_keys in Hfirst. rewrite <- (mapDelete_fresh _ _ Hfirst) at 2.
        unfold mapDelete, jsMap. rewrite filter_cons.
        destruct (decide _) as [Hk|_]; [now cbn in Hk|reflexivity]. }
      rewrite Hdeleted, mapSet_fresh by (now apply mapHas_keys). now rewrite map_app.
    + rewrite bool_decide_eq_false_2 by lia.
      rewrite mapSet_fresh by (now apply mapHas_keys). now rewrite map_app.
Qed.

Lemma getAll_keys (requests : list (jsstring * jsstring)) :
  forall (c : RegexCache) (used : list jsstring),
  Forall (compiles parsePattern) requests -> (1 <= maxSize c)%Z -> NoDup used ->
  map fst (cache c) = lastn (Z.to_nat (maxSize c)) used ->
  map fst (cache (getAll parsePattern requests c)) =
    lastn (Z.to_nat (maxSize c)) (fold_left touch (map keyOf requests) used).
Proof.
  induction requests as [|[p fl] requests IH]; intros c used Hall Hmax Hused Hkeys;
    [exact Hkeys|].
  apply Forall_cons in Hall as [Hrequest Hall]. cbn [getAll fold_left map fst snd keyOf].
  destruct (getRegex_keys p fl c Hrequest Hmax) as [Hsame Hkeys'].
  { rewrite Hkeys. unfold lastn. pose proof Hused as Hsplit.
    rewrite <- (take_drop (length used - Z.to_nat (maxSize c)) used) in Hsplit.
    now apply NoDup_app in Hsplit as (_ & _ & ?). }
  rewrite <- Hsame. apply IH; [exact Hall|now rewrite Hsame|now apply touch_NoDup|].
  rewrite Hsame, Hkeys', lastn_touch, Hkeys by (assumption || lia). reflexivity.
Qed.

(** X22.  The cache is a least-recently-used cache: after any sequence
    of requests that compile, made to a new cache of capacity
    [capacity >= 1], the keys of the map are the [capacity] most
    recently used distinct keys, in the order of their last use. *)
Theorem cache_keeps_most_recently_used (capacity : Z)
  (requests : list (jsstring * jsstring)) :
  (1 <= capacity)%Z -> Forall (compiles parsePattern) requests ->
  map fst (cache (getAll parsePattern requests (new capacity))) =
    lastn (Z.to_nat capacity) (recency (map keyOf requests)).
Proof.
  intros Hcapacity Hrequests.
  apply (getAll_keys requests (new capacity) []); try assumption; [constructor|].
  reflexivity.
Qed.

End Order.

(** Three keys in a cache of capacity 2, the first one used again
    before the third arrives: the second one is evicted. *)
Lemma cache_keeps_most_recently_used_witness :
  let requests := [(js "a", []); (js "b", []); (js "a", []); (js "c", [])] in
  (1 <= 2)%Z /\ Forall (compiles literalPattern) requests /\
  map fst (cache (getAll literalPattern requests (new 2))) = [js "a:::"; js "c:::"].
Proof.
  intros requests.
  assert (Hcapacity : (1 <= 2)%Z) by lia.
  assert (Hrequests : Forall (compiles literalPattern) requests).
  { repeat (apply Forall_cons_2; [now eexists|]). apply Forall_nil_2. }
  split; [exact Hcapacity|]. split; [exact Hrequests|].
  rewrite (cache_keeps_most_recently_used literalPattern 2 requests Hcapacity Hrequests).
  reflexivity.
Defined.

End RecencyFacts.

(* ===================================================================== *)
(** * What the line counts count *)
(* ===================================================================== *)

Module MetadataFacts.
Import JsString Normalizer Metadata.

Lemma splitOnFrom_plain (s : jsstring) : forall piece,
  92%N ∉ s -> splitOnFrom backslashN 0 piece s = [rev piece ++ s].
Proof.
  induction s as [|c s IH]; intros piece Hs.
  - cbn. now rewrite app_nil_r.
  - apply not_elem_of_cons in Hs as [Hc Hs].
    assert (Hstart : startsWith (c :: s) backslashN = false).
    { cbn [backslashN startsWith]. now destruct (N.eqb_spec 92 c) as [<-|_]. }
    cbn [splitOnFrom]. rewrite Hstart, (IH _ Hs). cbn [rev].
    rewrite <- app_assoc. reflexivity.
Qed.

Lemma splitOnFrom_cut (a b : jsstring) : forall piece,
  92%N ∉ a ->
  splitOnFrom backslashN 0 piece (a ++ backslashN ++ b) =
  (rev piece ++ a) :: splitOn backslashN b.
Proof.
  induction a as [|c a IH]; intros piece Ha.
  - rewrite app_nil_r. destruct b; reflexivity.
  - apply not_elem_of_cons in Ha as [Hc Ha].
    assert (Hstart : startsWith (c :: a ++ backslashN ++ b) backslashN = false).
    { cbn [backslashN startsWith]. now destruct (N.eqb_spec 92 c) as [<-|_]. }
    cbn [app splitOnFrom]. rewrite Hstart, (IH _ Ha). cbn [rev].
    rewrite <- app_assoc. reflexivity.
Qed.

(** X23.  The two line counts of the parsing metadata count the
    occurrences of the two characters backslash and n, not the line
    breaks: the count of a text without backslash is 1, however many
    lines it has, and every occurrence of backslash-n after a text
    without backslash adds the count of what follows it. *)
Theorem line_counts_count_backslash_n (a b : jsstring) :
  92%N ∉ a ->
  lineCount a = 1 /\
  lineCount (a ++ backslashN ++ b) = lineCount a + lineCount b.
Proof.
  intros Ha. unfold lineCount, splitOn.
  rewrite (splitOnFrom_plain a [] Ha), (splitOnFrom_cut a b [] Ha). now split.
Qed.

(** A text of three lines. *)
Lemma line_counts_count_backslash_n_witness :
  let text := js "RUST" ++ [newline] ++ js "SCHRITT 1" ++ [newline] ++ js "SCHRITT 2" in
  92%N ∉ text /\ length (lines text) = 3 /\ lineCount text = 1.
Proof.
  intros text.
  assert (H : 92%N ∉ text) by compute_done.
  split; [exact H|]. split; [reflexivity|].
  exact (proj1 (line_counts_count_backslash_n text [] H)).
Defined.

End MetadataFacts.

(* ===================================================================== *)
(** * Custom groups and the order of the classification *)
(* ===================================================================== *)

Module RuleMergingFacts.
Import JsString RegExp ValidationRules RuleMerging ValidationRulesFacts.

Lemma insertEntry_named (entry : jsstring * GroupConfig)
  (entries : list (jsstring * GroupConfig)) :
  XmlBuilder.arrayIndex (fst entry) = None -> insertEntry entry entries = entries ++ [entry].
Proof.
  intros Hkey. induction entries as [|e entries IH]; [reflexivity|].
  cbn [insertEntry app]. rewrite Hkey, IH. reflexivity.
Qed.

Lemma spread_new (source : list (jsstring * GroupConfig)) :
  forall target,
  named source ->
  NoDup (map fst source) ->
  Forall (fun entry => fst entry ∉ map fst target) source ->
  spread target source = target ++ source.
Proof.
  unfold spread, named.
  induction source as [|entry source IH]; intros target Hnamed Hnodup Hnew.
  - now rewrite app_nil_r.
  - cbn [map] in Hnodup. apply NoDup_cons in Hnodup as [Hfresh Hnodup].
    apply Forall_cons in Hnew as [Hentry Hnew].
    apply Forall_cons in Hnamed as [Hkey Hnamed]. cbn [fold_left].
    assert (Hset : setEntry target entry = target ++ [entry]).
    { unfold setEntry.
      destruct (existsb (fun e => eqb (fst e) (fst entry)) target) eqn:Hexists;
        [|now apply insertEntry_named].
      exfalso. apply existsb_exists in Hexists as (e & He & Heq).
      unfold eqb in Heq. apply bool_decide_eq_true_1 in Heq.
      apply Hentry. rewrite <- Heq. apply list_elem_of_fmap. exists e.
      split; [reflexivity|now apply list_elem_of_In]. }
    rewrite Hset, IH; [now rewrite <- app_assoc|exact Hnamed|exact Hnodup|].
    apply Forall_forall. intros e He. rewrite map_app, elem_of_app. intros [Hin|Hin].
    + rewrite Forall_forall in Hnew. now apply (Hnew e).
    + cbn in Hin. apply list_elem_of_singleton in Hin. apply Hfresh. rewrite <- Hin.
      apply list_elem_of_fmap. now exists e.
Qed.

Lemma find_first {X} (f : X -> bool) (l1 l2 : list X) (x : X) :
  find f l1 = Some x -> find f (l1 ++ l2) = Some x.
Proof.
  induction l1 as [|a l1 IH]; [discriminate|]. cbn [app find].
  destruct (f a); [easy|exact IH].
Qed.

(** X24.  Custom groups with new names that are no array indices (no
    canonical decimal numerals such as 7) are placed after the default
    groups by [mergeValidationRules]; so they never take a name from a
    default group: a name for which some default group is eligible is
    classified under the merged rules as under the default rules.  Rules
    without custom groups are merged into the default groups
    themselves. *)
Theorem custom_groups_come_last (custom : list (jsstring * GroupConfig))
  (defaultRules : Rules) :
  named custom ->
  NoDup (map fst custom) ->
  Forall (fun entry => fst entry ∉ map fst (groups defaultRules)) custom ->
  groups (mergeValidationRules (MkCustomRules (Some custom)) defaultRules) =
    groups defaultRules ++ custom /\
  groups (mergeValidationRules (MkCustomRules None) defaultRules) = groups defaultRules /\
  forall name,
    Exists (fun entry => eligible name entry = true) (groups defaultRules) ->
    determineVariableGroup name
      (mergeValidationRules (MkCustomRules (Some custom)) defaultRules) =
    determineVariableGroup name defaultRules.
Proof.
  intros Hnamed Hnodup Hnew.
  assert (Hmerged : groups (mergeValidationRules (MkCustomRules (Some custom)) defaultRules)
                    = groups defaultRules ++ custom).
  { cbn [mergeValidationRules groups customGroups default]. now apply spread_new. }
  split; [exact Hmerged|]. split; [reflexivity|].
  intros name Heligible. unfold determineVariableGroup.
  destruct (isEmpty name); [reflexivity|]. f_equal.
  rewrite !firstGroup_find, Hmerged. fold (eligible name).
  apply Exists_exists in Heligible as (entry & Hin%list_elem_of_In & Hentry).
  destruct (find (eligible name) (groups defaultRules)) as [found|] eqn:Hfind.
  - change (fun entry0 : jsstring * GroupConfig =>
              negb (isExcluded name (snd entry0)) && isMatched name (snd entry0))
      with (eligible name).
    now rewrite (find_first _ _ _ _ Hfind).
  - apply (find_none _ _ Hfind) in Hin. congruence.
Qed.

Lemma custom_groups_come_last_witness :
  let pomp := MkGroupConfig [re [Str (js "Pomp")]] None (MkGroupValidation false false 0) in
  let custom := [(js "pomp", pomp)] in
  named custom /\
  NoDup (map fst custom) /\
  Forall (fun entry => fst entry ∉ map fst (groups DEFAULT_VALIDATION_RULES)) custom /\
  determineVariableGroup (js "Pomp 1 =")
    (mergeValidationRules (MkCustomRules (Some custom)) DEFAULT_VALIDATION_RULES) =
  Some (js "hulpmerker").
Proof.
  intros pomp custom.
  assert (Hnamed : named custom) by (apply Forall_cons_2; [reflexivity|apply Forall_nil_2]).
  assert (Hnodup : NoDup (map fst custom)) by (apply NoDup_singleton).
  assert (Hnew : Forall (fun entry => fst entry ∉ map fst (groups DEFAULT_VALIDATION_RULES))
                        custom).
  { apply Forall_cons_2; [compute_done|apply Forall_nil_2]. }
  split; [exact Hnamed|]. split; [exact Hnodup|]. split; [exact Hnew|].
  destruct (custom_groups_come_last custom DEFAULT_VALIDATION_RULES Hnamed Hnodup Hnew)
    as (_ & _ & Hclass).
  rewrite Hclass; [vm_compute; reflexivity|].
  apply Exists_cons_hd. vm_compute. reflexivity.
Defined.

(** A custom group whose name is an array index is listed before the
    default groups, and takes the names it matches from them. *)
Lemma index_named_group_comes_first :
  let pomp := MkGroupConfig [re [Str (js "Pomp")]] None (MkGroupValidation false false 0) in
  let merged :=
    mergeValidationRules (MkCustomRules (Some [(js "7", pomp)])) DEFAULT_VALIDATION_RULES in
  groups merged = (js "7", pomp) :: groups DEFAULT_VALIDATION_RULES /\
  determineVariableGroup (js "Pomp 1 =") merged = Some (js "7").
Proof. vm_compute. split; reflexivity. Qed.

End RuleMergingFacts.
